(** * timeseries-expr: the two compile/evaluate pipelines

    The repository holds two implementations of the same small language of
    assignments [TARGET = EXPRESSION]:

    - namespace [tsexpr] (src/lexer.cpp, src/parser.cpp,
      include/tsexpr/program.hpp): text -> tokens -> postfix tokens ->
      [Program] of [Instr] -> [Program::execute] against a backend;
    - namespace [ts::expr] (src/expr.cpp): text -> tokens -> [Compiled]
      (target and postfix tokens) -> [eval_rpn] -> [execute_assignment].

    Both are embedded below, function by function.  [double] is Rocq's
    primitive binary64 [float]; [int] is [Z]; [std::vector] is [list];
    [std::map<std::string, V>] is [gmap string V]; a C++ exception is the
    [Err] branch of [Result]. *)

From Stdlib Require Import ZArith Floats String Ascii List Lia.
From stdpp Require Import gmap strings.
Import ListNotations.

Local Open Scope string_scope.
Local Open Scope list_scope.

(** ** Exceptions

    [ParseError] and [EvalError] both derive from [std::runtime_error]; the
    stub time series and the example backends throw [std::runtime_error]
    itself. *)

Inductive Error : Type :=
  | ParseError (what : string)
  | EvalError (what : string)
  | runtime_error (what : string).

Inductive Result (A : Type) : Type :=
  | Ok (a : A)
  | Err (e : Error).

Arguments Ok {A} a.
Arguments Err {A} e.

Definition bind {A B : Type} (r : Result A) (k : A -> Result B) : Result B :=
  match r with
  | Ok a => k a
  | Err e => Err e
  end.

Notation "x <- r ;; k" := (bind r (fun x => k))
  (at level 100, r at next level, right associativity).

Definition is_parse_error {A : Type} (r : Result A) : Prop :=
  exists what, r = Err (ParseError what).

Definition is_eval_error {A : Type} (r : Result A) : Prop :=
  exists what, r = Err (EvalError what).

(** ** The C library, as far as the code uses it *)

Module libc.

(** <cctype> in the "C" locale, on [unsigned char]. *)
Definition isdigit (c : ascii) : bool :=
  let n := nat_of_ascii c in (48 <=? n)%nat && (n <=? 57)%nat.

Definition isalpha (c : ascii) : bool :=
  let n := nat_of_ascii c in
  ((65 <=? n)%nat && (n <=? 90)%nat) || ((97 <=? n)%nat && (n <=? 122)%nat).

Definition isalnum (c : ascii) : bool := isalpha c || isdigit c.

Definition isspace (c : ascii) : bool :=
  let n := nat_of_ascii c in
  (n =? 32)%nat || ((9 <=? n)%nat && (n <=? 13)%nat).

(** [static_cast<double>(n)] for an [int] n: the nearest double, exact
    for every 32-bit value. *)
Definition int_to_double (n : Z) : float :=
  SF2Prim (binary_normalize prec emax n 0 false).

(** [static_cast<int>(x)]: truncation toward zero (the cast is undefined
    for NaN, infinities and values out of range; the model gives 0 for
    the first two and the truncated value otherwise). *)
Definition double_to_int (x : float) : Z :=
  match Prim2SF x with
  | S754_finite s m e =>
      let a := match e with
               | Zneg k => Z.shiftr (Zpos m) (Zpos k)
               | _ => Z.shiftl (Zpos m) e
               end in
      if s then (- a)%Z else a
  | _ => 0%Z
  end.

(** *** A concrete [strtod] for decimal literals

    [std::strtod(begin, &end)] is not part of the repository; the lexers
    below take it as a parameter [strtod : string -> float * nat] giving
    the value and the number of characters consumed ([end - begin], 0
    when no conversion is possible).  [strtod_dec] is the instance used
    for the worked examples: digits, an optional fraction, an optional
    exponent, rounded to nearest-even. *)

Definition digit_val (c : ascii) : Z := Z.of_nat (nat_of_ascii c) - 48.

(** Reads a run of digits: accumulated value, count, rest. *)
Fixpoint digits (s : string) (acc : Z) (n : nat) : Z * nat * string :=
  match s with
  | String c r =>
      if isdigit c then digits r (10 * acc + digit_val c)%Z (S n)
      else (acc, n, s)
  | EmptyString => (acc, n, s)
  end.

Definition exponent (s : string) : Z * nat :=
  match s with
  | String c r =>
      if (c =? "e")%char || (c =? "E")%char then
        let '(neg, k, r') :=
          match r with
          | String "-" r' => (true, 1%nat, r')
          | String "+" r' => (false, 1%nat, r')
          | _ => (false, 0%nat, r)
          end in
        let '(e, n, _) := digits r' 0%Z 0%nat in
        match n with
        | O => (0%Z, 0%nat)
        | _ => (if neg then (- e)%Z else e, S (k + n))
        end
      else (0%Z, 0%nat)
  | EmptyString => (0%Z, 0%nat)
  end.

Definition decimal_to_double (m e10 : Z) : float :=
  match m with
  | Zpos p =>
      if (0 <=? e10)%Z
      then SF2Prim (binary_normalize prec emax (m * 10 ^ e10) 0 false)
      else
        match (10 ^ (- e10))%Z with
        | Zpos q =>
            SF2Prim (SFdiv prec emax (S754_finite false p 0)
                                     (S754_finite false q 0))
        | _ => PrimFloat.zero
        end
  | _ => PrimFloat.zero
  end.

Definition strtod_dec (s : string) : float * nat :=
  let '(ip, n1, r1) := digits s 0%Z 0%nat in
  let '(m, n2, r2, dot) :=
    match r1 with
    | String "." r =>
        let '(m, n2, r2) := digits r ip 0%nat in (m, n2, r2, 1%nat)
    | _ => (ip, 0%nat, r1, 0%nat)
    end in
  match (n1 + n2)%nat with
  | O => (PrimFloat.zero, 0%nat)
  | _ =>
      let '(e, n3) := exponent r2 in
      (decimal_to_double m (e - Z.of_nat n2), (n1 + dot + n2 + n3)%nat)
  end.

End libc.

(** ** Scanning helpers shared by the two lexers

    A lexer object is [(s_, i_)]; the model keeps the unread suffix
    [s_.substr(i_)], so that [++i_] is taking the tail. *)

Module scan.

Definition is_ident_start (c : ascii) : bool :=
  libc.isalpha c || (c =? "_")%char.

Definition is_ident_char (c : ascii) : bool :=
  libc.isalnum c || (c =? "_")%char.

(** [while (i_ < size && isspace(s_[i_])) ++i_;] *)
Fixpoint skip_ws (s : string) : string :=
  match s with
  | String c r => if libc.isspace c then skip_ws r else s
  | EmptyString => s
  end.

(** [while (i_ < size && s_[i_] != '`') ++i_;] then the end test: the
    text before the closing back-tick and the suffix after it, or [None]
    when the end of the input is reached first. *)
Fixpoint backtick (s : string) : option (string * string) :=
  match s with
  | String c r =>
      if (c =? "`")%char then Some (EmptyString, r)
      else match backtick r with
           | Some (txt, r') => Some (String c txt, r')
           | None => None
           end
  | EmptyString => None
  end.

(** [while (i_ < size && is_ident_char(s_[i_])) ++i_;] *)
Fixpoint ident (s : string) : string * string :=
  match s with
  | String c r =>
      if is_ident_char c
      then let '(txt, r') := ident r in (String c txt, r')
      else (EmptyString, s)
  | EmptyString => (EmptyString, s)
  end.

(** [i_ += n] *)
Fixpoint advance (n : nat) (s : string) : string :=
  match n, s with
  | S n', String _ r => advance n' r
  | _, _ => s
  end.

End scan.

(** Token kinds; the two headers list the same enumerators. *)
Inductive TokKind : Type :=
  | Ident | Number
  | Plus | Minus | Star | Slash
  | LParen | RParen
  | Comma | Assign | End
  | Neg | Func.

(** The [switch (c)] on the single-character tokens, in both lexers. *)
Definition single_char (c : ascii) : option TokKind :=
  if (c =? "+")%char then Some Plus
  else if (c =? "-")%char then Some Minus
  else if (c =? "*")%char then Some Star
  else if (c =? "/")%char then Some Slash
  else if (c =? "(")%char then Some LParen
  else if (c =? ")")%char then Some RParen
  else if (c =? ",")%char then Some Comma
  else if (c =? "=")%char then Some Assign
  else None.

Definition TokKind_eqb (a b : TokKind) : bool :=
  match a, b with
  | Ident, Ident | Number, Number | Plus, Plus | Minus, Minus
  | Star, Star | Slash, Slash | LParen, LParen | RParen, RParen
  | Comma, Comma | Assign, Assign | End, End | Neg, Neg | Func, Func => true
  | _, _ => false
  end.

(** * Namespace tsexpr: lexer.cpp, parser.cpp, program.hpp *)

Module tsexpr.

(** token.hpp: [number] also carries a [Func] token's argument count. *)
Record Token : Type := mkToken
  { kind : TokKind; text : string; number : float }.

(** [Token{k}]: the remaining members take their defaults. *)
Definition tok (k : TokKind) : Token := mkToken k "" 0%float.

(** ** Lexer::next (lexer.cpp) *)

Section Lexer.

Variable strtod : string -> float * nat.

Definition next (s : string) : Result (Token * string) :=
  match scan.skip_ws s with
  | EmptyString => Ok (tok End, EmptyString)
  | String c r as s1 =>
      match single_char c with
      | Some k => Ok (tok k, r)
      | None =>
          if (c =? "`")%char then
            match scan.backtick r with
            | None => Err (ParseError "Unterminated backtick identifier")
            | Some (txt, r') => Ok (mkToken Ident txt 0%float, r')
            end
          else if scan.is_ident_start c then
            let '(txt, r') := scan.ident r in
            Ok (mkToken Ident (String c txt) 0%float, r')
          else if libc.isdigit c || (c =? ".")%char then
            let '(v, n) := strtod s1 in
            match n with
            | O => Err (ParseError "Invalid number")
            | _ => Ok (mkToken Number "" v, scan.advance n s1)
            end
          else
            Err (ParseError
                   ("Unexpected character: '" +:+ String c "'"))
      end
  end.

(** What successive calls of [lex.next()] return on an input: the
    tokens before [End], and the exception that cuts the sequence
    short, if there is one.  Every call that returns a token other
    than [End] consumes a character, so [S (length s)] calls are
    enough ([tokens_unfold] below). *)
Fixpoint tokens_upto (fuel : nat) (s : string)
  : list Token * option Error :=
  match fuel with
  | O => ([], None)
  | S fuel' =>
      match next s with
      | Err e => ([], Some e)
      | Ok (t, s') =>
          match kind t with
          | End => ([], None)
          | _ => let '(ts, e) := tokens_upto fuel' s' in (t :: ts, e)
          end
      end
  end.

Definition tokens (s : string) : list Token * option Error :=
  tokens_upto (S (String.length s)) s.

End Lexer.

(** The lexer as the parser sees it: [lex.next()] on the remaining
    token sequence. *)
Definition Lexer : Type := (list Token * option Error)%type.

Definition lex_next (lex : Lexer) : Result (Token * Lexer) :=
  match lex with
  | (t :: rest, tail) => Ok (t, (rest, tail))
  | ([], Some e) => Err e
  | ([], None) => Ok (tok End, lex)
  end.

(** ** parser.cpp *)

Definition precedence (k : TokKind) : Z :=
  match k with
  | Neg => 4
  | Star | Slash => 3
  | Plus | Minus => 2
  | _ => 0
  end.

Definition is_right_assoc (k : TokKind) : bool := TokKind_eqb k Neg.

Definition is_op (k : TokKind) : bool :=
  match k with
  | Plus | Minus | Star | Slash | Neg => true
  | _ => false
  end.

Record FnFrame : Type := mkFnFrame
  { name : string; argc : Z; saw_any_arg : bool }.

(** The locals of [to_rpn].  [output] grows at its end; [opstack] and
    [fnstack] have their [back()] at the head. *)
Record RpnState : Type := mkRpnState
  { output : list Token;
    opstack : list Token;
    expect_operand : bool;
    fnstack : list FnFrame }.

Definition rpn_init : RpnState := mkRpnState [] [] true [].

(** [if (!fnstack.empty()) fnstack.back().saw_any_arg = true;] *)
Definition mark_arg (fs : list FnFrame) : list FnFrame :=
  match fs with
  | f :: fs' => mkFnFrame (name f) (argc f) true :: fs'
  | [] => []
  end.

(** [while (!opstack.empty() && opstack.back().kind != LParen)
      { output.push_back(opstack.back()); opstack.pop_back(); }] *)
Fixpoint pop_to_lparen (out ops : list Token) : list Token * list Token :=
  match ops with
  | top :: ops' =>
      match kind top with
      | LParen => (out, ops)
      | _ => pop_to_lparen (out ++ [top]) ops'
      end
  | [] => (out, [])
  end.

Definition pop_it (topk curk : TokKind) : bool :=
  if is_right_assoc curk
  then (precedence curk <? precedence topk)%Z
  else (precedence curk <=? precedence topk)%Z.

(** The [while] of the operator case. *)
Fixpoint pop_operators (curk : TokKind) (out ops : list Token)
  : list Token * list Token :=
  match ops with
  | top :: ops' =>
      if is_op (kind top) && pop_it (kind top) curk
      then pop_operators curk (out ++ [top]) ops'
      else (out, ops)
  | [] => (out, [])
  end.

(** An identifier whose lookahead [peek] is ['(']. *)
Definition on_call (st : RpnState) (t peek : Token) : RpnState :=
  mkRpnState (output st)
             (peek :: mkToken Func (text t) 0%float :: opstack st)
             true
             (mkFnFrame (text t) 0 false :: fnstack st).

(** An identifier not followed by ['('], or a number. *)
Definition on_operand (st : RpnState) (t : Token) : RpnState :=
  mkRpnState (output st ++ [t]) (opstack st) false (mark_arg (fnstack st)).

Definition on_lparen (st : RpnState) (t : Token) : RpnState :=
  mkRpnState (output st) (t :: opstack st) true (fnstack st).

Definition on_comma (st : RpnState) : Result RpnState :=
  let '(out, ops) := pop_to_lparen (output st) (opstack st) in
  match ops with
  | [] => Err (ParseError "Comma not within function call")
  | _ :: _ =>
      match fnstack st with
      | [] => Err (ParseError "Internal error: comma with no function frame")
      | f :: fs =>
          Ok (mkRpnState out ops true
                (mkFnFrame (name f) (argc f + 1) (saw_any_arg f) :: fs))
      end
  end.

Definition on_rparen (st : RpnState) : Result RpnState :=
  let '(out, ops) := pop_to_lparen (output st) (opstack st) in
  match ops with
  | [] => Err (ParseError "Mismatched ')'")
  | _ :: ops1 =>
      match ops1 with
      | fn :: ops2 =>
          match kind fn with
          | Func =>
              match fnstack st with
              | [] => Err (ParseError
                        "Internal error: function close with no frame")
              | frame :: fs =>
                  let n := if saw_any_arg frame then (argc frame + 1)%Z
                           else 0%Z in
                  Ok (mkRpnState
                        (out ++ [mkToken Func (text fn)
                                   (libc.int_to_double n)])
                        ops2 false (mark_arg fs))
              end
          | _ => Ok (mkRpnState out ops1 false (fnstack st))
          end
      | [] => Ok (mkRpnState out ops1 false (fnstack st))
      end
  end.

(** [t] with its kind already rewritten to [Neg] when it is a unary
    minus. *)
Definition on_operator (st : RpnState) (t : Token) : RpnState :=
  let '(out, ops) := pop_operators (kind t) (output st) (opstack st) in
  mkRpnState out (t :: ops) true (fnstack st).

(** [if (t.kind == Minus && expect_operand) t.kind = Neg;] *)
Definition retag_minus (st : RpnState) (t : Token) : Token :=
  match kind t with
  | Minus => if expect_operand st
             then mkToken Neg (text t) (number t) else t
  | _ => t
  end.

(** One turn of the [while] for a token that is not an identifier. *)
Definition step (st : RpnState) (t : Token) : Result RpnState :=
  match kind t with
  | Number => Ok (on_operand st t)
  | LParen => Ok (on_lparen st t)
  | Comma => on_comma st
  | RParen => on_rparen st
  | _ =>
      let t' := retag_minus st t in
      if is_op (kind t') then Ok (on_operator st t')
      else Err (ParseError "Unexpected token in expression")
  end.

(** [while (t.kind != End) { ... }] over the current token and the
    tokens the lexer still holds. *)
Fixpoint loop (st : RpnState) (toks : list Token) : Result RpnState :=
  match toks with
  | [] => Ok st
  | t :: rest =>
      match kind t with
      | End => Ok st
      | Ident =>
          match rest with
          | peek :: rest' =>
              match kind peek with
              | LParen => loop (on_call st t peek) rest'
              | _ => loop (on_operand st t) rest
              end
          | [] => loop (on_operand st t) rest
          end
      | _ => match step st t with
             | Ok st' => loop st' rest
             | Err e => Err e
             end
      end
  end.

(** The final [while (!opstack.empty())]. *)
Fixpoint drain (out ops : list Token) : Result (list Token) :=
  match ops with
  | top :: ops' =>
      match kind top with
      | LParen => Err (ParseError "Mismatched '('")
      | Func => Err (ParseError "Mismatched function call")
      | _ => drain (out ++ [top]) ops'
      end
  | [] => Ok out
  end.

(** [to_rpn(lex, t0)].  The identifier case reads its lookahead before
    anything else and the other cases read the next token last, so an
    exception of the lexer surfaces when the tokens before it have been
    handled without a parser exception. *)
Definition to_rpn (lex : Lexer) (t0 : Token) : Result (list Token) :=
  st <- loop rpn_init (t0 :: fst lex) ;;
  match snd lex with
  | Some e => Err e
  | None =>
      out <- drain (output st) (opstack st) ;;
      match fnstack st with
      | [] => Ok out
      | _ :: _ => Err (ParseError "Mismatched function call")
      end
  end.

(** ** program.hpp *)

Inductive Op : Type :=
  | PushVar | PushNum | Add | Sub | Mul | Div | OpNeg | Call | Store.

Record Instr : Type := mkInstr
  { op : Op; itext : string; inumber : float; iargc : Z }.

Definition Program : Type := list Instr.

(** The [switch] in the lowering loop of [compile]. *)
Definition lower (t : Token) : Result Instr :=
  match kind t with
  | Number => Ok (mkInstr PushNum "" (number t) 0)
  | Ident => Ok (mkInstr PushVar (text t) 0%float 0)
  | Neg => Ok (mkInstr OpNeg "" 0%float 0)
  | Plus => Ok (mkInstr Add "" 0%float 0)
  | Minus => Ok (mkInstr Sub "" 0%float 0)
  | Star => Ok (mkInstr Mul "" 0%float 0)
  | Slash => Ok (mkInstr Div "" 0%float 0)
  | Func => Ok (mkInstr Call (text t) 0%float
                  (libc.double_to_int (number t)))
  | _ => Err (ParseError "Unsupported token in RPN compilation")
  end.

Fixpoint lower_all (rpn : list Token) : Result (list Instr) :=
  match rpn with
  | [] => Ok []
  | t :: rpn' =>
      i <- lower t ;;
      code <- lower_all rpn' ;;
      Ok (i :: code)
  end.

(** [compile], from the first [lex.next()] on. *)
Definition compile_tokens (lex : Lexer) : Result Program :=
  r1 <- lex_next lex ;;
  let '(lhs, lex1) := r1 in
  match kind lhs with
  | Ident =>
      r2 <- lex_next lex1 ;;
      let '(eq, lex2) := r2 in
      match kind eq with
      | Assign =>
          r3 <- lex_next lex2 ;;
          let '(first, lex3) := r3 in
          match kind first with
          | End => Err (ParseError "Expected expression after '='")
          | _ =>
              rpn <- to_rpn lex3 first ;;
              code <- lower_all rpn ;;
              Ok (code ++ [mkInstr Store (text lhs) 0%float 0])
          end
      | _ => Err (ParseError "Expected '=' after assignment target")
      end
  | _ => Err (ParseError "Expected assignment target identifier at start")
  end.

Definition compile (strtod : string -> float * nat) (input : string)
  : Result Program :=
  compile_tokens (tokens strtod input).

(** ** Program::execute

    The template parameter [Backend]: a state [S] (the object itself), a
    value type [V] and the six members [execute] calls.  As in the
    backends of the repository (examples/toy_backend.cpp and the test
    suite), every member but [store_var] is [const] and may throw, and
    [store_var] assigns and returns. *)
Record Backend (S V : Type) : Type := mkBackend
  { load_var : S -> string -> Result V;
    store_var : S -> string -> V -> S;
    make_number : S -> float -> V;
    neg : S -> V -> Result V;
    binary : S -> Op -> V -> V -> Result V;
    call : S -> string -> list V -> Result V }.

Arguments load_var {S V} _ _ _.
Arguments store_var {S V} _ _ _ _.
Arguments make_number {S V} _ _ _.
Arguments neg {S V} _ _ _.
Arguments binary {S V} _ _ _ _ _.
Arguments call {S V} _ _ _ _.

Section Execute.

Context {S V : Type} (backend : Backend S V).

(** The lambda [pop]; the operand stack [st] has its [back()] at the
    head. *)
Definition pop (st : list V) : Result (V * list V) :=
  match st with
  | v :: st' => Ok (v, st')
  | [] => Err (EvalError "Stack underflow (bad program)")
  end.

(** The body of the [for], one instruction: the backend and the
    operand stack after it. *)
Definition exec_instr (s : S) (st : list V) (ins : Instr)
  : Result (S * list V) :=
  match op ins with
  | PushVar =>
      v <- load_var backend s (itext ins) ;;
      Ok (s, v :: st)
  | PushNum => Ok (s, make_number backend s (inumber ins) :: st)
  | OpNeg =>
      p <- pop st ;;
      v <- neg backend s (fst p) ;;
      Ok (s, v :: snd p)
  | Add | Sub | Mul | Div =>
      pb <- pop st ;;
      pa <- pop (snd pb) ;;
      v <- binary backend s (op ins) (fst pa) (fst pb) ;;
      Ok (s, v :: snd pa)
  | Call =>
      if (iargc ins <? 0)%Z then Err (EvalError "Invalid CALL argc")
      else if (Z.of_nat (length st) <? iargc ins)%Z
      then Err (EvalError "Not enough args for CALL")
      else
        let n := Z.to_nat (iargc ins) in
        v <- call backend s (itext ins) (rev (firstn n st)) ;;
        Ok (s, v :: skipn n st)
  | Store =>
      p <- pop st ;;
      Ok (store_var backend s (itext ins) (fst p), snd p)
  end.

(** The [for] over [code]: the backend as the run leaves it, the
    operand stack, and the exception that ended the run, if any. *)
Fixpoint run (code : list Instr) (s : S) (st : list V)
  : S * list V * option Error :=
  match code with
  | [] => (s, st, None)
  | ins :: code' =>
      match exec_instr s st ins with
      | Ok (s', st') => run code' s' st'
      | Err e => (s, st, Some e)
      end
  end.

Definition execute (p : Program) (s : S) : S * option Error :=
  let '(s', _, e) := run p s [] in (s', e).

(** [auto p = tsexpr::compile(input); p.execute(backend);] as the
    tests and the example do it. *)
Definition compile_and_execute (strtod : string -> float * nat)
    (input : string) (s : S) : S * option Error :=
  match compile strtod input with
  | Ok p => execute p s
  | Err e => (s, Some e)
  end.

End Execute.

End tsexpr.

(** * The example backend (examples/toy_backend.cpp; tests/test_expr.cpp
      declares the same one, with shorter exception texts) *)

Module toy.

Record Series : Type := mkSeries { v : list float }.

Inductive Value : Type :=
  | VSeries (s : Series)
  | VScalar (x : float).

Definition elementwise (a b : Series) (f : float -> float -> float)
  : Result Series :=
  if (length (v a) =? length (v b))%nat
  then Ok (mkSeries (zip_with f (v a) (v b)))
  else Err (runtime_error "Series length mismatch").

Definition elementwise_scalar (a : Series) (s : float)
    (f : float -> float -> float) : Series :=
  mkSeries (map (fun x => f x s) (v a)).

Definition sumproduct_series (a b : Series) : Result float :=
  if (length (v a) =? length (v b))%nat
  then Ok (fold_left (fun acc xy => (acc + fst xy * snd xy)%float)
             (zip (v a) (v b)) 0%float)
  else Err (runtime_error "Series length mismatch").

(** [std::accumulate(s.v.begin(), s.v.end(), 0.0)] *)
Definition accumulate (s : Series) : float :=
  fold_left (fun acc x => (acc + x)%float) (v s) 0%float.

Definition load_var (vars : gmap string Value) (name : string)
  : Result Value :=
  match vars !! name with
  | Some x => Ok x
  | None => Err (runtime_error ("Unknown variable: " +:+ name))
  end.

Definition store_var (vars : gmap string Value) (name : string)
    (x : Value) : gmap string Value :=
  <[name := x]> vars.

Definition make_number (x : float) : Value := VScalar x.

Definition neg (a : Value) : Value :=
  match a with
  | VScalar x => VScalar (- x)%float
  | VSeries s => VSeries (mkSeries (map (fun x => (- x)%float) (v s)))
  end.

Definition pick (o : tsexpr.Op) : Result (float -> float -> float) :=
  match o with
  | tsexpr.Add => Ok PrimFloat.add
  | tsexpr.Sub => Ok PrimFloat.sub
  | tsexpr.Mul => Ok PrimFloat.mul
  | tsexpr.Div => Ok PrimFloat.div
  | _ => Err (runtime_error "Unsupported binary op")
  end.

Definition binary (o : tsexpr.Op) (a b : Value) : Result Value :=
  f <- pick o ;;
  match a, b with
  | VScalar x, VScalar y => Ok (VScalar (f x y))
  | VSeries x, VSeries y => r <- elementwise x y f ;; Ok (VSeries r)
  | VSeries x, VScalar y => Ok (VSeries (elementwise_scalar x y f))
  | VScalar s, VSeries x => Ok (VSeries (mkSeries (map (f s) (v x))))
  end.

Definition call (fn : string) (args : list Value) : Result Value :=
  if String.eqb fn "sumproduct" then
    match args with
    | [a; b] =>
        match a, b with
        | VSeries x, VSeries y =>
            r <- sumproduct_series x y ;; Ok (VScalar r)
        | VSeries x, VScalar k => Ok (VScalar (k * accumulate x)%float)
        | VScalar k, VSeries x => Ok (VScalar (k * accumulate x)%float)
        | VScalar x, VScalar y => Ok (VScalar (x * y)%float)
        end
    | _ => Err (runtime_error "sumproduct expects 2 args")
    end
  else Err (runtime_error ("Unknown function: " +:+ fn)).

Definition Backend : tsexpr.Backend (gmap string Value) Value :=
  tsexpr.mkBackend _ _
    load_var store_var
    (fun _ => make_number)
    (fun _ a => Ok (neg a))
    (fun _ => binary)
    (fun _ => call).

End toy.

(** * Namespace ts::expr: expr.cpp, expr.hpp, timeseries_stub *)

Module ts_expr.

(** ** The stub time series (timeseries_stub.hpp, timeseries_stub.cpp) *)

Record TimeSeries : Type := mkTimeSeries { v : list float }.

Definition from_scalar (x : float) : TimeSeries := mkTimeSeries [x].

Definition require_same_size (a b : TimeSeries) : Result unit :=
  if (length (v a) =? length (v b))%nat then Ok tt
  else Err (runtime_error "TimeSeries size mismatch (stub alignment rule)").

Definition binop_ts_ts (a b : TimeSeries) (f : float -> float -> float)
  : Result TimeSeries :=
  _ <- require_same_size a b ;;
  Ok (mkTimeSeries (zip_with f (v a) (v b))).

Definition binop_ts_s (a : TimeSeries) (b : float)
    (f : float -> float -> float) : TimeSeries :=
  mkTimeSeries (map (fun x => f x b) (v a)).

Definition binop_s_ts (a : float) (b : TimeSeries)
    (f : float -> float -> float) : TimeSeries :=
  mkTimeSeries (map (fun x => f a x) (v b)).

Definition neg_ts (a : TimeSeries) : TimeSeries :=
  mkTimeSeries (map (fun x => (- x)%float) (v a)).

Definition sumproduct_ts_ts (a b : TimeSeries) : Result float :=
  _ <- require_same_size a b ;;
  Ok (fold_left (fun acc xy => (acc + fst xy * snd xy)%float)
        (zip (v a) (v b)) 0%float).

Definition sumproduct_ts_s (a : TimeSeries) (b : float) : float :=
  fold_left (fun acc x => (acc + x * b)%float) (v a) 0%float.

Definition sumproduct_s_ts (a : float) (b : TimeSeries) : float :=
  fold_left (fun acc x => (acc + a * x)%float) (v b) 0%float.

(** ** expr.hpp *)

Inductive Value : Type :=
  | VTimeSeries (t : TimeSeries)
  | VDouble (x : float).

Record Token : Type := mkToken
  { kind : TokKind; text : string; number : float; arity : Z }.

Definition tok (k : TokKind) : Token := mkToken k "" 0%float 0.

Record Compiled : Type := mkCompiled
  { target : string; rpn : list Token }.

(** ** Lexer (expr.cpp) *)

Section Lexer.

Variable strtod : string -> float * nat.

Definition next_impl (s : string) : Result (Token * string) :=
  match scan.skip_ws s with
  | EmptyString => Ok (tok End, EmptyString)
  | String c r as s1 =>
      match single_char c with
      | Some k => Ok (tok k, r)
      | None =>
          if (c =? "`")%char then
            match scan.backtick r with
            | None => Err (ParseError "Unterminated backtick identifier")
            | Some (txt, r') => Ok (mkToken Ident txt 0%float 0, r')
            end
          else if scan.is_ident_start c then
            let '(txt, r') := scan.ident r in
            Ok (mkToken Ident (String c txt) 0%float 0, r')
          else if libc.isdigit c || (c =? ".")%char then
            let '(x, n) := strtod s1 in
            match n with
            | O => Err (ParseError "Invalid number")
            | _ => Ok (mkToken Number "" x 0, scan.advance n s1)
            end
          else
            Err (ParseError
                   ("Unexpected character: '" +:+ String c "'"))
      end
  end.

(** The tokens [next_impl] yields before [End], and the exception that
    cuts them short; [peek] and [next] hand them out in this order. *)
Fixpoint tokens_upto (fuel : nat) (s : string)
  : list Token * option Error :=
  match fuel with
  | O => ([], None)
  | S fuel' =>
      match next_impl s with
      | Err e => ([], Some e)
      | Ok (t, s') =>
          match kind t with
          | End => ([], None)
          | _ => let '(ts, e) := tokens_upto fuel' s' in (t :: ts, e)
          end
      end
  end.

Definition tokens (s : string) : list Token * option Error :=
  tokens_upto (S (String.length s)) s.

End Lexer.

Definition Lexer : Type := (list Token * option Error)%type.

Definition lex_next (lex : Lexer) : Result (Token * Lexer) :=
  match lex with
  | (t :: rest, tail) => Ok (t, (rest, tail))
  | ([], Some e) => Err e
  | ([], None) => Ok (tok End, lex)
  end.

(** ** Shunting-yard helpers *)

Definition precedence (k : TokKind) : Z :=
  match k with
  | Neg => 3
  | Star | Slash => 2
  | Plus | Minus => 1
  | _ => 0
  end.

Definition is_right_associative (k : TokKind) : bool := TokKind_eqb k Neg.

Definition is_operator (k : TokKind) : bool :=
  match k with
  | Plus | Minus | Star | Slash | Neg => true
  | _ => false
  end.

Definition is_function (k : TokKind) : bool := TokKind_eqb k Func.

(** ** compile *)

Record FuncCtx : Type := mkFuncCtx
  { commas : Z; depth : Z; saw_expr : bool }.

(** The locals of [compile]; [opstack] and [func_stack] have their
    [back()] at the head. *)
Record State : Type := mkState
  { output : list Token;
    opstack : list Token;
    func_stack : list FuncCtx;
    expect_operand : bool }.

Definition init : State := mkState [] [] [] true.

(** [if (!func_stack.empty() && func_stack.back().depth == 1 &&
        expect_operand) func_stack.back().saw_expr = true;] *)
Definition mark_expr (fs : list FuncCtx) (expect : bool) : list FuncCtx :=
  match fs with
  | c :: fs' =>
      if (depth c =? 1)%Z && expect
      then mkFuncCtx (commas c) (depth c) true :: fs'
      else fs
  | [] => []
  end.

(** An identifier with ['('] as [lex.peek()]; [lp] is that token. *)
Definition on_call (st : State) (t lp : Token) : State :=
  mkState (output st)
          (lp :: mkToken Func (text t) 0%float 0 :: opstack st)
          (mkFuncCtx 0 1 false :: func_stack st)
          true.

(** Any other identifier, or a number. *)
Definition on_operand (st : State) (t : Token) : State :=
  mkState (output st ++ [t]) (opstack st)
          (mark_expr (func_stack st) (expect_operand st))
          false.

(** The [while] of the comma case. *)
Fixpoint pop_to_lparen (out ops : list Token) : list Token * list Token :=
  match ops with
  | top :: ops' =>
      match kind top with
      | LParen => (out, ops)
      | _ => pop_to_lparen (out ++ [top]) ops'
      end
  | [] => (out, [])
  end.

Definition on_comma (st : State) : Result State :=
  match func_stack st with
  | [] => Err (ParseError
      "Unexpected ',' (commas are only valid inside function argument lists)")
  | c :: fs =>
      if negb (depth c =? 1)%Z then Err (ParseError
      "Unexpected ',' (commas are only valid inside function argument lists)")
      else
        let '(out, ops) := pop_to_lparen (output st) (opstack st) in
        match ops with
        | [] => Err (ParseError "Unexpected ','")
        | _ :: _ =>
            Ok (mkState out ops
                  (mkFuncCtx (commas c + 1) (depth c) (saw_expr c) :: fs)
                  true)
        end
  end.

Definition on_lparen (st : State) (t : Token) : State :=
  mkState (output st) (t :: opstack st)
    match func_stack st with
    | c :: fs =>
        let d := (depth c + 1)%Z in
        mkFuncCtx (commas c) d
          (if (d =? 2)%Z && expect_operand st then true else saw_expr c)
        :: fs
    | [] => []
    end
    true.

(** The [while (!opstack.empty())] of the close-parenthesis case: the
    output and the stack once ['('] has been popped, or [None] when the
    stack runs empty first. *)
Fixpoint pop_through_lparen (out ops : list Token)
  : option (list Token * list Token) :=
  match ops with
  | top :: ops' =>
      match kind top with
      | LParen => Some (out, ops')
      | _ => pop_through_lparen (out ++ [top]) ops'
      end
  | [] => None
  end.

Definition on_rparen (st : State) : Result State :=
  (* depth bookkeeping *)
  r <- match func_stack st with
       | c :: fs =>
           let d := (depth c - 1)%Z in
           if (d <? 0)%Z then Err (ParseError "Mismatched ')'")
           else Ok (mkFuncCtx (commas c) d (saw_expr c) :: fs, (d =? 0)%Z)
       | [] => Ok ([], false)
       end ;;
  let '(fstack, closes_function) := r in
  match pop_through_lparen (output st) (opstack st) with
  | None => Err (ParseError "Mismatched ')'")
  | Some (out, ops) =>
      if closes_function then
        match ops with
        | fn :: ops' =>
            if is_function (kind fn) then
              match fstack with
              | ctx :: fs =>
                  if saw_expr ctx then
                    Ok (mkState
                          (out ++ [mkToken (kind fn) (text fn) (number fn)
                                     (commas ctx + 1)])
                          ops' fs false)
                  else Err (ParseError
                              "Function call has empty argument list")
              | [] => Err (ParseError
                  "Internal error: function context without function token")
              end
            else Err (ParseError
                  "Internal error: function context without function token")
        | [] => Err (ParseError
                  "Internal error: function context without function token")
        end
      else Ok (mkState out ops fstack false)
  end.

Definition pop_it (topk curk : TokKind) : bool :=
  if is_right_associative curk
  then (precedence curk <? precedence topk)%Z
  else (precedence curk <=? precedence topk)%Z.

Fixpoint pop_operators (curk : TokKind) (out ops : list Token)
  : list Token * list Token :=
  match ops with
  | top :: ops' =>
      if is_operator (kind top) && pop_it (kind top) curk
      then pop_operators curk (out ++ [top]) ops'
      else (out, ops)
  | [] => (out, [])
  end.

Definition on_operator (st : State) (t : Token) : State :=
  let '(out, ops) := pop_operators (kind t) (output st) (opstack st) in
  mkState out (t :: ops) (func_stack st) true.

(** [if (t.kind == Minus && expect_operand) t.kind = Neg;] *)
Definition retag_minus (st : State) (t : Token) : Token :=
  match kind t with
  | Minus => if expect_operand st
             then mkToken Neg (text t) (number t) (arity t) else t
  | _ => t
  end.

(** One turn of the [for (;;)] for a token that is not an identifier. *)
Definition step (st : State) (t : Token) : Result State :=
  match kind t with
  | Number => Ok (on_operand st t)
  | Comma => on_comma st
  | LParen => Ok (on_lparen st t)
  | RParen => on_rparen st
  | _ =>
      let t' := retag_minus st t in
      if is_operator (kind t') then Ok (on_operator st t')
      else
        match kind t' with
        | Assign => Err (ParseError "Unexpected '=' inside expression")
        | _ => Err (ParseError "Unexpected token in expression")
        end
  end.

Fixpoint loop (st : State) (toks : list Token) : Result State :=
  match toks with
  | [] => Ok st
  | t :: rest =>
      match kind t with
      | End => Ok st
      | Ident =>
          match rest with
          | lp :: rest' =>
              match kind lp with
              | LParen => loop (on_call st t lp) rest'
              | _ => loop (on_operand st t) rest
              end
          | [] => loop (on_operand st t) rest
          end
      | _ => match step st t with
             | Ok st' => loop st' rest
             | Err e => Err e
             end
      end
  end.

Fixpoint drain (out ops : list Token) : Result (list Token) :=
  match ops with
  | top :: ops' =>
      match kind top with
      | LParen => Err (ParseError "Mismatched '('")
      | Func => Err (ParseError "Mismatched function call")
      | _ => drain (out ++ [top]) ops'
      end
  | [] => Ok out
  end.

(** [compile], from the first [lex.next()] on.  No case of the loop
    throws between its own [lex.next()] or [lex.peek()] and the handling of
    the token before, so an exception of the lexer surfaces when the tokens
    before it have been handled without a parser exception. *)
Definition compile_tokens (lex : Lexer) : Result Compiled :=
  r1 <- lex_next lex ;;
  let '(lhs, lex1) := r1 in
  match kind lhs with
  | Ident =>
      r2 <- lex_next lex1 ;;
      let '(eq, lex2) := r2 in
      match kind eq with
      | Assign =>
          st <- loop init (fst lex2) ;;
          match snd lex2 with
          | Some e => Err e
          | None =>
              out <- drain (output st) (opstack st) ;;
              Ok (mkCompiled (text lhs) out)
          end
      | _ => Err (ParseError "Expected '=' after assignment target")
      end
  | _ => Err (ParseError "Expected assignment target identifier at start")
  end.

Definition compile (strtod : string -> float * nat) (input : string)
  : Result Compiled :=
  compile_tokens (tokens strtod input).

(** ** Evaluation *)

Definition negate_value (x : Value) : Value :=
  match x with
  | VDouble d => VDouble (- d)%float
  | VTimeSeries t => VTimeSeries (neg_ts t)
  end.

(** The [switch (op)] that each of the four cases of [apply_binary]
    repeats; [None] is its [default]. *)
Definition arith (o : TokKind) : option (float -> float -> float) :=
  match o with
  | Plus => Some PrimFloat.add
  | Minus => Some PrimFloat.sub
  | Star => Some PrimFloat.mul
  | Slash => Some PrimFloat.div
  | _ => None
  end.

Definition apply_binary (o : TokKind) (a b : Value) : Result Value :=
  match a, b with
  | VDouble x, VDouble y =>
      match arith o with
      | Some f => Ok (VDouble (f x y))
      | None => Err (EvalError "Unsupported scalar op")
      end
  | VTimeSeries x, VTimeSeries y =>
      match arith o with
      | Some f => r <- binop_ts_ts x y f ;; Ok (VTimeSeries r)
      | None => Err (EvalError "Unsupported TS op")
      end
  | VTimeSeries x, VDouble y =>
      match arith o with
      | Some f => Ok (VTimeSeries (binop_ts_s x y f))
      | None => Err (EvalError "Unsupported TS-scalar op")
      end
  | VDouble x, VTimeSeries y =>
      match arith o with
      | Some f => Ok (VTimeSeries (binop_s_ts x y f))
      | None => Err (EvalError "Unsupported scalar-TS op")
      end
  end.

Definition apply_function (fn : Token) (args : list Value) : Result Value :=
  if String.eqb (text fn) "sumproduct" then
    match args with
    | [a; b] =>
        match a, b with
        | VTimeSeries x, VTimeSeries y =>
            r <- sumproduct_ts_ts x y ;; Ok (VDouble r)
        | VTimeSeries x, VDouble y => Ok (VDouble (sumproduct_ts_s x y))
        | VDouble x, VTimeSeries y => Ok (VDouble (sumproduct_s_ts x y))
        | VDouble x, VDouble y => Ok (VDouble (x * y)%float)
        end
    | _ => Err (EvalError "sumproduct expects 2 arguments")
    end
  else Err (EvalError ("Unknown function: " +:+ text fn)).

Definition Env : Type := gmap string TimeSeries.

(** The lambda [pop] of [eval_rpn]; [st] has its [back()] at the head. *)
Definition pop (st : list Value) : Result (Value * list Value) :=
  match st with
  | x :: st' => Ok (x, st')
  | [] => Err (EvalError "Stack underflow (bad expression)")
  end.

(** The body of the [for] of [eval_rpn]. *)
Definition eval_token (env : gmap string TimeSeries) (st : list Value)
    (t : Token) : Result (list Value) :=
  match kind t with
  | Number => Ok (VDouble (number t) :: st)
  | Ident =>
      match env !! text t with
      | Some ts => Ok (VTimeSeries ts :: st)
      | None => Err (EvalError ("Unknown variable: " +:+ text t))
      end
  | Neg =>
      p <- pop st ;;
      Ok (negate_value (fst p) :: snd p)
  | Plus | Minus | Star | Slash =>
      pb <- pop st ;;
      pa <- pop (snd pb) ;;
      r <- apply_binary (kind t) (fst pa) (fst pb) ;;
      Ok (r :: snd pa)
  | Func =>
      if (arity t <=? 0)%Z then Err (EvalError "Bad function arity")
      else if (Z.of_nat (length st) <? arity t)%Z
      then Err (EvalError "Stack underflow (function args)")
      else
        let n := Z.to_nat (arity t) in
        r <- apply_function t (rev (firstn n st)) ;;
        Ok (r :: skipn n st)
  | _ => Err (EvalError "Unexpected token during evaluation")
  end.

Fixpoint eval_loop (env : gmap string TimeSeries) (st : list Value)
    (rpn : list Token) : Result (list Value) :=
  match rpn with
  | [] => Ok st
  | t :: rpn' =>
      st' <- eval_token env st t ;;
      eval_loop env st' rpn'
  end.

Definition eval_rpn (rpn : list Token) (env : gmap string TimeSeries)
  : Result Value :=
  st <- eval_loop env [] rpn ;;
  match st with
  | [x] => Ok x
  | _ => Err (EvalError "Expression did not reduce to a single value")
  end.

(** [execute_assignment(input, env)]: the environment afterwards and the
    exception it ends with, if any. *)
Definition execute_assignment (strtod : string -> float * nat)
    (input : string) (env : gmap string TimeSeries)
  : gmap string TimeSeries * option Error :=
  match compile strtod input with
  | Err e => (env, Some e)
  | Ok c =>
      match eval_rpn (rpn c) env with
      | Err e => (env, Some e)
      | Ok (VDouble x) => (<[target c := from_scalar x]> env, None)
      | Ok (VTimeSeries t) => (<[target c := t]> env, None)
      end
  end.

End ts_expr.

(** * Relating the two namespaces *)

(** A [tsexpr::Token] read as a [ts::expr::Token]; the lexers of the two
    namespaces differ in the token record only. *)
Definition conv (t : tsexpr.Token) : ts_expr.Token :=
  ts_expr.mkToken (tsexpr.kind t) (tsexpr.text t) (tsexpr.number t) 0.

(** The token kind each opcode is lowered from. *)
Definition tok_of_op (o : tsexpr.Op) : TokKind :=
  match o with
  | tsexpr.PushVar => Ident
  | tsexpr.PushNum => Number
  | tsexpr.Add => Plus
  | tsexpr.Sub => Minus
  | tsexpr.Mul => Star
  | tsexpr.Div => Slash
  | tsexpr.OpNeg => Neg
  | tsexpr.Call => Func
  | tsexpr.Store => Assign
  end.

(** The value semantics of [ts::expr] packaged as a backend for
    [Program::execute]: the environment is the backend, and each member
    does what [eval_rpn] and [execute_assignment] do inline (the lookup
    with its "Unknown variable" exception, [negate_value], [apply_binary],
    [apply_function], and the assignment that turns a scalar into a
    series of length 1).  It is the backend "holding the same variable
    bindings" under which the two pipelines are compared. *)
Definition ts_backend
  : tsexpr.Backend (gmap string ts_expr.TimeSeries) ts_expr.Value :=
  tsexpr.mkBackend _ _
    (fun env name =>
       match env !! name with
       | Some t => Ok (ts_expr.VTimeSeries t)
       | None => Err (EvalError ("Unknown variable: " +:+ name))
       end)
    (fun env name x =>
       match x with
       | ts_expr.VDouble d => <[name := ts_expr.from_scalar d]> env
       | ts_expr.VTimeSeries t => <[name := t]> env
       end)
    (fun _ x => ts_expr.VDouble x)
    (fun _ x => Ok (ts_expr.negate_value x))
    (fun _ o a b => ts_expr.apply_binary (tok_of_op o) a b)
    (fun _ name args =>
       ts_expr.apply_function
         (ts_expr.mkToken Func name 0%float (Z.of_nat (length args))) args).

(** Parse errors against every other exception. *)
Definition is_parse (e : Error) : bool :=
  match e with
  | ParseError _ => true
  | _ => false
  end.










(** Tokens and instructions of the worked examples. *)
Definition ident (name : string) : tsexpr.Token :=
  tsexpr.mkToken Ident name 0%float.
Definition num (x : float) : tsexpr.Token :=
  tsexpr.mkToken Number "" x.
Definition PushNum (x : float) : tsexpr.Instr :=
  tsexpr.mkInstr tsexpr.PushNum "" x 0.
Definition PushVar (name : string) : tsexpr.Instr :=
  tsexpr.mkInstr tsexpr.PushVar name 0%float 0.
Definition Arith (o : tsexpr.Op) : tsexpr.Instr :=
  tsexpr.mkInstr o "" 0%float 0.
Definition Call (name : string) (argc : Z) : tsexpr.Instr :=
  tsexpr.mkInstr tsexpr.Call name 0%float argc.
Definition Store (name : string) : tsexpr.Instr :=
  tsexpr.mkInstr tsexpr.Store name 0%float 0.

(** * Notions of the specification *)

(** Text made of white space only, and text free of back-ticks. *)
Fixpoint all_space (s : string) : bool :=
  match s with
  | String c r => libc.isspace c && all_space r
  | EmptyString => true
  end.

Fixpoint no_backtick (s : string) : bool :=
  match s with
  | String c r => negb (c =? "`")%char && no_backtick r
  | EmptyString => true
  end.

(** [reaches strtod s r]: after some calls of [next] on the input [s],
    none of which returns [End] or throws, the unread text is [r]. *)
Inductive reaches (strtod : string -> float * nat) : string -> string -> Prop :=
  | reaches_here s : reaches strtod s s
  | reaches_next s t s' r :
      tsexpr.next strtod s = Ok (t, s') ->
      tsexpr.kind t <> End ->
      reaches strtod s' r ->
      reaches strtod s r.






(** "Expect operand" position in the words of the specification: "start
    of expression, right after another operator, after '(', or after ','",
    read off the kinds of the tokens consumed so far. *)
Definition operand_position (consumed : list TokKind) : bool :=
  match last consumed with
  | None => true
  | Some k =>
      match k with
      | Plus | Minus | Star | Slash | Neg | LParen | Comma => true
      | _ => false
      end
  end.

(** A backend that also records every call of [store_var]. *)
Definition logged {S V : Type} (be : tsexpr.Backend S V)
  : tsexpr.Backend (S * list (string * V)) V :=
  tsexpr.mkBackend _ _
    (fun s => tsexpr.load_var be (fst s))
    (fun s name x => (tsexpr.store_var be (fst s) name x,
                      snd s ++ [(name, x)]))
    (fun s => tsexpr.make_number be (fst s))
    (fun s => tsexpr.neg be (fst s))
    (fun s => tsexpr.binary be (fst s))
    (fun s => tsexpr.call be (fst s)).

(** The variable stores of the worked examples. *)
Definition series (l : list float) : toy.Value :=
  toy.VSeries (toy.mkSeries l).

Definition toy_vars : gmap string toy.Value :=
  <["a" := series [1; 2; 3]%float]>
    (<["b" := series [10; 20; 30]%float]>
       (<["x" := toy.VScalar 10%float]> ∅)).

Definition ts_env : gmap string ts_expr.TimeSeries :=
  <["a" := ts_expr.mkTimeSeries [1; 2; 3]%float]>
    (<["b" := ts_expr.mkTimeSeries [10; 20; 30]%float]>
       (<["x" := ts_expr.mkTimeSeries [10]%float]> ∅)).

(** Token sequences without an [End] token, as the lexers produce them. *)
Definition no_End_ts (toks : list ts_expr.Token) : Prop :=
  Forall (fun t => ts_expr.kind t <> End) toks.

Definition no_End (toks : list tsexpr.Token) : Prop :=
  Forall (fun t => tsexpr.kind t <> End) toks.

(** The next token is not an open parenthesis. *)
Definition ts_head_not_lparen (rest : list ts_expr.Token) : Prop :=
  match rest with
  | lp :: _ => ts_expr.kind lp <> LParen
  | [] => True
  end.

Definition head_not_lparen (rest : list tsexpr.Token) : Prop :=
  match rest with
  | lp :: _ => tsexpr.kind lp <> LParen
  | [] => True
  end.

(** Kinds after which an operand is expected. *)
Definition position_kind (k : TokKind) : bool :=
  match k with
  | Plus | Minus | Star | Slash | Neg | LParen | Comma => true
  | _ => false
  end.

Definition not_store (ins : tsexpr.Instr) : Prop :=
  tsexpr.op ins <> tsexpr.Store.

(** How the operator stack of [ts::expr::compile] mirrors its stack of
    call frames: [call_shape ds ops] holds when [ds] lists the depths of the
    open calls, innermost first, and each call has on [ops] its function
    marker directly under its ['('], with [depth - 1] further open
    parentheses, and operators, above. *)
Inductive call_shape : list Z -> list ts_expr.Token -> Prop :=
  | shape_nil : call_shape [] []
  | shape_op ds t ops :
      ts_expr.is_operator (ts_expr.kind t) = true ->
      call_shape ds ops -> call_shape ds (t :: ops)
  | shape_paren_top t ops :
      ts_expr.kind t = LParen ->
      call_shape [] ops -> call_shape [] (t :: ops)
  | shape_paren d ds t ops :
      ts_expr.kind t = LParen -> (1 <= d)%Z ->
      call_shape (d :: ds) ops -> call_shape (d + 1 :: ds)%Z (t :: ops)
  | shape_call ds lp fn ops :
      ts_expr.kind lp = LParen -> ts_expr.kind fn = Func ->
      call_shape ds ops -> call_shape (1%Z :: ds) (lp :: fn :: ops).

(** The argument list of a call read kind by kind from behind its open
    parenthesis, in the words of the specification: [d] is the nesting
    depth under the call's own argument-list level (0 is "depth == 1
    relative to that call") and [n] the number of commas met at that level;
    [None] when a close parenthesis has no partner inside the list. *)
Definition scan_tok (d : nat) (n : Z) (k : TokKind) : option (nat * Z) :=
  match k with
  | LParen => Some (S d, n)
  | RParen => match d with
              | O => None
              | S d' => Some (d', n)
              end
  | Comma => Some (d, match d with
                      | O => (n + 1)%Z
                      | S _ => n
                      end)
  | _ => Some (d, n)
  end.

Fixpoint scan_args (d : nat) (n : Z) (body : list TokKind)
  : option (nat * Z) :=
  match body with
  | [] => Some (d, n)
  | k :: body' =>
      match scan_tok d n k with
      | Some (d', n') => scan_args d' n' body'
      | None => None
      end
  end.

Fixpoint count_lparen (l : list ts_expr.Token) : nat :=
  match l with
  | t :: l' =>
      match ts_expr.kind t with
      | LParen => S (count_lparen l')
      | _ => count_lparen l'
      end
  | [] => 0
  end.

Definition depth_sum (fs : list ts_expr.FuncCtx) : Z :=
  fold_right (fun c acc => (ts_expr.depth c + acc)%Z) 0%Z fs.

(** The state of [ts::expr::compile] inside the argument list of a call
    whose ['('] and function marker head [base] and whose frame sits on the
    frames [fs0]: [d] parentheses are open above [base], the frame of the
    call has counted [n] commas, and the depths of the frames of the call
    and of the calls nested in it add up to [d]. *)
Definition in_call (base : list ts_expr.Token) (fs0 : list ts_expr.FuncCtx)
    (d : nat) (n : Z) (st : ts_expr.State) : Prop :=
  exists above inner cf,
    ts_expr.opstack st = above ++ base /\
    count_lparen above = d /\
    ts_expr.func_stack st = inner ++ cf :: fs0 /\
    ts_expr.commas cf = n /\
    (ts_expr.depth cf - 1 + depth_sum inner = Z.of_nat d)%Z /\
    (1 <= ts_expr.depth cf)%Z /\
    Forall (fun c => (1 <= ts_expr.depth c)%Z) inner.

(** A function token of the output carries an arity of at least one. *)
Definition arity_ok (t : ts_expr.Token) : Prop :=
  ts_expr.kind t = Func -> (1 <= ts_expr.arity t)%Z.

Definition well_formed (st : ts_expr.State) : Prop :=
  call_shape (map ts_expr.depth (ts_expr.func_stack st)) (ts_expr.opstack st) /\
  Forall (fun c => (0 <= ts_expr.commas c)%Z) (ts_expr.func_stack st) /\
  Forall arity_ok (ts_expr.output st).

(** ** Further notions: the lexers *)

(** Text made of identifier characters only, and text whose first
    character, if there is one, does not continue an identifier. *)
Fixpoint all_ident_chars (s : string) : bool :=
  match s with
  | String c r => scan.is_ident_char c && all_ident_chars r
  | EmptyString => true
  end.

Definition ends_ident (rest : string) : bool :=
  match rest with
  | String c _ => negb (scan.is_ident_char c)
  | EmptyString => true
  end.

(** Kinds the lexers hand out before [End]; [Neg] and [Func] are made by
    the parsers only. *)
Definition lexer_kind (k : TokKind) : bool :=
  match k with
  | End | Neg | Func => false
  | _ => true
  end.

(** A token as [Lexer::next] fills it in: [text] for an identifier,
    [number] for a number, the defaults otherwise. *)
Definition lexer_token (t : tsexpr.Token) : Prop :=
  lexer_kind (tsexpr.kind t) = true /\
  (tsexpr.kind t <> Ident -> tsexpr.text t = "") /\
  (tsexpr.kind t <> Number -> tsexpr.number t = 0%float).

(** ** Further notions: the parsers *)

(** Kinds of the tokens [to_rpn] and [ts::expr::compile] put on the
    output, which are the kinds the lowering [switch] of
    [tsexpr::compile] and the [switch] of [eval_rpn] have a case for; and
    kinds of the tokens they push on the operator stack. *)
Definition lowerable (k : TokKind) : bool :=
  match k with
  | Ident | Number | Plus | Minus | Star | Slash | Neg | Func => true
  | _ => false
  end.

Definition stack_kind (k : TokKind) : bool :=
  match k with
  | Plus | Minus | Star | Slash | Neg | LParen | Func => true
  | _ => false
  end.

Definition is_operand (k : TokKind) : bool :=
  match k with
  | Ident | Number => true
  | _ => false
  end.

(** The operands of an expression in the order of the text: the numbers,
    and the identifiers that are not the name of a call. *)
Fixpoint operands_of {T : Type} (kind : T -> TokKind) (toks : list T)
  : list T :=
  match toks with
  | t :: rest =>
      match kind t with
      | Number => t :: operands_of kind rest
      | Ident =>
          match rest with
          | lp :: _ =>
              match kind lp with
              | LParen => operands_of kind rest
              | _ => t :: operands_of kind rest
              end
          | [] => t :: operands_of kind rest
          end
      | _ => operands_of kind rest
      end
  | [] => []
  end.

(** The operand tokens of a list of tokens, whatever follows them. *)
Definition operand_tokens {T : Type} (kind : T -> TokKind) (l : list T)
  : list T :=
  List.filter (fun t => is_operand (kind t)) l.

(** The instructions of a program that push an operand. *)
Definition is_push (ins : tsexpr.Instr) : bool :=
  match tsexpr.op ins with
  | tsexpr.PushVar | tsexpr.PushNum => true
  | _ => false
  end.

(** The instruction an operand token is lowered to. *)
Definition push_of (t : tsexpr.Token) : tsexpr.Instr :=
  match tsexpr.kind t with
  | Number => tsexpr.mkInstr tsexpr.PushNum "" (tsexpr.number t) 0
  | _ => tsexpr.mkInstr tsexpr.PushVar (tsexpr.text t) 0%float 0
  end.

(** The number of parentheses open after a run of tokens, starting from
    [d] open ones; [None] when a [')'] has no partner. *)
Fixpoint paren_depth (d : nat) (ks : list TokKind) : option nat :=
  match ks with
  | [] => Some d
  | k :: ks' =>
      match k with
      | LParen => paren_depth (S d) ks'
      | RParen => match d with
                  | O => None
                  | S d' => paren_depth d' ks'
                  end
      | _ => paren_depth d ks'
      end
  end.

Definition count_kind (k : TokKind) (ks : list TokKind) : nat :=
  length (List.filter (TokKind_eqb k) ks).

(** The parentheses open on an operator stack. *)
Definition open_parens {T : Type} (kind : T -> TokKind) (ops : list T) : nat :=
  count_kind LParen (map kind ops).

(** On the operator stack of [to_rpn], a function marker is never on top
    and always lies directly under a ['(']. *)
Fixpoint func_under_paren (ks : list TokKind) : bool :=
  match ks with
  | [] => true
  | k :: ks' =>
      match k with
      | Func => false
      | LParen =>
          match ks' with
          | Func :: ks'' => func_under_paren ks''
          | _ => func_under_paren ks'
          end
      | _ => func_under_paren ks'
      end
  end.

(** The state of [to_rpn] as its loop keeps it: tokens of the right
    kinds on the output and on the operator stack, and one frame on
    [fnstack] for each function marker on the operator stack. *)
Definition rpn_state_ok (st : tsexpr.RpnState) : Prop :=
  Forall (fun t => lowerable (tsexpr.kind t) = true) (tsexpr.output st) /\
  Forall (fun t => stack_kind (tsexpr.kind t) = true) (tsexpr.opstack st) /\
  func_under_paren (map tsexpr.kind (tsexpr.opstack st)) = true /\
  length (tsexpr.fnstack st) = count_kind Func (map tsexpr.kind (tsexpr.opstack st)).

(** The same for the output and the operator stack of
    [ts::expr::compile]. *)
Definition ts_state_ok (st : ts_expr.State) : Prop :=
  Forall (fun t => lowerable (ts_expr.kind t) = true) (ts_expr.output st) /\
  Forall (fun t => stack_kind (ts_expr.kind t) = true) (ts_expr.opstack st).

(** The texts of the exceptions of the lexers, and of the exceptions the
    two [compile] functions throw on their own account. *)
Definition lexer_message (w : string) : Prop :=
  w = "Unterminated backtick identifier" \/
  w = "Invalid number" \/
  exists c : ascii, w = "Unexpected character: '" +:+ String c "'".

Definition tsexpr_messages : list string :=
  [ "Expected assignment target identifier at start";
    "Expected '=' after assignment target";
    "Expected expression after '='";
    "Comma not within function call";
    "Internal error: comma with no function frame";
    "Mismatched ')'";
    "Unexpected token in expression";
    "Mismatched '('" ].

Definition ts_expr_messages : list string :=
  [ "Expected assignment target identifier at start";
    "Expected '=' after assignment target";
    "Unexpected ',' (commas are only valid inside function argument lists)";
    "Mismatched ')'";
    "Function call has empty argument list";
    "Unexpected '=' inside expression";
    "Mismatched '('" ].

(** ** Further notions: execution *)

(** What an instruction of [Program::execute] does to the height of the
    operand stack when it does not throw, and the same for a token of
    [eval_rpn]. *)
Definition stack_delta (ins : tsexpr.Instr) : Z :=
  match tsexpr.op ins with
  | tsexpr.PushVar | tsexpr.PushNum => 1
  | tsexpr.OpNeg => 0
  | tsexpr.Add | tsexpr.Sub | tsexpr.Mul | tsexpr.Div => -1
  | tsexpr.Call => 1 - tsexpr.iargc ins
  | tsexpr.Store => -1
  end.

Definition net_effect (code : list tsexpr.Instr) : Z :=
  fold_right (fun ins acc => (stack_delta ins + acc)%Z) 0%Z code.

Definition token_delta (t : ts_expr.Token) : Z :=
  match ts_expr.kind t with
  | Number | Ident => 1
  | Neg => 0
  | Plus | Minus | Star | Slash => -1
  | Func => 1 - ts_expr.arity t
  | _ => 0
  end.

Definition rpn_effect (rpn : list ts_expr.Token) : Z :=
  fold_right (fun t acc => (token_delta t + acc)%Z) 0%Z rpn.

(** The texts of the [EvalError]s of [eval_rpn]; the two "Unknown ..."
    texts end with a name. *)
Definition eval_messages : list string :=
  [ "Stack underflow (bad expression)";
    "Bad function arity";
    "Stack underflow (function args)";
    "sumproduct expects 2 arguments";
    "Unexpected token during evaluation";
    "Expression did not reduce to a single value" ].

Definition eval_message (w : string) : Prop :=
  In w eval_messages \/
  (exists x : string, w = "Unknown variable: " +:+ x) \/
  (exists f : string, w = "Unknown function: " +:+ f).

Definition size_mismatch : Error :=
  runtime_error "TimeSeries size mismatch (stub alignment rule)".

(** Every series of an environment, and every series among values, has
    [n] points. *)
Definition uniform_env (n : nat) (env : gmap string ts_expr.TimeSeries) : Prop :=
  forall (name : string) (t : ts_expr.TimeSeries),
    env !! name = Some t -> length (ts_expr.v t) = n.

Definition uniform_value (n : nat) (x : ts_expr.Value) : Prop :=
  match x with
  | ts_expr.VTimeSeries t => length (ts_expr.v t) = n
  | ts_expr.VDouble _ => True
  end.

Definition uniform_vars (n : nat) (vars : gmap string toy.Value) : Prop :=
  forall (name : string) (s : toy.Series),
    vars !! name = Some (toy.VSeries s) -> length (toy.v s) = n.

Definition uniform_toy (n : nat) (x : toy.Value) : Prop :=
  match x with
  | toy.VSeries s => length (toy.v s) = n
  | toy.VScalar _ => True
  end.

(** ** Further notions: the grammar of expressions

    The expressions both parsers are written for, as trees:

      sum      ::= sum ('+' | '-') product | product
      product  ::= product ('*' | '/') unary | unary
      unary    ::= '-' unary | primary
      primary  ::= NUMBER | IDENT | '(' sum ')'
                 | IDENT '(' sum (',' sum)* ')'                          *)
#[warnings="-register-all"] Inductive expr : Type :=
  | EVar (x : string)
  | ENum (v : float)
  | ENeg (a : expr)
  | EBin (o : TokKind) (a b : expr)
  | EParen (a : expr)
  | ECall (f : string) (args : list expr).

(** The level of the grammar an operator belongs to: 1 for a sum, 2 for a
    product, 3 for a unary minus. *)
Definition level (k : TokKind) : nat :=
  match k with
  | Plus | Minus => 1
  | Star | Slash => 2
  | Neg => 3
  | _ => 0
  end.

Definition is_binary (k : TokKind) : bool :=
  match k with
  | Plus | Minus | Star | Slash => true
  | _ => false
  end.

(** [parses_at l e]: the tree [e] is a parse tree of the grammar at level
    [l] or above (1 = sum, 2 = product, 3 = unary, 4 = primary). *)
Fixpoint parses_at (l : nat) (e : expr) : bool :=
  match e with
  | EVar _ | ENum _ => true
  | ENeg a => (l <=? 3)%nat && parses_at 3 a
  | EBin o a b =>
      is_binary o && (l <=? level o)%nat &&
      parses_at (level o) a && parses_at (S (level o)) b
  | EParen a => parses_at 1 a
  | ECall _ args =>
      match args with
      | [] => false
      | _ :: _ => forallb (parses_at 1) args
      end
  end.

(** The tokens of a tree, as the lexer hands them to the parser. *)
Fixpoint infix (e : expr) : list tsexpr.Token :=
  match e with
  | EVar x => [ident x]
  | ENum v => [num v]
  | ENeg a => tsexpr.tok Minus :: infix a
  | EBin o a b => infix a ++ tsexpr.tok o :: infix b
  | EParen a => tsexpr.tok LParen :: infix a ++ [tsexpr.tok RParen]
  | ECall f args =>
      ident f :: tsexpr.tok LParen ::
      (fix join (l : list expr) : list tsexpr.Token :=
         match l with
         | [] => []
         | a :: l' =>
             infix a ++ match l' with
                        | [] => []
                        | _ :: _ => tsexpr.tok Comma :: join l'
                        end
         end) args ++ [tsexpr.tok RParen]
  end.

Fixpoint infix_args (l : list expr) : list tsexpr.Token :=
  match l with
  | [] => []
  | a :: l' =>
      infix a ++ match l' with
                 | [] => []
                 | _ :: _ => tsexpr.tok Comma :: infix_args l'
                 end
  end.

(** The postfix form of a tree, in the tokens of [to_rpn]: a unary minus
    is a [Neg] token, and a call is a [Func] token whose [number] is the
    argument count. *)
Fixpoint postfix (e : expr) : list tsexpr.Token :=
  match e with
  | EVar x => [ident x]
  | ENum v => [num v]
  | ENeg a => postfix a ++ [tsexpr.tok Neg]
  | EBin o a b => postfix a ++ postfix b ++ [tsexpr.tok o]
  | EParen a => postfix a
  | ECall f args =>
      concat (map postfix args) ++
      [tsexpr.mkToken Func f
         (libc.int_to_double (Z.of_nat (length args)))]
  end.

(** The program of a tree. *)
Definition op_of (k : TokKind) : tsexpr.Op :=
  match k with
  | Plus => tsexpr.Add
  | Minus => tsexpr.Sub
  | Star => tsexpr.Mul
  | _ => tsexpr.Div
  end.

Fixpoint code_of (e : expr) : list tsexpr.Instr :=
  match e with
  | EVar x => [PushVar x]
  | ENum v => [PushNum v]
  | ENeg a => code_of a ++ [Arith tsexpr.OpNeg]
  | EBin o a b => code_of a ++ code_of b ++ [Arith (op_of o)]
  | EParen a => code_of a
  | ECall f args =>
      concat (map code_of args) ++ [Call f (Z.of_nat (length args))]
  end.

(** Every call of the tree has an argument count an [int] holds. *)
Fixpoint arities_fit (e : expr) : bool :=
  match e with
  | EVar _ | ENum _ => true
  | ENeg a | EParen a => arities_fit a
  | EBin _ a b => arities_fit a && arities_fit b
  | ECall _ args =>
      (Z.of_nat (length args) <? 2 ^ 31)%Z && forallb arities_fit args
  end.

(** The value of a tree against a backend: the operands from left to
    right, each operator once its operands are there. *)
Section Denote.

Context {S V : Type} (be : tsexpr.Backend S V) (s : S).

Fixpoint denote_args (denote : expr -> Result V) (args : list expr)
  : Result (list V) :=
  match args with
  | [] => Ok []
  | a :: args' =>
      x <- denote a ;;
      xs <- denote_args denote args' ;;
      Ok (x :: xs)
  end.

Fixpoint denote (e : expr) : Result V :=
  match e with
  | EVar x => tsexpr.load_var be s x
  | ENum v => Ok (tsexpr.make_number be s v)
  | ENeg a => x <- denote a ;; tsexpr.neg be s x
  | EBin o a b =>
      x <- denote a ;;
      y <- denote b ;;
      tsexpr.binary be s (op_of o) x y
  | EParen a => denote a
  | ECall f args =>
      xs <- denote_args denote args ;;
      tsexpr.call be s f xs
  end.

End Denote.

(** A pending operator of a tree at level [l]: what [to_rpn] still holds
    on its stack when the tokens of the tree have been read. *)
Definition pending (l : nat) (t : tsexpr.Token) : Prop :=
  tsexpr.is_op (tsexpr.kind t) = true /\ l <= level (tsexpr.kind t).

(** The operator stack takes a tree at level [l] without giving up its
    top: the top is no operator, or one of a lower level. *)
Definition top_below (l : nat) (ops : list tsexpr.Token) : Prop :=
  l <= 2 ->
  match ops with
  | t :: _ => tsexpr.is_op (tsexpr.kind t) = true -> level (tsexpr.kind t) < l
  | [] => True
  end.

Definition top_not_func (ops : list tsexpr.Token) : Prop :=
  match ops with
  | t :: _ => tsexpr.kind t <> Func
  | [] => True
  end.

(** The same notions for [ts::expr::compile].  Its postfix form carries
    the argument count of a call in the member [arity] of the function
    token. *)
Fixpoint ts_postfix (e : expr) : list ts_expr.Token :=
  match e with
  | EVar x => [conv (ident x)]
  | ENum v => [conv (num v)]
  | ENeg a => ts_postfix a ++ [ts_expr.tok Neg]
  | EBin o a b => ts_postfix a ++ ts_postfix b ++ [ts_expr.tok o]
  | EParen a => ts_postfix a
  | ECall f args =>
      concat (map ts_postfix args) ++
      [ts_expr.mkToken Func f 0%float (Z.of_nat (length args))]
  end.

(** [exposes e]: read as an argument of a call, the tree sets [saw_expr]
    of the call: outside every pair of parentheses of its own it holds a
    number, a variable or an opening parenthesis that is not the one of a
    call. *)
Fixpoint exposes (e : expr) : bool :=
  match e with
  | EVar _ | ENum _ | EParen _ => true
  | ENeg a => exposes a
  | EBin _ a b => exposes a || exposes b
  | ECall _ _ => false
  end.

(** Every call of the tree has an argument that [exposes]. *)
Fixpoint callable (e : expr) : bool :=
  match e with
  | EVar _ | ENum _ => true
  | ENeg a | EParen a => callable a
  | EBin _ a b => callable a && callable b
  | ECall _ args => forallb callable args && existsb exposes args
  end.

Definition ts_pending (l : nat) (t : ts_expr.Token) : Prop :=
  ts_expr.is_operator (ts_expr.kind t) = true /\
  l <= level (ts_expr.kind t).

Definition ts_top_below (l : nat) (ops : list ts_expr.Token) : Prop :=
  l <= 2 ->
  match ops with
  | t :: _ =>
      ts_expr.is_operator (ts_expr.kind t) = true ->
      level (ts_expr.kind t) < l
  | [] => True
  end.

(** The innermost open call, if any, has its ['('] still open. *)
Definition frame_open (fs : list ts_expr.FuncCtx) : Prop :=
  match fs with
  | c :: _ => (1 <= ts_expr.depth c)%Z
  | [] => True
  end.

(** The state [to_rpn] is in after the tokens of a tree: the postfix
    form of the tree on the output but for the operators still pending,
    which lie on the stack above what was there before. *)
Definition after (st : tsexpr.RpnState) (body pend : list tsexpr.Token)
  : tsexpr.RpnState :=
  tsexpr.mkRpnState (tsexpr.output st ++ body) (pend ++ tsexpr.opstack st)
                    false (tsexpr.mark_arg (tsexpr.fnstack st)).

Definition reads (l : nat) (e : expr) : Prop :=
  forall (st : tsexpr.RpnState) (rest : list tsexpr.Token),
    tsexpr.expect_operand st = true ->
    top_not_func (tsexpr.opstack st) ->
    top_below l (tsexpr.opstack st) ->
    head_not_lparen rest ->
    exists body pend,
      body ++ pend = postfix e /\
      Forall (pending l) pend /\
      tsexpr.loop st (infix e ++ rest) = tsexpr.loop (after st body pend) rest.

(** The same for [ts::expr::compile], which stops at the [')'] of the
    first call none of whose arguments [exposes]. *)
Definition ts_after (st : ts_expr.State) (e : expr)
    (body pend : list ts_expr.Token) : ts_expr.State :=
  ts_expr.mkState (ts_expr.output st ++ body) (pend ++ ts_expr.opstack st)
                  (ts_expr.mark_expr (ts_expr.func_stack st) (exposes e))
                  false.

Definition ts_reads (l : nat) (e : expr) : Prop :=
  forall (st : ts_expr.State) (rest : list ts_expr.Token),
    ts_expr.expect_operand st = true ->
    ts_top_below l (ts_expr.opstack st) ->
    frame_open (ts_expr.func_stack st) ->
    ts_head_not_lparen rest ->
    if callable e then
      exists body pend,
        body ++ pend = ts_postfix e /\
        Forall (ts_pending l) pend /\
        ts_expr.loop st (map conv (infix e) ++ rest) =
        ts_expr.loop (ts_after st e body pend) rest
    else
      ts_expr.loop st (map conv (infix e) ++ rest) =
      Err (ParseError "Function call has empty argument list").

(** The code of a tree leaves the value of the tree on the stack, or
    throws what the tree throws. *)
Definition computes {S V : Type} (be : tsexpr.Backend S V) (s : S)
    (e : expr) : Prop :=
  forall (st : list V) (post : list tsexpr.Instr),
    match denote be s e with
    | Ok x =>
        tsexpr.run be (code_of e ++ post) s st = tsexpr.run be post s (x :: st)
    | Err err =>
        exists st', tsexpr.run be (code_of e ++ post) s st = (s, st', Some err)
    end.

(** The tree of [-(a + b) * 2 - sumproduct(a, b / 4)]. *)
Definition example_tree : expr :=
  EBin Minus
    (EBin Star (ENeg (EParen (EBin Plus (EVar "a") (EVar "b"))))
               (ENum 2%float))
    (ECall "sumproduct" [EVar "a"; EBin Slash (EVar "b") (ENum 4%float)]).

(** * Properties *)

(** ** The result monad and token kinds *)

Lemma bind_Ok_inv {A B : Type} (r : Result A) (k : A -> Result B) (b : B) :
  bind r k = Ok b -> exists a, r = Ok a /\ k a = Ok b.
Proof. destruct r as [a|e]; simpl; [eauto | discriminate]. Qed.

Lemma bind_parse_error {A B : Type} (r : Result A) (k : A -> Result B) :
  is_parse_error r -> is_parse_error (bind r k).
Proof. intros [w ->]. exists w. reflexivity. Qed.

Lemma is_parse_error_intro {A : Type} (w : string) :
  is_parse_error (@Err A (ParseError w)).
Proof. exists w. reflexivity. Qed.

Lemma not_parse_error_Ok {A : Type} (a : A) : ~ is_parse_error (Ok a).
Proof. intros [w H]. discriminate. Qed.

Lemma TokKind_eqb_eq (a b : TokKind) : TokKind_eqb a b = true <-> a = b.
Proof. destruct a, b; simpl; split; congruence. Qed.

Create HintDb parse.
#[local] Hint Resolve is_parse_error_intro : parse.

(** ** The lexers *)

Module lexer_facts.

Lemma skip_ws_length (s : string) :
  String.length (scan.skip_ws s) <= String.length s.
Proof.
  induction s as [|c r IH]; simpl; [lia|].
  destruct (libc.isspace c); simpl; lia.
Qed.

Lemma backtick_length (s txt r : string) :
  scan.backtick s = Some (txt, r) -> String.length r < String.length s.
Proof.
  revert txt r. induction s as [|c s IH]; intros txt r; simpl; [discriminate|].
  destruct (Ascii.eqb c "`").
  - intros [= <- <-]. lia.
  - destruct (scan.backtick s) as [[txt' r']|] eqn:E; [|discriminate].
    intros [= <- <-]. specialize (IH _ _ eq_refl). lia.
Qed.

Lemma ident_length (s txt r : string) :
  scan.ident s = (txt, r) -> String.length r <= String.length s.
Proof.
  revert txt r. induction s as [|c s IH]; intros txt r; simpl.
  - intros [= <- <-]. simpl. lia.
  - destruct (scan.is_ident_char c).
    + destruct (scan.ident s) as [txt' r'] eqn:E.
      intros [= <- <-]. specialize (IH _ _ eq_refl). lia.
    + intros [= <- <-]. simpl. lia.
Qed.

Lemma advance_length (n : nat) (s : string) :
  String.length (scan.advance n s) <= String.length s.
Proof.
  revert s. induction n as [|n IH]; intros s; simpl; [lia|].
  destruct s as [|c s']; simpl; [lia|].
  specialize (IH s'). lia.
Qed.

(** Every call of [next] that returns a token other than [End] moves
    the read position forward. *)
Lemma next_consumes strtod (s s' : string) (t : tsexpr.Token) :
  tsexpr.next strtod s = Ok (t, s') ->
  tsexpr.kind t <> End ->
  String.length s' < String.length s.
Proof.
  unfold tsexpr.next. pose proof (skip_ws_length s) as Hws.
  destruct (scan.skip_ws s) as [|c r] eqn:Es.
  - intros [= <- <-]. simpl. congruence.
  - simpl in Hws. destruct (single_char c) as [k|].
    { intros [= <- <-] _. lia. }
    destruct (Ascii.eqb c "`").
    { destruct (scan.backtick r) as [[txt r']|] eqn:Eb; [|discriminate].
      intros [= <- <-] _. apply backtick_length in Eb. lia. }
    destruct (scan.is_ident_start c).
    { destruct (scan.ident r) as [txt r'] eqn:Ei.
      intros [= <- <-] _. apply ident_length in Ei. lia. }
    destruct (libc.isdigit c || Ascii.eqb c ".").
    { destruct (strtod (String c r)) as [x n]. destruct n as [|n]; [discriminate|].
      intros [= <- <-] _. pose proof (advance_length n r). simpl. lia. }
    discriminate.
Qed.

Lemma tokens_upto_enough strtod (n m : nat) (s : string) :
  String.length s < n -> String.length s < m ->
  tsexpr.tokens_upto strtod n s = tsexpr.tokens_upto strtod m s.
Proof.
  revert m s. induction n as [|n IH]; intros m s Hn Hm; [lia|].
  destruct m as [|m]; [lia|]. simpl.
  destruct (tsexpr.next strtod s) as [[t s']|e] eqn:E; [|reflexivity].
  destruct (tsexpr.kind t) eqn:Ek; try reflexivity;
    (assert (String.length s' < String.length s) as Hlt
       by (eapply next_consumes; [exact E | congruence]);
     rewrite (IH m s') by lia; reflexivity).
Qed.

(** [tokens] is the sequence of results of [next]: the bound on the
    number of calls in its definition is never reached. *)
Lemma tokens_unfold strtod (s : string) :
  tsexpr.tokens strtod s =
  match tsexpr.next strtod s with
  | Err e => ([], Some e)
  | Ok (t, s') =>
      match tsexpr.kind t with
      | End => ([], None)
      | _ => let '(ts, e) := tsexpr.tokens strtod s' in (t :: ts, e)
      end
  end.
Proof.
  unfold tsexpr.tokens at 1. simpl.
  destruct (tsexpr.next strtod s) as [[t s']|e] eqn:E; [|reflexivity].
  destruct (tsexpr.kind t) eqn:Ek; try reflexivity;
    (assert (String.length s' < String.length s) as Hlt
       by (eapply next_consumes; [exact E | congruence]);
     unfold tsexpr.tokens;
     rewrite (tokens_upto_enough strtod (String.length s) (S (String.length s')) s')
       by lia; reflexivity).
Qed.

Lemma tokens_upto_no_End strtod (n : nat) (s : string) :
  Forall (fun t => tsexpr.kind t <> End) (fst (tsexpr.tokens_upto strtod n s)).
Proof.
  revert s. induction n as [|n IH]; intros s; simpl; [constructor|].
  destruct (tsexpr.next strtod s) as [[t s']|e]; [|constructor].
  specialize (IH s').
  destruct (tsexpr.kind t) eqn:Ek; try constructor;
    destruct (tsexpr.tokens_upto strtod n s') as [ts e]; simpl in *;
    constructor; (congruence || assumption).
Qed.

Lemma tokens_no_End strtod (s : string) :
  Forall (fun t => tsexpr.kind t <> End) (fst (tsexpr.tokens strtod s)).
Proof. apply tokens_upto_no_End. Qed.

Lemma next_impl_next strtod (s : string) :
  ts_expr.next_impl strtod s =
  match tsexpr.next strtod s with
  | Ok (t, s') => Ok (conv t, s')
  | Err e => Err e
  end.
Proof.
  unfold ts_expr.next_impl, tsexpr.next.
  destruct (scan.skip_ws s) as [|c r]; [reflexivity|].
  destruct (single_char c); [reflexivity|].
  destruct (Ascii.eqb c "`").
  { destruct (scan.backtick r) as [[txt r']|]; reflexivity. }
  destruct (scan.is_ident_start c).
  { destruct (scan.ident r) as [txt r']; reflexivity. }
  destruct (libc.isdigit c || Ascii.eqb c "."); [|reflexivity].
  destruct (strtod (String c r)) as [x n]. destruct n; reflexivity.
Qed.

Lemma tokens_upto_conv strtod (n : nat) (s : string) :
  ts_expr.tokens_upto strtod n s =
  (map conv (fst (tsexpr.tokens_upto strtod n s)),
   snd (tsexpr.tokens_upto strtod n s)).
Proof.
  revert s. induction n as [|n IH]; intros s; simpl; [reflexivity|].
  rewrite next_impl_next.
  destruct (tsexpr.next strtod s) as [[t s']|e]; [|reflexivity].
  simpl. rewrite (IH s').
  destruct (tsexpr.kind t); try reflexivity;
    destruct (tsexpr.tokens_upto strtod n s') as [ts e]; reflexivity.
Qed.

Lemma tokens_conv strtod (s : string) :
  ts_expr.tokens strtod s =
  (map conv (fst (tsexpr.tokens strtod s)), snd (tsexpr.tokens strtod s)).
Proof. apply tokens_upto_conv. Qed.

Lemma ts_tokens_no_End strtod (s : string) :
  Forall (fun t => ts_expr.kind t <> End) (fst (ts_expr.tokens strtod s)).
Proof.
  rewrite tokens_conv. simpl. apply Forall_map.
  exact (tokens_no_End strtod s).
Qed.

(** The exception that ends the token sequence of an input is the one
    that ends the token sequence of any text the lexer reaches in it. *)
Lemma tokens_reaches strtod (s r : string) :
  reaches strtod s r ->
  snd (tsexpr.tokens strtod s) = snd (tsexpr.tokens strtod r).
Proof.
  induction 1 as [|s t s' r Hn Hk _ IH]; [reflexivity|].
  rewrite <- IH, (tokens_unfold strtod s), Hn.
  destruct (tsexpr.tokens strtod s') as [ts e].
  destruct (tsexpr.kind t); try reflexivity. congruence.
Qed.

End lexer_facts.

(** ** The executor *)

Module executor_facts.

Section WithBackend.

Context {S V : Type} (be : tsexpr.Backend S V).

Lemma run_app (pre post : list tsexpr.Instr) (s s1 : S) (st st1 : list V) :
  tsexpr.run be pre s st = (s1, st1, None) ->
  tsexpr.run be (pre ++ post) s st = tsexpr.run be post s1 st1.
Proof.
  revert s st. induction pre as [|ins pre IH]; intros s st; simpl.
  - intros [= <- <-]. reflexivity.
  - destruct (tsexpr.exec_instr be s st ins) as [[s' st']|e]; [|discriminate].
    apply IH.
Qed.

Lemma run_app_fail (pre post : list tsexpr.Instr) (s s1 : S)
    (st st1 : list V) (e : Error) :
  tsexpr.run be pre s st = (s1, st1, Some e) ->
  tsexpr.run be (pre ++ post) s st = (s1, st1, Some e).
Proof.
  revert s st. induction pre as [|ins pre IH]; intros s st; simpl.
  - discriminate.
  - destruct (tsexpr.exec_instr be s st ins) as [[s' st']|e']; [apply IH|].
    intros H. exact H.
Qed.

Lemma exec_call_zero (s : S) (st : list V) (f : string) (x : float) :
  tsexpr.exec_instr be s st (tsexpr.mkInstr tsexpr.Call f x 0) =
  (r <- tsexpr.call be s f [] ;; Ok (s, r :: st)).
Proof.
  unfold tsexpr.exec_instr. cbn [tsexpr.op tsexpr.iargc tsexpr.itext].
  replace (0 <? 0)%Z with false by reflexivity.
  replace (Z.of_nat (length st) <? 0)%Z with false
    by (symmetry; apply Z.ltb_ge; lia).
  reflexivity.
Qed.

End WithBackend.

End executor_facts.

(** C10: [Program::execute] does not reject a [Call] with [argc == 0].
    Whatever instructions come before it, when the run reaches the
    instruction it calls [backend.call] with an empty argument vector and
    pushes the result (or ends with the exception [backend.call] throws);
    and a [Call] instruction makes the executor itself raise an evaluation
    error exactly when [argc] is negative or exceeds the number of values on
    the stack: in every other case the outcome is that of [backend.call] on
    the top [argc] values, first-written argument first. *)
Theorem C10_execute_accepts_argc_zero :
  forall (S V : Type) (be : tsexpr.Backend S V),
    (forall (pre post : list tsexpr.Instr) (f : string) (x : float)
            (s s1 : S) (st1 : list V),
        tsexpr.run be pre s [] = (s1, st1, None) ->
        tsexpr.run be (pre ++ tsexpr.mkInstr tsexpr.Call f x 0 :: post) s [] =
        match tsexpr.call be s1 f [] with
        | Ok r => tsexpr.run be post s1 (r :: st1)
        | Err e => (s1, st1, Some e)
        end) /\
    (forall (ins : tsexpr.Instr) (s : S) (st : list V),
        tsexpr.op ins = tsexpr.Call ->
        ((tsexpr.iargc ins < 0)%Z ->
         tsexpr.exec_instr be s st ins = Err (EvalError "Invalid CALL argc")) /\
        ((Z.of_nat (length st) < tsexpr.iargc ins)%Z ->
         is_eval_error (tsexpr.exec_instr be s st ins)) /\
        ((0 <= tsexpr.iargc ins <= Z.of_nat (length st))%Z ->
         tsexpr.exec_instr be s st ins =
         (r <- tsexpr.call be s (tsexpr.itext ins)
                 (rev (firstn (Z.to_nat (tsexpr.iargc ins)) st)) ;;
          Ok (s, r :: skipn (Z.to_nat (tsexpr.iargc ins)) st)))).
Proof.
  intros S V be. split.
  - intros pre post f x s s1 st1 Hpre.
    rewrite (executor_facts.run_app be pre _ s s1 [] st1 Hpre).
    cbn [tsexpr.run]. rewrite executor_facts.exec_call_zero.
    destruct (tsexpr.call be s1 f []) as [r|e]; reflexivity.
  - intros ins s st Hop. unfold tsexpr.exec_instr. rewrite Hop.
    repeat split.
    + intros Hneg. apply Z.ltb_lt in Hneg. rewrite Hneg. reflexivity.
    + intros Hfew. destruct (tsexpr.iargc ins <? 0)%Z; [eexists; reflexivity|].
      apply Z.ltb_lt in Hfew. rewrite Hfew. eexists; reflexivity.
    + intros [Hlo Hhi].
      apply Z.ltb_ge in Hlo. rewrite Hlo.
      apply Z.ltb_ge in Hhi. rewrite Hhi. reflexivity.
Qed.

(** On the example backend the call of [f()] reaches [call] and ends with
    its "Unknown function" exception. *)
Lemma C10_execute_accepts_argc_zero_witness :
  tsexpr.run toy.Backend [PushNum 1%float] ∅ [] =
    (∅, [toy.VScalar 1%float], None) /\
  tsexpr.run toy.Backend ([PushNum 1%float] ++ Call "f" 0 :: [Store "z"]) ∅ [] =
    (∅, [toy.VScalar 1%float], Some (runtime_error "Unknown function: f")).
Proof.
  split; [reflexivity|].
  exact (proj1 (C10_execute_accepts_argc_zero _ _ toy.Backend)
           [PushNum 1%float] [Store "z"] "f" 0%float ∅ ∅
           [toy.VScalar 1%float] eq_refl).
Defined.

(** C7 (the code departs from the claim): the program that
    [tsexpr::compile] returns for [z = 1 2] pushes two values; on every
    backend [Program::execute] runs it to the end without an exception,
    stores the top value and leaves the other one on the operand stack.
    [eval_rpn] of the other namespace rejects the same postfix sequence with
    an evaluation error. *)
Theorem C7_execute_ignores_leftover_values :
  tsexpr.compile libc.strtod_dec "z = 1 2" =
    Ok [PushNum 1%float; PushNum 2%float; Store "z"] /\
  (forall (S V : Type) (be : tsexpr.Backend S V) (s : S),
      tsexpr.run be [PushNum 1%float; PushNum 2%float; Store "z"] s [] =
      (tsexpr.store_var be s "z" (tsexpr.make_number be s 2%float),
       [tsexpr.make_number be s 1%float], None)) /\
  (forall env,
      ts_expr.eval_rpn (map conv [tsexpr.mkToken Number "" 1%float;
                                  tsexpr.mkToken Number "" 2%float]) env =
      Err (EvalError "Expression did not reduce to a single value")).
Proof.
  split; [vm_compute; reflexivity|]. split.
  - intros S V be s. reflexivity.
  - intros env. reflexivity.
Qed.

(** ** The parsers: general facts about the token loops *)

(** Induction over a token list two tokens at a time, as the loops read
    an identifier together with its lookahead. *)
Lemma list_ind2 {A : Type} (P : list A -> Prop) :
  P [] ->
  (forall x, P [x]) ->
  (forall x y l, P l -> P (y :: l) -> P (x :: y :: l)) ->
  forall l, P l.
Proof.
  intros H0 H1 H2 l.
  assert (P l /\ forall x, P (x :: l)) as [H _]; [|exact H].
  induction l as [|y l [IH1 IH2]]; split; auto.
Qed.

Module ts_expr_facts.

Import ts_expr.

(** Every exception of the token loop is a [ParseError]. *)
Lemma ts_on_comma_err st e : on_comma st = Err e -> exists w, e = ParseError w.
Proof.
  unfold on_comma. destruct (func_stack st) as [|c fs]; [intros [= <-]; eauto|].
  destruct (negb (depth c =? 1)%Z); [intros [= <-]; eauto|].
  destruct (pop_to_lparen (output st) (opstack st)) as [out ops].
  destruct ops; [intros [= <-]; eauto | discriminate].
Qed.

Lemma ts_on_rparen_err st e : on_rparen st = Err e -> exists w, e = ParseError w.
Proof.
  unfold on_rparen.
  destruct (func_stack st) as [|c fs]; simpl.
  - destruct (pop_through_lparen (output st) (opstack st)) as [[out ops]|];
      [discriminate | intros [= <-]; eauto].
  - destruct (depth c - 1 <? 0)%Z; simpl; [intros [= <-]; eauto|].
    destruct (pop_through_lparen (output st) (opstack st)) as [[out ops]|];
      [|intros [= <-]; eauto].
    destruct (depth c - 1 =? 0)%Z; [|discriminate].
    destruct ops as [|fn ops]; [intros [= <-]; eauto|].
    destruct (is_function (kind fn)); [|intros [= <-]; eauto].
    destruct (saw_expr c); simpl; [discriminate | intros [= <-]; eauto].
Qed.

Lemma ts_step_err st t e : step st t = Err e -> exists w, e = ParseError w.
Proof.
  unfold step.
  destruct (kind t) eqn:Ek;
    try discriminate;
    try apply ts_on_comma_err; try apply ts_on_rparen_err;
    try (destruct (is_operator (kind (retag_minus st t)));
         [discriminate|];
         destruct (kind (retag_minus st t)); intros [= <-]; eauto).
Qed.

(** The four ways one turn of the loop can go. *)
Lemma ts_loop_cases st t rest :
  (kind t = End /\ loop st (t :: rest) = Ok st) \/
  (kind t = Ident /\ exists lp rest', rest = lp :: rest' /\
     kind lp = LParen /\ loop st (t :: rest) = loop (on_call st t lp) rest') \/
  (kind t = Ident /\ ts_head_not_lparen rest /\
     loop st (t :: rest) = loop (on_operand st t) rest) \/
  (kind t <> End /\ kind t <> Ident /\
     loop st (t :: rest) = (st' <- step st t ;; loop st' rest)).
Proof.
  destruct (kind t) eqn:Ek.
  2-10, 12-13:
    right; right; right; repeat split; try congruence;
    cbn [loop]; rewrite Ek; destruct (step st t); reflexivity.
  - destruct rest as [|lp rest'].
    + right; right; left. repeat split. cbn [loop]. rewrite Ek. reflexivity.
    + destruct (kind lp) eqn:Elp.
      7: { right; left. split; [reflexivity|]. exists lp, rest'.
           repeat split; [assumption|]. cbn [loop]. rewrite Ek, Elp. reflexivity. }
      all: right; right; left; repeat split;
        [simpl; congruence | cbn [loop]; rewrite Ek, Elp; reflexivity].
  - left. split; [reflexivity|]. cbn [loop]. rewrite Ek. reflexivity.
Qed.

Lemma ts_loop_err toks : forall st e,
  loop st toks = Err e -> exists w, e = ParseError w.
Proof.
  induction toks as [| x | x y l IHl IHyl] using list_ind2; intros st e.
  - discriminate.
  - destruct (ts_loop_cases st x []) as
      [[_ ->]|[(_ & lp & r & [=] & _)|[(_ & _ & ->)|(_ & _ & ->)]]];
      try discriminate.
    destruct (step st x) eqn:Es; [discriminate|].
    intros [= <-]. eapply ts_step_err; eauto.
  - destruct (ts_loop_cases st x (y :: l)) as
      [[_ ->]|[(_ & lp & r & [= <- <-] & _ & ->)|[(_ & _ & ->)|(_ & _ & ->)]]];
      try discriminate; try apply IHl; try apply IHyl.
    destruct (step st x) eqn:Es; [apply IHyl|].
    intros [= <-]. eapply ts_step_err; eauto.
Qed.

(** The loop over a sequence cut in two, when the cut does not separate an
    identifier from its lookahead. *)
Lemma ts_loop_app pre : forall rest st,
  no_End_ts pre -> ts_head_not_lparen rest ->
  loop st (pre ++ rest) = (st' <- loop st pre ;; loop st' rest).
Proof.
  induction pre as [| x | x y l IHl IHyl] using list_ind2;
    intros rest st Hne Hr.
  - reflexivity.
  - apply Forall_cons in Hne as [Hx _]. simpl app.
    destruct (ts_loop_cases st x rest) as
      [[? _]|[(_ & lp & r & -> & Hlp & _)|[(Hi & _ & ->)|(? & Hni & ->)]]];
      [congruence | simpl in Hr; congruence | |].
    + destruct (ts_loop_cases st x []) as
        [[? _]|[(_ & lp & r & [=] & _)|[(_ & _ & ->)|(_ & ? & _)]]];
        [congruence | | congruence]. reflexivity.
    + destruct (ts_loop_cases st x []) as
        [[? _]|[(? & _)|[(? & _)|(_ & _ & ->)]]]; try congruence.
      destruct (step st x); reflexivity.
  - apply Forall_cons in Hne as [Hx Hne].
    pose proof Hne as Hyl. apply Forall_cons in Hne as [Hy Hne].
    change ((x :: y :: l) ++ rest) with (x :: y :: (l ++ rest)).
    destruct (ts_loop_cases st x (y :: l ++ rest)) as
      [[? _]|[(Hi & lp & r & [= <- <-] & Hlp & ->)|[(Hi & Hh & ->)|(? & Hni & ->)]]];
      [congruence | | |].
    + destruct (ts_loop_cases st x (y :: l)) as
        [[? _]|[(_ & lp & r & [= <- <-] & _ & ->)|[(_ & Hh & _)|(_ & ? & _)]]];
        [congruence | | simpl in Hh; congruence | congruence].
      apply IHl; assumption.
    + destruct (ts_loop_cases st x (y :: l)) as
        [[? _]|[(_ & lp & r & [= <- <-] & ? & _)|[(_ & _ & ->)|(_ & ? & _)]]];
        [congruence | simpl in Hh; congruence | | congruence].
      apply (IHyl rest); assumption.
    + destruct (ts_loop_cases st x (y :: l)) as
        [[? _]|[(? & _)|[(? & _)|(_ & _ & ->)]]]; try congruence.
      destruct (step st x) as [st'|e]; [|reflexivity].
      apply (IHyl rest); assumption.
Qed.

Lemma ts_loop_parse_error toks st e :
  loop st toks = Err e -> is_parse_error (loop st toks).
Proof.
  intros H. destruct (ts_loop_err _ _ _ H) as [w ->]. exists w. exact H.
Qed.

(** [compile] on a token sequence with at least two tokens. *)
Lemma compile_tokens_cons2 lhs eq e tail :
  compile_tokens (lhs :: eq :: e, tail) =
  match kind lhs with
  | Ident =>
      match kind eq with
      | Assign =>
          st <- loop init e ;;
          match tail with
          | Some x => Err x
          | None => out <- drain (output st) (opstack st) ;;
                    Ok (mkCompiled (text lhs) out)
          end
      | _ => Err (ParseError "Expected '=' after assignment target")
      end
  | _ => Err (ParseError "Expected assignment target identifier at start")
  end.
Proof. reflexivity. Qed.

(** A failing token loop makes [compile] fail with a parse error. *)
Lemma ts_compile_tokens_loop_fails lhs eq e tail :
  is_parse_error (loop init e) ->
  is_parse_error (compile_tokens (lhs :: eq :: e, tail)).
Proof.
  intros [w Hw]. rewrite compile_tokens_cons2.
  destruct (kind lhs); eauto with parse.
  destruct (kind eq); eauto with parse.
  rewrite Hw. simpl. eauto with parse.
Qed.

(** When the lexer throws, [compile] throws a parse error: that of the
    lexer, or one of its own before it gets there. *)
Lemma compile_tokens_lexer_fails toks w :
  is_parse_error (compile_tokens (toks, Some (ParseError w))).
Proof.
  destruct toks as [|lhs [|eq e]].
  - cbn. eauto with parse.
  - unfold compile_tokens. cbn. destruct (kind lhs); cbn; eauto with parse.
  - rewrite compile_tokens_cons2.
    destruct (kind lhs); eauto with parse.
    destruct (kind eq); eauto with parse.
    destruct (loop init e) as [st|x] eqn:El; cbn; eauto with parse.
    destruct (ts_loop_err _ _ _ El) as [w' ->]. eauto with parse.
Qed.

Lemma ts_loop_app_fails pre rest st :
  no_End_ts pre -> ts_head_not_lparen rest ->
  (forall st', is_parse_error (loop st' rest)) ->
  is_parse_error (loop st (pre ++ rest)).
Proof.
  intros Hne Hh Hrest. rewrite ts_loop_app by assumption.
  destruct (loop st pre) as [st'|e] eqn:E.
  - apply Hrest.
  - simpl. rewrite <- E. eapply ts_loop_parse_error; eauto.
Qed.

(** An identifier, ['('] and [')'] in a row: the call frame is pushed and
    closed at once, with no argument seen. *)
Lemma empty_call_fails st f lp rp post :
  kind f = Ident -> kind lp = LParen -> kind rp = RParen ->
  loop st (f :: lp :: rp :: post) =
  Err (ParseError "Function call has empty argument list").
Proof.
  intros Hf Hlp Hrp. cbn [loop]. rewrite Hf, Hlp, Hrp.
  unfold step. rewrite Hrp. unfold on_rparen, on_call.
  cbn [func_stack depth commas saw_expr opstack output bind].
  replace (1 - 1 <? 0)%Z with false by reflexivity.
  cbn [bind pop_through_lparen]. rewrite Hlp.
  replace (1 - 1 =? 0)%Z with true by reflexivity.
  cbn [kind is_function TokKind_eqb saw_expr]. reflexivity.
Qed.

(** What [drain] accepts holds no ['(']. *)
Lemma ts_drain_Ok_no_lparen ops : forall out r,
  drain out ops = Ok r ->
  forall out', pop_to_lparen out' ops = (out' ++ ops, []) /\
               pop_through_lparen out' ops = None.
Proof.
  induction ops as [|top ops IH]; intros out r H out'; simpl.
  - rewrite app_nil_r. split; reflexivity.
  - simpl in H. destruct (kind top) eqn:Ek; try discriminate;
      (destruct (IH _ _ H (out' ++ [top])) as [-> ->];
       rewrite <- app_assoc; split; reflexivity).
Qed.

(** After a complete expression a [')'], a [','] or an ['='] is an
    error. *)
Lemma ts_stray_token_fails st t rest r :
  drain (output st) (opstack st) = Ok r ->
  kind t = RParen \/ kind t = Comma \/ kind t = Assign ->
  is_parse_error (loop st (t :: rest)).
Proof.
  intros Hd Hk.
  destruct (ts_drain_Ok_no_lparen _ _ _ Hd (output st)) as [Hp Ht].
  destruct Hk as [Hk|[Hk|Hk]]; cbn [loop]; rewrite Hk; unfold step; rewrite Hk.
  - unfold on_rparen.
    destruct (func_stack st) as [|c fs]; simpl.
    + rewrite Ht. eauto with parse.
    + destruct (depth c - 1 <? 0)%Z; simpl; [eauto with parse|].
      rewrite Ht. eauto with parse.
  - unfold on_comma. destruct (func_stack st) as [|c fs]; [eauto with parse|].
    destruct (negb (depth c =? 1)%Z); [eauto with parse|].
    rewrite Hp. eauto with parse.
  - unfold retag_minus. rewrite Hk. rewrite Hk. simpl. eauto with parse.
Qed.

End ts_expr_facts.

Module tsexpr_facts.

Import tsexpr.

Lemma on_comma_err st e : on_comma st = Err e -> exists w, e = ParseError w.
Proof.
  unfold on_comma.
  destruct (pop_to_lparen (output st) (opstack st)) as [out ops].
  destruct ops; [intros [= <-]; eauto|].
  destruct (fnstack st); [intros [= <-]; eauto | discriminate].
Qed.

Lemma on_rparen_err st e : on_rparen st = Err e -> exists w, e = ParseError w.
Proof.
  unfold on_rparen.
  destruct (pop_to_lparen (output st) (opstack st)) as [out ops].
  destruct ops as [|lp ops1]; [intros [= <-]; eauto|].
  destruct ops1 as [|fn ops2]; [discriminate|].
  destruct (kind fn); try discriminate.
  destruct (fnstack st); [intros [= <-]; eauto | discriminate].
Qed.

Lemma step_err st t e : step st t = Err e -> exists w, e = ParseError w.
Proof.
  unfold step.
  destruct (kind t) eqn:Ek;
    try discriminate;
    try apply on_comma_err; try apply on_rparen_err;
    try (destruct (is_op (kind (retag_minus st t)));
         [discriminate | intros [= <-]; eauto]).
Qed.

Lemma loop_cases st t rest :
  (kind t = End /\ loop st (t :: rest) = Ok st) \/
  (kind t = Ident /\ exists lp rest', rest = lp :: rest' /\
     kind lp = LParen /\ loop st (t :: rest) = loop (on_call st t lp) rest') \/
  (kind t = Ident /\ head_not_lparen rest /\
     loop st (t :: rest) = loop (on_operand st t) rest) \/
  (kind t <> End /\ kind t <> Ident /\
     loop st (t :: rest) = (st' <- step st t ;; loop st' rest)).
Proof.
  destruct (kind t) eqn:Ek.
  2-10, 12-13:
    right; right; right; repeat split; try congruence;
    cbn [loop]; rewrite Ek; destruct (step st t); reflexivity.
  - destruct rest as [|lp rest'].
    + right; right; left. repeat split. cbn [loop]. rewrite Ek. reflexivity.
    + destruct (kind lp) eqn:Elp.
      7: { right; left. split; [reflexivity|]. exists lp, rest'.
           repeat split; [assumption|]. cbn [loop]. rewrite Ek, Elp. reflexivity. }
      all: right; right; left; repeat split;
        [simpl; congruence | cbn [loop]; rewrite Ek, Elp; reflexivity].
  - left. split; [reflexivity|]. cbn [loop]. rewrite Ek. reflexivity.
Qed.

Lemma loop_err toks : forall st e,
  loop st toks = Err e -> exists w, e = ParseError w.
Proof.
  induction toks as [| x | x y l IHl IHyl] using list_ind2; intros st e.
  - discriminate.
  - destruct (loop_cases st x []) as
      [[_ ->]|[(_ & lp & r & [=] & _)|[(_ & _ & ->)|(_ & _ & ->)]]];
      try discriminate.
    destruct (step st x) eqn:Es; [discriminate|].
    intros [= <-]. eapply step_err; eauto.
  - destruct (loop_cases st x (y :: l)) as
      [[_ ->]|[(_ & lp & r & [= <- <-] & _ & ->)|[(_ & _ & ->)|(_ & _ & ->)]]];
      try discriminate; try apply IHl; try apply IHyl.
    destruct (step st x) eqn:Es; [apply IHyl|].
    intros [= <-]. eapply step_err; eauto.
Qed.

Lemma loop_app pre : forall rest st,
  no_End pre -> head_not_lparen rest ->
  loop st (pre ++ rest) = (st' <- loop st pre ;; loop st' rest).
Proof.
  induction pre as [| x | x y l IHl IHyl] using list_ind2;
    intros rest st Hne Hr.
  - reflexivity.
  - apply Forall_cons in Hne as [Hx _]. simpl app.
    destruct (loop_cases st x rest) as
      [[? _]|[(_ & lp & r & -> & Hlp & _)|[(Hi & _ & ->)|(? & Hni & ->)]]];
      [congruence | simpl in Hr; congruence | |].
    + destruct (loop_cases st x []) as
        [[? _]|[(_ & lp & r & [=] & _)|[(_ & _ & ->)|(_ & ? & _)]]];
        [congruence | | congruence]. reflexivity.
    + destruct (loop_cases st x []) as
        [[? _]|[(? & _)|[(? & _)|(_ & _ & ->)]]]; try congruence.
      destruct (step st x); reflexivity.
  - apply Forall_cons in Hne as [Hx Hne].
    pose proof Hne as Hyl. apply Forall_cons in Hne as [Hy Hne].
    change ((x :: y :: l) ++ rest) with (x :: y :: (l ++ rest)).
    destruct (loop_cases st x (y :: l ++ rest)) as
      [[? _]|[(Hi & lp & r & [= <- <-] & Hlp & ->)|[(Hi & Hh & ->)|(? & Hni & ->)]]];
      [congruence | | |].
    + destruct (loop_cases st x (y :: l)) as
        [[? _]|[(_ & lp & r & [= <- <-] & _ & ->)|[(_ & Hh & _)|(_ & ? & _)]]];
        [congruence | | simpl in Hh; congruence | congruence].
      apply IHl; assumption.
    + destruct (loop_cases st x (y :: l)) as
        [[? _]|[(_ & lp & r & [= <- <-] & ? & _)|[(_ & _ & ->)|(_ & ? & _)]]];
        [congruence | simpl in Hh; congruence | | congruence].
      apply (IHyl rest); assumption.
    + destruct (loop_cases st x (y :: l)) as
        [[? _]|[(? & _)|[(? & _)|(_ & _ & ->)]]]; try congruence.
      destruct (step st x) as [st'|e]; [|reflexivity].
      apply (IHyl rest); assumption.
Qed.

Lemma loop_parse_error toks st e :
  loop st toks = Err e -> is_parse_error (loop st toks).
Proof.
  intros H. destruct (loop_err _ _ _ H) as [w ->]. exists w. exact H.
Qed.

Lemma loop_app_fails pre rest st :
  no_End pre -> head_not_lparen rest ->
  (forall st', is_parse_error (loop st' rest)) ->
  is_parse_error (loop st (pre ++ rest)).
Proof.
  intros Hne Hh Hrest. rewrite loop_app by assumption.
  destruct (loop st pre) as [st'|e] eqn:E.
  - apply Hrest.
  - simpl. rewrite <- E. eapply loop_parse_error; eauto.
Qed.

(** [compile] on a token sequence with at least three tokens. *)
Lemma compile_tokens_cons3 lhs eq first e tail :
  compile_tokens (lhs :: eq :: first :: e, tail) =
  match kind lhs with
  | Ident =>
      match kind eq with
      | Assign =>
          match kind first with
          | End => Err (ParseError "Expected expression after '='")
          | _ =>
              rpn <- to_rpn (e, tail) first ;;
              code <- lower_all rpn ;;
              Ok (code ++ [mkInstr Store (text lhs) 0%float 0])
          end
      | _ => Err (ParseError "Expected '=' after assignment target")
      end
  | _ => Err (ParseError "Expected assignment target identifier at start")
  end.
Proof. reflexivity. Qed.

Lemma compile_tokens_loop_fails lhs eq first e tail :
  is_parse_error (loop rpn_init (first :: e)) ->
  is_parse_error (compile_tokens (lhs :: eq :: first :: e, tail)).
Proof.
  intros [w Hw]. rewrite compile_tokens_cons3.
  destruct (kind lhs); eauto with parse.
  destruct (kind eq); eauto with parse.
  unfold to_rpn. cbn [fst snd]. rewrite Hw.
  destruct (kind first); simpl; eauto with parse.
Qed.



Lemma tsexpr_compile_tokens_lexer_fails toks w :
  is_parse_error (compile_tokens (toks, Some (ParseError w))).
Proof.
  destruct toks as [|lhs [|eq [|first e]]].
  - cbn. eauto with parse.
  - unfold compile_tokens. cbn. destruct (kind lhs); cbn; eauto with parse.
  - unfold compile_tokens. cbn. destruct (kind lhs); cbn; eauto with parse.
    destruct (kind eq); cbn; eauto with parse.
  - rewrite compile_tokens_cons3.
    destruct (kind lhs); eauto with parse.
    destruct (kind eq); eauto with parse.
    assert (is_parse_error (to_rpn (e, Some (ParseError w)) first)) as [x Hx].
    { unfold to_rpn. cbn [fst snd].
      destruct (loop rpn_init (first :: e)) as [st|x] eqn:El;
        cbn; eauto with parse.
      destruct (loop_err _ _ _ El) as [w' ->]. eauto with parse. }
    rewrite Hx. destruct (kind first); cbn; eauto with parse.
Qed.

Lemma drain_Ok_no_lparen ops : forall out r,
  drain out ops = Ok r ->
  forall out', pop_to_lparen out' ops = (out' ++ ops, []).
Proof.
  induction ops as [|top ops IH]; intros out r H out'; simpl.
  - rewrite app_nil_r. reflexivity.
  - simpl in H. destruct (kind top) eqn:Ek; try discriminate;
      (rewrite (IH _ _ H (out' ++ [top]));
       rewrite <- app_assoc; reflexivity).
Qed.

Lemma stray_token_fails st t rest r :
  drain (output st) (opstack st) = Ok r ->
  kind t = RParen \/ kind t = Comma \/ kind t = Assign ->
  is_parse_error (loop st (t :: rest)).
Proof.
  intros Hd Hk.
  pose proof (drain_Ok_no_lparen _ _ _ Hd (output st)) as Hp.
  destruct Hk as [Hk|[Hk|Hk]]; cbn [loop]; rewrite Hk; unfold step; rewrite Hk.
  - unfold on_rparen. rewrite Hp. eauto with parse.
  - unfold on_comma. rewrite Hp. eauto with parse.
  - unfold retag_minus. rewrite Hk. rewrite Hk. simpl. eauto with parse.
Qed.

End tsexpr_facts.

(** ** Arities emitted by [ts::expr::compile] *)

Module arity_facts.

Import ts_expr.

Lemma shape_depth_pos ds ops :
  call_shape ds ops -> Forall (fun d => (1 <= d)%Z) ds.
Proof.
  induction 1 as [| | |d ds t ops Hk Hd Hs IH|ds lp fn ops Hl Hf Hs IH]; auto.
  - apply Forall_cons in IH as [_ IH]. constructor; [lia | exact IH].
  - constructor; [lia | exact IH].
Qed.

Lemma operator_arity_ok t : is_operator (kind t) = true -> arity_ok t.
Proof. intros H Hf. rewrite Hf in H. discriminate. Qed.

Lemma not_operator_LParen t : kind t = LParen -> is_operator (kind t) = false.
Proof. intros ->. reflexivity. Qed.

(** Popping down to the nearest ['('] moves operators only. *)
Lemma pop_to_lparen_shape ds ops : forall out,
  call_shape ds ops -> Forall arity_ok out ->
  call_shape ds (snd (pop_to_lparen out ops)) /\
  Forall arity_ok (fst (pop_to_lparen out ops)).
Proof.
  intros out Hs. revert out.
  induction Hs as [|ds t ops Hop Hs IH|t ops Hk Hs IH
                   |d ds t ops Hk Hd Hs IH|ds lp fn ops Hl Hf Hs IH];
    intros out Hout; simpl.
  - split; [constructor | exact Hout].
  - destruct (kind t) eqn:Ek; try discriminate;
      (apply IH; apply Forall_app; split; [exact Hout|];
       constructor; [apply operator_arity_ok; rewrite Ek; reflexivity
                    | constructor]).
  - rewrite Hk. simpl. split; [constructor; assumption | exact Hout].
  - rewrite Hk. simpl. split; [constructor; assumption | exact Hout].
  - rewrite Hl. simpl. split; [constructor; assumption | exact Hout].
Qed.

(** The three ways the close-parenthesis case can find its ['(']. *)
Lemma pop_through_lparen_shape ds ops : forall out o p,
  call_shape ds ops -> Forall arity_ok out ->
  pop_through_lparen out ops = Some (o, p) ->
  Forall arity_ok o /\
  ((ds = [] /\ call_shape [] p) \/
   (exists d ds', ds = (d + 1)%Z :: ds' /\ (1 <= d)%Z /\
                  call_shape (d :: ds') p) \/
   (exists ds' fn p', ds = 1%Z :: ds' /\ p = fn :: p' /\ kind fn = Func /\
                      call_shape ds' p')).
Proof.
  intros out o p Hs. revert out.
  induction Hs as [|ds t ops Hop Hs IH|t ops Hk Hs IH
                   |d ds t ops Hk Hd Hs IH|ds lp fn ops Hl Hf Hs IH];
    intros out Hout; simpl.
  - discriminate.
  - destruct (kind t) eqn:Ek; try discriminate;
      (apply IH; apply Forall_app; split; [exact Hout|];
       constructor; [apply operator_arity_ok; rewrite Ek; reflexivity
                    | constructor]).
  - rewrite Hk. intros [= <- <-]. split; [exact Hout|]. left. auto.
  - rewrite Hk. intros [= <- <-]. split; [exact Hout|].
    right; left. exists d, ds. auto.
  - rewrite Hl. intros [= <- <-]. split; [exact Hout|].
    right; right. exists ds, fn, ops. auto.
Qed.

Lemma pop_operators_shape cur ds ops : forall out,
  call_shape ds ops -> Forall arity_ok out ->
  call_shape ds (snd (pop_operators cur out ops)) /\
  Forall arity_ok (fst (pop_operators cur out ops)).
Proof.
  intros out Hs. revert out.
  induction Hs as [|ds t ops Hop Hs IH|t ops Hk Hs IH
                   |d ds t ops Hk Hd Hs IH|ds lp fn ops Hl Hf Hs IH];
    intros out Hout; simpl.
  - split; [constructor | exact Hout].
  - rewrite Hop. simpl. destruct (pop_it (kind t) cur).
    + apply IH. apply Forall_app. split; [exact Hout|].
      constructor; [apply operator_arity_ok; exact Hop | constructor].
    + split; [constructor; assumption | exact Hout].
  - rewrite (not_operator_LParen _ Hk). simpl.
    split; [constructor; assumption | exact Hout].
  - rewrite (not_operator_LParen _ Hk). simpl.
    split; [constructor; assumption | exact Hout].
  - rewrite (not_operator_LParen _ Hl). simpl.
    split; [constructor; assumption | exact Hout].
Qed.

Lemma well_formed_init : well_formed init.
Proof. repeat split; constructor. Qed.

Lemma well_formed_on_call st t lp :
  kind lp = LParen -> well_formed st -> well_formed (on_call st t lp).
Proof.
  intros Hlp (Hs & Hc & Ho). unfold well_formed, on_call. simpl.
  repeat split; [|constructor; [simpl; lia | exact Hc] | exact Ho].
  apply shape_call; auto.
Qed.

Lemma mark_expr_depth fs b : map depth (mark_expr fs b) = map depth fs.
Proof.
  destruct fs as [|c fs]; simpl; [reflexivity|].
  destruct ((depth c =? 1)%Z && b); reflexivity.
Qed.

Lemma mark_expr_commas fs b :
  Forall (fun c => (0 <= commas c)%Z) fs ->
  Forall (fun c => (0 <= commas c)%Z) (mark_expr fs b).
Proof.
  destruct fs as [|c fs]; simpl; [auto|].
  intros H. destruct ((depth c =? 1)%Z && b); [|exact H].
  apply Forall_cons in H as [Hc H]. constructor; assumption.
Qed.

Lemma well_formed_on_operand st t :
  kind t <> Func -> well_formed st -> well_formed (on_operand st t).
Proof.
  intros Hk (Hs & Hc & Ho). unfold well_formed, on_operand. simpl.
  rewrite mark_expr_depth. repeat split; [exact Hs | |].
  - apply mark_expr_commas. exact Hc.
  - apply Forall_app. split; [exact Ho|].
    constructor; [intros Hf; congruence | constructor].
Qed.

Lemma well_formed_on_lparen st t :
  kind t = LParen -> well_formed st -> well_formed (on_lparen st t).
Proof.
  intros Hk (Hs & Hc & Ho). unfold well_formed, on_lparen. simpl.
  destruct (func_stack st) as [|c fs]; simpl in *.
  - repeat split; [|constructor | exact Ho]. apply shape_paren_top; assumption.
  - pose proof (shape_depth_pos _ _ Hs) as Hd.
    apply Forall_cons in Hd as [Hd _].
    apply Forall_cons in Hc as [Hc0 Hc].
    repeat split; [|constructor; assumption | exact Ho].
    apply shape_paren; assumption.
Qed.

Lemma well_formed_on_operator st t :
  is_operator (kind t) = true -> well_formed st ->
  well_formed (on_operator st t).
Proof.
  intros Hk (Hs & Hc & Ho). unfold well_formed, on_operator.
  destruct (pop_operators_shape (kind t) _ _ (output st) Hs Ho) as [Hs' Ho'].
  destruct (pop_operators (kind t) (output st) (opstack st)) as [o p].
  simpl in *. repeat split; [|exact Hc | exact Ho'].
  apply shape_op; assumption.
Qed.

Lemma well_formed_on_comma st st' :
  well_formed st -> on_comma st = Ok st' -> well_formed st'.
Proof.
  intros (Hs & Hc & Ho). unfold on_comma.
  destruct (func_stack st) as [|c fs] eqn:Ef; [discriminate|].
  destruct (negb (depth c =? 1)%Z); [discriminate|].
  destruct (pop_to_lparen_shape _ _ (output st) Hs Ho) as [Hs' Ho'].
  destruct (pop_to_lparen (output st) (opstack st)) as [o p].
  destruct p as [|lp p]; [discriminate|]. intros [= <-].
  unfold well_formed. simpl in *.
  apply Forall_cons in Hc as [Hc0 Hc].
  repeat split; [exact Hs' | constructor; [simpl; lia | exact Hc] | exact Ho'].
Qed.

Lemma well_formed_on_rparen st st' :
  well_formed st -> on_rparen st = Ok st' -> well_formed st'.
Proof.
  intros (Hs & Hc & Ho). unfold on_rparen.
  destruct (func_stack st) as [|c fs] eqn:Ef; cbn [bind].
  - destruct (pop_through_lparen (output st) (opstack st)) as [[o p]|] eqn:Ep;
      [|discriminate].
    intros [= <-].
    destruct (pop_through_lparen_shape _ _ _ _ _ Hs Ho Ep) as
      [Ho' [[_ Hs']|[(d & ds' & [=] & _)|(ds' & fn & p' & [=] & _)]]].
    unfold well_formed. simpl. auto.
  - destruct (depth c - 1 <? 0)%Z eqn:En; cbn [bind]; [discriminate|].
    destruct (pop_through_lparen (output st) (opstack st)) as [[o p]|] eqn:Ep;
      [|discriminate].
    apply Forall_cons in Hc as [Hc0 Hc]. simpl in Hs.
    destruct (pop_through_lparen_shape _ _ _ _ _ Hs Ho Ep) as
      [Ho' [[[=] _]|[(d & ds' & [= Hd <-] & Hd1 & Hs')
                    |(ds' & fn & p' & [= Hd <-] & -> & Hfn & Hs')]]].
    + (* a parenthesis inside the call *)
      replace (depth c - 1)%Z with d by lia.
      replace (d =? 0)%Z with false by (symmetry; apply Z.eqb_neq; lia).
      intros [= <-]. unfold well_formed. simpl.
      repeat split; [exact Hs' | constructor; assumption | exact Ho'].
    + (* the parenthesis of the call *)
      rewrite Hd. replace (1 - 1 =? 0)%Z with true by reflexivity.
      unfold is_function. rewrite Hfn. cbn [TokKind_eqb saw_expr].
      destruct (saw_expr c); [|discriminate].
      intros [= <-]. unfold well_formed. simpl.
      repeat split; [exact Hs' | exact Hc |].
      apply Forall_app. split; [exact Ho'|].
      constructor; [|constructor]. intros _. simpl. lia.
Qed.

Lemma retag_minus_kind st t :
  kind (retag_minus st t) = kind t \/ kind (retag_minus st t) = Neg.
Proof.
  unfold retag_minus. destruct (kind t) eqn:Ek; auto.
  destruct (expect_operand st); auto.
Qed.

Lemma well_formed_step st t st' :
  well_formed st -> step st t = Ok st' -> well_formed st'.
Proof.
  intros Hw. unfold step.
  destruct (kind t) eqn:Ek;
    try (destruct (is_operator (kind (retag_minus st t))) eqn:Eop;
         [intros [= <-]; apply well_formed_on_operator; assumption
         | destruct (kind (retag_minus st t)); discriminate]).
  - intros [= <-]. apply well_formed_on_operand; [congruence | exact Hw].
  - intros [= <-]. apply well_formed_on_lparen; assumption.
  - apply well_formed_on_rparen. exact Hw.
  - apply well_formed_on_comma. exact Hw.
Qed.

Lemma well_formed_loop toks : forall st st',
  well_formed st -> loop st toks = Ok st' -> well_formed st'.
Proof.
  induction toks as [| x | x y l IHl IHyl] using list_ind2; intros st st' Hw.
  - intros [= <-]. exact Hw.
  - destruct (ts_expr_facts.ts_loop_cases st x []) as
      [[_ ->]|[(_ & lp & r & [=] & _)|[(Hi & _ & ->)|(_ & _ & ->)]]].
    + intros [= <-]. exact Hw.
    + intros [= <-]. apply well_formed_on_operand; [congruence | exact Hw].
    + destruct (step st x) as [s1|] eqn:Es; [|discriminate].
      intros [= <-]. eapply well_formed_step; eauto.
  - destruct (ts_expr_facts.ts_loop_cases st x (y :: l)) as
      [[_ ->]|[(_ & lp & r & [= <- <-] & Hlp & ->)
              |[(Hi & _ & ->)|(_ & _ & ->)]]].
    + intros [= <-]. exact Hw.
    + apply IHl. apply well_formed_on_call; assumption.
    + apply IHyl. apply well_formed_on_operand; [congruence | exact Hw].
    + destruct (step st x) as [s1|] eqn:Es; [|discriminate].
      apply IHyl. eapply well_formed_step; eauto.
Qed.

Lemma drain_arity_ok ops : forall out r,
  Forall arity_ok out -> drain out ops = Ok r -> Forall arity_ok r.
Proof.
  induction ops as [|top ops IH]; intros out r Ho; simpl.
  - intros [= <-]. exact Ho.
  - destruct (kind top) eqn:Ek; try discriminate;
      (apply IH; apply Forall_app; split; [exact Ho|];
       constructor; [intros Hf; congruence | constructor]).
Qed.

(** Every function token [compile] emits has an arity of at least one. *)
Lemma compile_tokens_arity lex c :
  compile_tokens lex = Ok c -> Forall arity_ok (rpn c).
Proof.
  unfold compile_tokens. intros H.
  apply bind_Ok_inv in H as ([lhs lex1] & _ & H).
  destruct (kind lhs); try discriminate.
  apply bind_Ok_inv in H as ([eq lex2] & _ & H).
  destruct (kind eq); try discriminate.
  apply bind_Ok_inv in H as (st & Hst & H).
  destruct (snd lex2); [discriminate|].
  apply bind_Ok_inv in H as (out & Hd & [= <-]). simpl.
  apply (well_formed_loop _ _ _ well_formed_init) in Hst as (_ & _ & Ho).
  eapply drain_arity_ok; eauto.
Qed.



End arity_facts.

(** ** Empty argument lists (C2) *)

(** C2, as stated, fails on [tsexpr::compile]: [z = f()] compiles, to a
    [Call] of arity 0. *)
Lemma C2_counterexample :
  tsexpr.compile libc.strtod_dec "z = f()" = Ok [Call "f" 0; Store "z"] /\
  ~ is_parse_error (tsexpr.compile libc.strtod_dec "z = f()").
Proof.
  assert (tsexpr.compile libc.strtod_dec "z = f()" =
          Ok [Call "f" 0; Store "z"]) as H by (vm_compute; reflexivity).
  split; [exact H|]. rewrite H. apply not_parse_error_Ok.
Qed.

(** C2 (amended): [ts::expr::compile] fails with a parse error on every
    input whose expression holds an identifier directly followed by ['(']
    and [')'], whatever the function name and whatever surrounds the call;
    and every function token it does emit carries an arity of at least
    one; [tsexpr::compile] accepts the empty call for every function name
    and emits a [Call] instruction of arity 0. *)
Theorem C2_empty_call :
  (forall strtod input lhs eq pre f lp rp post tail,
      ts_expr.tokens strtod input =
        (lhs :: eq :: pre ++ f :: lp :: rp :: post, tail) ->
      ts_expr.kind f = Ident ->
      ts_expr.kind lp = LParen ->
      ts_expr.kind rp = RParen ->
      is_parse_error (ts_expr.compile strtod input)) /\
  (forall strtod input c,
      ts_expr.compile strtod input = Ok c ->
      Forall (fun t => ts_expr.kind t = Func -> (1 <= ts_expr.arity t)%Z)
             (ts_expr.rpn c)) /\
  (forall z f : string,
      tsexpr.compile_tokens
        ([ident z; tsexpr.tok Assign;
          ident f; tsexpr.tok LParen; tsexpr.tok RParen], None) =
      Ok [Call f 0; Store z]).
Proof.
  split.
  - intros strtod input lhs eq pre f lp rp post tail Htok Hf Hlp Hrp.
    unfold ts_expr.compile. rewrite Htok.
    apply ts_expr_facts.ts_compile_tokens_loop_fails.
    pose proof (lexer_facts.ts_tokens_no_End strtod input) as Hne.
    rewrite Htok in Hne. simpl in Hne.
    apply Forall_cons in Hne as [_ Hne]. apply Forall_cons in Hne as [_ Hne].
    apply Forall_app in Hne as [Hne _].
    apply ts_expr_facts.ts_loop_app_fails; [exact Hne | simpl; congruence |].
    intros st'. rewrite ts_expr_facts.empty_call_fails by assumption.
    eauto with parse.
  - split; [|intros z f; reflexivity].
    intros strtod input c Hc.
    exact (arity_facts.compile_tokens_arity _ _ Hc).
Qed.

Lemma C2_empty_call_witness :
  is_parse_error (ts_expr.compile libc.strtod_dec "z = 1 + f() * 2") /\
  Forall (fun t => ts_expr.kind t = Func -> (1 <= ts_expr.arity t)%Z)
    [conv (ident "a"); conv (ident "b");
     ts_expr.mkToken Func "sumproduct" 0%float 2].
Proof.
  split; [|exact (proj1 (proj2 C2_empty_call) libc.strtod_dec
                    "s = sumproduct(a, b)"
                    (ts_expr.mkCompiled "s"
                       [conv (ident "a"); conv (ident "b");
                        ts_expr.mkToken Func "sumproduct" 0%float 2])
                    eq_refl)].
  apply (proj1 C2_empty_call libc.strtod_dec "z = 1 + f() * 2"
           (ts_expr.mkToken Ident "z" 0%float 0) (ts_expr.tok Assign)
           [ts_expr.mkToken Number "" 1%float 0; ts_expr.tok Plus]
           (ts_expr.mkToken Ident "f" 0%float 0)
           (ts_expr.tok LParen) (ts_expr.tok RParen)
           [ts_expr.tok Star; ts_expr.mkToken Number "" 2%float 0]
           None);
    reflexivity.
Defined.

(** ** Tokens after a complete expression (C6) *)

(** C6, as stated, fails on both compilers: a second operand after a
    complete expression is accepted. *)
Lemma C6_counterexample :
  tsexpr.compile libc.strtod_dec "z = 1 2" =
    Ok [PushNum 1%float; PushNum 2%float; Store "z"] /\
  ts_expr.compile libc.strtod_dec "z = 1 2" =
    Ok (ts_expr.mkCompiled "z"
          [ts_expr.mkToken Number "" 1%float 0;
           ts_expr.mkToken Number "" 2%float 0]).
Proof. split; vm_compute; reflexivity. Qed.

(** C6 (amended): when a complete expression (a token sequence that
    compiles on its own) is followed by a [')'], a [','] or an ['='], both
    compilers fail with a parse error, whatever comes after that token. *)
Theorem C6_stray_token_rejected :
  forall strtod input lhs eq e t rest tail,
    tsexpr.tokens strtod input = (lhs :: eq :: e ++ t :: rest, tail) ->
    tsexpr.kind t = RParen \/ tsexpr.kind t = Comma \/
      tsexpr.kind t = Assign ->
    ((exists p, tsexpr.compile_tokens (lhs :: eq :: e, None) = Ok p) ->
     is_parse_error (tsexpr.compile strtod input)) /\
    ((exists c,
        ts_expr.compile_tokens (map conv (lhs :: eq :: e), None) = Ok c) ->
     is_parse_error (ts_expr.compile strtod input)).
Proof.
  intros strtod input lhs eq e t rest tail Htok Hk.
  pose proof (lexer_facts.tokens_no_End strtod input) as Hne.
  rewrite Htok in Hne. simpl in Hne.
  apply Forall_cons in Hne as [_ Hne]. apply Forall_cons in Hne as [_ Hne].
  apply Forall_app in Hne as [Hne _].
  split.
  - intros [p Hp]. unfold tsexpr.compile. rewrite Htok.
    destruct e as [|first e'].
    { exfalso. unfold tsexpr.compile_tokens in Hp. cbn in Hp.
      destruct (tsexpr.kind lhs); try discriminate.
      cbn in Hp. destruct (tsexpr.kind eq); discriminate. }
    simpl app. apply tsexpr_facts.compile_tokens_loop_fails.
    rewrite tsexpr_facts.compile_tokens_cons3 in Hp.
    destruct (tsexpr.kind lhs); try discriminate.
    destruct (tsexpr.kind eq); try discriminate.
    assert (exists rpn, tsexpr.to_rpn (e', None) first = Ok rpn) as [rpn Hr].
    { destruct (tsexpr.kind first); try discriminate;
        destruct (tsexpr.to_rpn (e', None) first); try discriminate; eauto. }
    unfold tsexpr.to_rpn in Hr. cbn [fst snd] in Hr.
    apply bind_Ok_inv in Hr as (st & Hst & Hr).
    apply bind_Ok_inv in Hr as (out & Hout & _).
    change (first :: e' ++ t :: rest) with ((first :: e') ++ t :: rest).
    rewrite tsexpr_facts.loop_app;
      [| exact Hne | destruct Hk as [Hk|[Hk|Hk]]; simpl; congruence].
    rewrite Hst. cbn [bind].
    eapply tsexpr_facts.stray_token_fails; eauto.
  - intros [c Hc]. unfold ts_expr.compile.
    rewrite lexer_facts.tokens_conv, Htok. cbn [fst snd map].
    cbn [map] in Hc. apply ts_expr_facts.ts_compile_tokens_loop_fails.
    rewrite ts_expr_facts.compile_tokens_cons2 in Hc.
    destruct (ts_expr.kind (conv lhs)); try discriminate.
    destruct (ts_expr.kind (conv eq)); try discriminate.
    apply bind_Ok_inv in Hc as (st & Hst & Hc).
    apply bind_Ok_inv in Hc as (out & Hout & _).
    rewrite map_app. cbn [map].
    rewrite ts_expr_facts.ts_loop_app.
    + rewrite Hst. cbn [bind].
      eapply ts_expr_facts.ts_stray_token_fails; [exact Hout|].
      destruct Hk as [Hk|[Hk|Hk]]; simpl; auto.
    + apply Forall_map. exact Hne.
    + destruct Hk as [Hk|[Hk|Hk]]; simpl; congruence.
Qed.

Lemma C6_stray_token_rejected_witness :
  is_parse_error (tsexpr.compile libc.strtod_dec "z = a + 1 ) * 2") /\
  is_parse_error (ts_expr.compile libc.strtod_dec "z = a + 1 ) * 2").
Proof.
  pose proof (C6_stray_token_rejected libc.strtod_dec "z = a + 1 ) * 2"
                (ident "z") (tsexpr.tok Assign)
                [ident "a"; tsexpr.tok Plus; num 1%float]
                (tsexpr.tok RParen)
                [tsexpr.tok Star; num 2%float] None
                eq_refl (or_introl eq_refl)) as [H1 H2].
  split.
  - apply H1. eexists. vm_compute. reflexivity.
  - apply H2. eexists. vm_compute. reflexivity.
Defined.

(** ** Back-tick-quoted identifiers (C9) *)

Module backtick_facts.

Lemma skip_ws_spaces (ws r : string) (c : ascii) :
  all_space ws = true -> libc.isspace c = false ->
  scan.skip_ws (ws +:+ String c r) = String c r.
Proof.
  intros Hws Hc. induction ws as [|w ws IH]; simpl.
  - rewrite Hc. reflexivity.
  - simpl in Hws. apply andb_prop in Hws as [Hw Hws].
    rewrite Hw. apply IH. exact Hws.
Qed.

Lemma backtick_closed (content rest : string) :
  no_backtick content = true ->
  scan.backtick (content +:+ String "`" rest) = Some (content, rest).
Proof.
  intros H. induction content as [|c content IH]; simpl; [reflexivity|].
  simpl in H. apply andb_prop in H as [Hc H].
  apply negb_true_iff in Hc. rewrite Hc. rewrite (IH H). reflexivity.
Qed.

Lemma backtick_open (content : string) :
  no_backtick content = true -> scan.backtick content = None.
Proof.
  intros H. induction content as [|c content IH]; simpl; [reflexivity|].
  simpl in H. apply andb_prop in H as [Hc H].
  apply negb_true_iff in Hc. rewrite Hc. rewrite (IH H). reflexivity.
Qed.

Lemma next_quoted strtod (ws content rest : string) :
  all_space ws = true -> no_backtick content = true ->
  tsexpr.next strtod (ws +:+ String "`" (content +:+ String "`" rest)) =
  Ok (tsexpr.mkToken Ident content 0%float, rest).
Proof.
  intros Hws Hc. unfold tsexpr.next.
  rewrite skip_ws_spaces by (assumption || reflexivity).
  cbn [single_char]. simpl. rewrite backtick_closed by assumption. reflexivity.
Qed.

Lemma next_unterminated strtod (ws content : string) :
  all_space ws = true -> no_backtick content = true ->
  tsexpr.next strtod (ws +:+ String "`" content) =
  Err (ParseError "Unterminated backtick identifier").
Proof.
  intros Hws Hc. unfold tsexpr.next.
  rewrite skip_ws_spaces by (assumption || reflexivity).
  simpl. rewrite backtick_open by assumption. reflexivity.
Qed.

End backtick_facts.

(** C9: in both lexers, after optional white space, a back-tick, any text
    without a back-tick and a closing back-tick give one identifier token
    whose text is exactly the text in between (spaces, symbols and digits
    included, nothing unescaped or dropped), and reading resumes right
    after the closing back-tick; when no closing back-tick follows before
    the end of the input the lexer throws a parse error; so on every input
    in which the lexer reaches such an unclosed back-tick, tokenization
    ends in that parse error and both compilers fail with a parse error. *)
Theorem C9_backtick_identifier :
  forall strtod (ws content rest : string),
    all_space ws = true ->
    no_backtick content = true ->
    tsexpr.next strtod (ws +:+ String "`" (content +:+ String "`" rest)) =
      Ok (tsexpr.mkToken Ident content 0%float, rest) /\
    ts_expr.next_impl strtod
        (ws +:+ String "`" (content +:+ String "`" rest)) =
      Ok (ts_expr.mkToken Ident content 0%float 0, rest) /\
    tsexpr.next strtod (ws +:+ String "`" content) =
      Err (ParseError "Unterminated backtick identifier") /\
    ts_expr.next_impl strtod (ws +:+ String "`" content) =
      Err (ParseError "Unterminated backtick identifier") /\
    (forall input,
        reaches strtod input (ws +:+ String "`" content) ->
        snd (tsexpr.tokens strtod input) =
          Some (ParseError "Unterminated backtick identifier") /\
        snd (ts_expr.tokens strtod input) =
          Some (ParseError "Unterminated backtick identifier") /\
        is_parse_error (tsexpr.compile strtod input) /\
        is_parse_error (ts_expr.compile strtod input)).
Proof.
  intros strtod ws content rest Hws Hc.
  pose proof (backtick_facts.next_quoted strtod ws content rest Hws Hc) as H1.
  pose proof (backtick_facts.next_unterminated strtod ws content Hws Hc) as H2.
  assert (tsexpr.tokens strtod (ws +:+ String "`" content) =
          ([], Some (ParseError "Unterminated backtick identifier"))) as H3.
  { rewrite lexer_facts.tokens_unfold, H2. reflexivity. }
  split; [exact H1|].
  split; [rewrite lexer_facts.next_impl_next, H1; reflexivity|].
  split; [exact H2|].
  split; [rewrite lexer_facts.next_impl_next, H2; reflexivity|].
  intros input Hr.
  pose proof (lexer_facts.tokens_reaches _ _ _ Hr) as Ht. rewrite H3 in Ht.
  cbn [snd] in Ht.
  split; [exact Ht|].
  split; [rewrite lexer_facts.tokens_conv; exact Ht|].
  split.
  - unfold tsexpr.compile.
    destruct (tsexpr.tokens strtod input) as [toks tail].
    cbn [snd] in Ht. subst tail.
    apply tsexpr_facts.tsexpr_compile_tokens_lexer_fails.
  - unfold ts_expr.compile. rewrite lexer_facts.tokens_conv, Ht.
    apply ts_expr_facts.compile_tokens_lexer_fails.
Qed.

Lemma C9_backtick_identifier_witness :
  tsexpr.next libc.strtod_dec "  `total return (%)` + carry" =
    Ok (tsexpr.mkToken Ident "total return (%)" 0%float, " + carry") /\
  snd (tsexpr.tokens libc.strtod_dec "z = 2 * `total return") =
    Some (ParseError "Unterminated backtick identifier") /\
  is_parse_error (ts_expr.compile libc.strtod_dec "z = 2 * `total return").
Proof.
  pose proof (C9_backtick_identifier libc.strtod_dec "  " "total return (%)"
                " + carry" eq_refl eq_refl) as (H1 & _).
  pose proof (C9_backtick_identifier libc.strtod_dec " " "total return"
                "" eq_refl eq_refl) as (_ & _ & _ & _ & H5).
  split; [exact H1|].
  assert (reaches libc.strtod_dec "z = 2 * `total return" " `total return")
    as Hr.
  { eapply reaches_next; [reflexivity | discriminate |].
    eapply reaches_next; [reflexivity | discriminate |].
    eapply reaches_next; [reflexivity | discriminate |].
    eapply reaches_next; [reflexivity | discriminate |].
    apply reaches_here. }
  destruct (H5 _ Hr) as (Ha & _ & _ & Hd).
  split; [exact Ha | exact Hd].
Defined.

(** ** Precedence and associativity (C4) *)

Module precedence_facts.





End precedence_facts.


(** ** Unary and binary minus (C5) *)

Module minus_facts.

Lemma operand_position_snoc (ks : list TokKind) (k : TokKind) :
  operand_position (ks ++ [k]) = position_kind k.
Proof. unfold operand_position. rewrite last_snoc. reflexivity. Qed.

Lemma operand_position_cons2 (k1 k2 : TokKind) (ks : list TokKind) :
  operand_position (k1 :: k2 :: ks) = operand_position (k2 :: ks).
Proof. reflexivity. Qed.

Lemma tsexpr_on_operator_flag st t :
  tsexpr.expect_operand (tsexpr.on_operator st t) = true.
Proof.
  unfold tsexpr.on_operator.
  destruct (tsexpr.pop_operators _ _ _); reflexivity.
Qed.

Lemma ts_expr_on_operator_flag st t :
  ts_expr.expect_operand (ts_expr.on_operator st t) = true.
Proof.
  unfold ts_expr.on_operator.
  destruct (ts_expr.pop_operators _ _ _); reflexivity.
Qed.

Lemma tsexpr_on_rparen_flag st st' :
  tsexpr.on_rparen st = Ok st' -> tsexpr.expect_operand st' = false.
Proof.
  unfold tsexpr.on_rparen.
  destruct (tsexpr.pop_to_lparen (tsexpr.output st) (tsexpr.opstack st))
    as [out ops].
  destruct ops as [|lp ops1]; [discriminate|].
  destruct ops1 as [|fn ops2]; [intros [= <-]; reflexivity|].
  destruct (tsexpr.kind fn); try (intros [= <-]; reflexivity).
  destruct (tsexpr.fnstack st); [discriminate | intros [= <-]; reflexivity].
Qed.

Lemma tsexpr_on_comma_flag st st' :
  tsexpr.on_comma st = Ok st' -> tsexpr.expect_operand st' = true.
Proof.
  unfold tsexpr.on_comma.
  destruct (tsexpr.pop_to_lparen (tsexpr.output st) (tsexpr.opstack st))
    as [out ops].
  destruct ops; [discriminate|].
  destruct (tsexpr.fnstack st); [discriminate | intros [= <-]; reflexivity].
Qed.

Lemma ts_expr_on_rparen_flag st st' :
  ts_expr.on_rparen st = Ok st' -> ts_expr.expect_operand st' = false.
Proof.
  unfold ts_expr.on_rparen.
  destruct (ts_expr.func_stack st) as [|c fs]; cbn [bind].
  - destruct (ts_expr.pop_through_lparen _ _) as [[out ops]|];
      [intros [= <-]; reflexivity | discriminate].
  - destruct (ts_expr.depth c - 1 <? 0)%Z; cbn [bind]; [discriminate|].
    destruct (ts_expr.pop_through_lparen _ _) as [[out ops]|];
      [|discriminate].
    destruct (ts_expr.depth c - 1 =? 0)%Z; [|intros [= <-]; reflexivity].
    destruct ops as [|fn ops]; [discriminate|].
    destruct (ts_expr.is_function (ts_expr.kind fn)); [|discriminate].
    cbn [ts_expr.saw_expr].
    destruct (ts_expr.saw_expr c); [intros [= <-]; reflexivity | discriminate].
Qed.

Lemma ts_expr_on_comma_flag st st' :
  ts_expr.on_comma st = Ok st' -> ts_expr.expect_operand st' = true.
Proof.
  unfold ts_expr.on_comma.
  destruct (ts_expr.func_stack st) as [|c fs]; [discriminate|].
  destruct (negb (ts_expr.depth c =? 1)%Z); [discriminate|].
  destruct (ts_expr.pop_to_lparen _ _) as [out ops].
  destruct ops; [discriminate | intros [= <-]; reflexivity].
Qed.

(** The flag after one turn of the loop. *)
Lemma tsexpr_step_flag st t st' :
  tsexpr.step st t = Ok st' ->
  tsexpr.expect_operand st' = position_kind (tsexpr.kind t).
Proof.
  unfold tsexpr.step, tsexpr.retag_minus.
  destruct (tsexpr.kind t) eqn:Ek; rewrite ?Ek;
    try (destruct (tsexpr.expect_operand st));
    cbn [tsexpr.is_op tsexpr.kind position_kind]; rewrite ?Ek;
    try discriminate;
    try apply tsexpr_on_rparen_flag; try apply tsexpr_on_comma_flag;
    intros [= <-]; (reflexivity || apply tsexpr_on_operator_flag).
Qed.

Lemma ts_expr_step_flag st t st' :
  ts_expr.step st t = Ok st' ->
  ts_expr.expect_operand st' = position_kind (ts_expr.kind t).
Proof.
  unfold ts_expr.step, ts_expr.retag_minus.
  destruct (ts_expr.kind t) eqn:Ek; rewrite ?Ek;
    try (destruct (ts_expr.expect_operand st));
    cbn [ts_expr.is_operator ts_expr.kind position_kind]; rewrite ?Ek;
    try discriminate;
    try apply ts_expr_on_rparen_flag; try apply ts_expr_on_comma_flag;
    intros [= <-]; (reflexivity || apply ts_expr_on_operator_flag).
Qed.

Lemma last_cons_default {A B : Type} (f : A -> B) (a b : B) (y : A) l :
  match last (y :: l) with Some t => f t | None => a end =
  match last (y :: l) with Some t => f t | None => b end.
Proof.
  destruct (last (y :: l)) eqn:El; [reflexivity|].
  apply last_None in El. discriminate.
Qed.

(** The flag after the loop has consumed a token sequence is read off the
    kind of the last token. *)
Lemma tsexpr_loop_flag toks : forall st st',
  no_End toks ->
  tsexpr.loop st toks = Ok st' ->
  tsexpr.expect_operand st' =
  match last toks with
  | None => tsexpr.expect_operand st
  | Some t => position_kind (tsexpr.kind t)
  end.
Proof.
  induction toks as [| x | x y l IHl IHyl] using list_ind2;
    intros st st' Hne.
  - intros [= <-]. reflexivity.
  - apply Forall_cons in Hne as [Hx _]. cbn [last].
    destruct (tsexpr_facts.loop_cases st x []) as
      [[? _]|[(_ & lp & r & [=] & _)|[(Hi & _ & ->)|(_ & _ & ->)]]];
      [congruence | |].
    + intros [= <-]. rewrite Hi. reflexivity.
    + destruct (tsexpr.step st x) as [s1|] eqn:Es; [|discriminate].
      intros [= <-]. eapply tsexpr_step_flag; eauto.
  - apply Forall_cons in Hne as [Hx Hne]. pose proof Hne as Hyl.
    apply Forall_cons in Hne as [Hy Hne].
    change (last (x :: y :: l)) with (last (y :: l)).
    destruct (tsexpr_facts.loop_cases st x (y :: l)) as
      [[? _]|[(_ & lp & r & [= <- <-] & Hlp & ->)|[(_ & _ & ->)|(_ & _ & ->)]]];
      [congruence | | |].
    + intros H. rewrite (IHl _ _ Hne H).
      destruct l as [|z l]; [cbn [last]; rewrite Hlp; reflexivity|].
      change (last (y :: z :: l)) with (last (z :: l)).
      apply last_cons_default.
    + intros H. rewrite (IHyl _ _ Hyl H). apply last_cons_default.
    + destruct (tsexpr.step st x) as [s1|] eqn:Es; [|discriminate].
      intros H. rewrite (IHyl _ _ Hyl H). apply last_cons_default.
Qed.

Lemma ts_expr_loop_flag toks : forall st st',
  no_End_ts toks ->
  ts_expr.loop st toks = Ok st' ->
  ts_expr.expect_operand st' =
  match last toks with
  | None => ts_expr.expect_operand st
  | Some t => position_kind (ts_expr.kind t)
  end.
Proof.
  induction toks as [| x | x y l IHl IHyl] using list_ind2;
    intros st st' Hne.
  - intros [= <-]. reflexivity.
  - apply Forall_cons in Hne as [Hx _]. cbn [last].
    destruct (ts_expr_facts.ts_loop_cases st x []) as
      [[? _]|[(_ & lp & r & [=] & _)|[(Hi & _ & ->)|(_ & _ & ->)]]];
      [congruence | |].
    + intros [= <-]. rewrite Hi. reflexivity.
    + destruct (ts_expr.step st x) as [s1|] eqn:Es; [|discriminate].
      intros [= <-]. eapply ts_expr_step_flag; eauto.
  - apply Forall_cons in Hne as [Hx Hne]. pose proof Hne as Hyl.
    apply Forall_cons in Hne as [Hy Hne].
    change (last (x :: y :: l)) with (last (y :: l)).
    destruct (ts_expr_facts.ts_loop_cases st x (y :: l)) as
      [[? _]|[(_ & lp & r & [= <- <-] & Hlp & ->)|[(_ & _ & ->)|(_ & _ & ->)]]];
      [congruence | | |].
    + intros H. rewrite (IHl _ _ Hne H).
      destruct l as [|z l]; [cbn [last]; rewrite Hlp; reflexivity|].
      change (last (y :: z :: l)) with (last (z :: l)).
      apply last_cons_default.
    + intros H. rewrite (IHyl _ _ Hyl H). apply last_cons_default.
    + destruct (ts_expr.step st x) as [s1|] eqn:Es; [|discriminate].
      intros H. rewrite (IHyl _ _ Hyl H). apply last_cons_default.
Qed.

Lemma last_map {A B : Type} (f : A -> B) (l : list A) :
  last (map f l) = option_map f (last l).
Proof.
  induction l as [| x | x y l _ IH] using list_ind2; try reflexivity.
  exact IH.
Qed.

Lemma tsexpr_flag pre st :
  no_End pre -> tsexpr.loop tsexpr.rpn_init pre = Ok st ->
  tsexpr.expect_operand st = operand_position (map tsexpr.kind pre).
Proof.
  intros Hne H. rewrite (tsexpr_loop_flag _ _ _ Hne H).
  unfold operand_position. rewrite last_map.
  destruct (last pre) as [t|]; [|reflexivity].
  simpl. destruct (tsexpr.kind t); reflexivity.
Qed.

Lemma ts_expr_flag pre st :
  no_End_ts pre -> ts_expr.loop ts_expr.init pre = Ok st ->
  ts_expr.expect_operand st = operand_position (map ts_expr.kind pre).
Proof.
  intros Hne H. rewrite (ts_expr_loop_flag _ _ _ Hne H).
  unfold operand_position. rewrite last_map.
  destruct (last pre) as [t|]; [|reflexivity].
  simpl. destruct (ts_expr.kind t); reflexivity.
Qed.

End minus_facts.

(** C5: in both parsers, once the tokens [pre] of an expression have been
    consumed, a following minus token is handled as the operator whose kind
    is [Neg] when [pre] is empty or ends with an operator, an open
    parenthesis or a comma, and as the binary [Minus] otherwise; and
    [z = a * -b] with a = [1,2,3], b = [10,20,30] stores [-10,-40,-90]. *)
Theorem C5_minus_disambiguation :
  (forall (pre : list tsexpr.Token) (m : tsexpr.Token)
          (rest : list tsexpr.Token) (st : tsexpr.RpnState),
      no_End pre ->
      tsexpr.kind m = Minus ->
      tsexpr.loop tsexpr.rpn_init pre = Ok st ->
      tsexpr.expect_operand st = operand_position (map tsexpr.kind pre) /\
      tsexpr.loop tsexpr.rpn_init (pre ++ m :: rest) =
      tsexpr.loop
        (tsexpr.on_operator st
           (tsexpr.mkToken
              (if operand_position (map tsexpr.kind pre) then Neg else Minus)
              (tsexpr.text m) (tsexpr.number m)))
        rest) /\
  (forall (pre : list ts_expr.Token) (m : ts_expr.Token)
          (rest : list ts_expr.Token) (st : ts_expr.State),
      no_End_ts pre ->
      ts_expr.kind m = Minus ->
      ts_expr.loop ts_expr.init pre = Ok st ->
      ts_expr.expect_operand st = operand_position (map ts_expr.kind pre) /\
      ts_expr.loop ts_expr.init (pre ++ m :: rest) =
      ts_expr.loop
        (ts_expr.on_operator st
           (ts_expr.mkToken
              (if operand_position (map ts_expr.kind pre) then Neg else Minus)
              (ts_expr.text m) (ts_expr.number m) (ts_expr.arity m)))
        rest) /\
  tsexpr.compile libc.strtod_dec "z = a * -b" =
    Ok [PushVar "a"; PushVar "b"; Arith tsexpr.OpNeg; Arith tsexpr.Mul;
        Store "z"] /\
  tsexpr.compile libc.strtod_dec "z = a - b" =
    Ok [PushVar "a"; PushVar "b"; Arith tsexpr.Sub; Store "z"] /\
  tsexpr.compile_and_execute toy.Backend libc.strtod_dec
      "z = a * -b" toy_vars =
    (<["z" := series [-10; -40; -90]%float]> toy_vars, None) /\
  ts_expr.execute_assignment libc.strtod_dec "z = a * -b" ts_env =
    (<["z" := ts_expr.mkTimeSeries [-10; -40; -90]%float]> ts_env, None).
Proof.
  split; [|split].
  - intros pre m rest st Hne Hm Hst.
    pose proof (minus_facts.tsexpr_flag pre st Hne Hst) as Hflag.
    split; [exact Hflag|].
    rewrite tsexpr_facts.loop_app by (assumption || (simpl; congruence)).
    rewrite Hst. cbn [bind tsexpr.loop]. rewrite Hm.
    unfold tsexpr.step, tsexpr.retag_minus. rewrite Hm, Hflag.
    destruct (operand_position (map tsexpr.kind pre)); cbn [tsexpr.kind tsexpr.is_op].
    + reflexivity.
    + rewrite Hm. destruct m as [k tx nb]. simpl in Hm. subst k. reflexivity.
  - intros pre m rest st Hne Hm Hst.
    pose proof (minus_facts.ts_expr_flag pre st Hne Hst) as Hflag.
    split; [exact Hflag|].
    rewrite ts_expr_facts.ts_loop_app by (assumption || (simpl; congruence)).
    rewrite Hst. cbn [bind ts_expr.loop]. rewrite Hm.
    unfold ts_expr.step, ts_expr.retag_minus. rewrite Hm, Hflag.
    destruct (operand_position (map ts_expr.kind pre));
      cbn [ts_expr.kind ts_expr.is_operator].
    + reflexivity.
    + rewrite Hm. destruct m as [k tx nb ar]. simpl in Hm. subst k. reflexivity.
  - repeat split; vm_compute; reflexivity.
Qed.

Lemma C5_minus_disambiguation_witness :
  tsexpr.loop tsexpr.rpn_init
    ([ident "a"; tsexpr.tok Star] ++ tsexpr.tok Minus :: [ident "b"]) =
  tsexpr.loop
    (tsexpr.on_operator
       (tsexpr.mkRpnState [ident "a"] [tsexpr.tok Star] true [])
       (tsexpr.tok Neg))
    [ident "b"] /\
  ts_expr.loop ts_expr.init
    ([conv (ident "a")] ++ ts_expr.tok Minus :: [conv (ident "b")]) =
  ts_expr.loop
    (ts_expr.on_operator
       (ts_expr.mkState [conv (ident "a")] [] [] false)
       (ts_expr.tok Minus))
    [conv (ident "b")].
Proof.
  split.
  - refine (proj2 (proj1 C5_minus_disambiguation
             [ident "a"; tsexpr.tok Star] (tsexpr.tok Minus) [ident "b"]
             (tsexpr.mkRpnState [ident "a"] [tsexpr.tok Star] true [])
             _ eq_refl eq_refl)).
    repeat constructor; discriminate.
  - refine (proj2 (proj1 (proj2 C5_minus_disambiguation)
             [conv (ident "a")] (ts_expr.tok Minus) [conv (ident "b")]
             (ts_expr.mkState [conv (ident "a")] [] [] false)
             _ eq_refl eq_refl)).
    repeat constructor; discriminate.
Defined.

(** ** Failure leaves the variable store as it was (C8) *)

Module store_facts.

Import tsexpr.

Lemma lower_not_store t i : lower t = Ok i -> not_store i.
Proof.
  unfold lower, not_store.
  destruct (kind t); intros [= <-]; discriminate.
Qed.

Lemma lower_all_not_store rpn : forall code,
  lower_all rpn = Ok code -> Forall not_store code.
Proof.
  induction rpn as [|t rpn IH]; intros code; simpl.
  - intros [= <-]. constructor.
  - intros H. apply bind_Ok_inv in H as (i & Hi & H).
    apply bind_Ok_inv in H as (code' & Hc & [= <-]).
    constructor; [eapply lower_not_store; eauto | auto].
Qed.

(** What [compile] returns: lowered postfix tokens, then the one
    [Store]. *)
Lemma compile_tokens_shape lex p :
  compile_tokens lex = Ok p ->
  exists code target,
    p = code ++ [mkInstr Store target 0%float 0] /\ Forall not_store code.
Proof.
  unfold compile_tokens. intros H.
  apply bind_Ok_inv in H as ([lhs lex1] & _ & H).
  destruct (kind lhs); try discriminate.
  apply bind_Ok_inv in H as ([eq lex2] & _ & H).
  destruct (kind eq); try discriminate.
  apply bind_Ok_inv in H as ([first lex3] & _ & H).
  assert (exists rpn code, lower_all rpn = Ok code /\
            p = code ++ [mkInstr Store (text lhs) 0%float 0])
    as (rpn & code & Hl & ->).
  { destruct (kind first); try discriminate;
      apply bind_Ok_inv in H as (rpn & _ & H);
      apply bind_Ok_inv in H as (code & Hl & [= <-]); eauto. }
  exists code, (text lhs). split; [reflexivity|].
  eapply lower_all_not_store; eauto.
Qed.

Section WithBackend.

Context {S V : Type} (be : Backend S V).

(** Only [Store] changes the backend. *)
Lemma exec_instr_state s st ins s' st' :
  not_store ins -> exec_instr be s st ins = Ok (s', st') -> s' = s.
Proof.
  unfold not_store, exec_instr. intros Hns.
  destruct (op ins); try congruence;
    try (destruct (iargc ins <? 0)%Z; [discriminate|];
         destruct (Z.of_nat (length st) <? iargc ins)%Z; [discriminate|]);
    intros H;
    repeat (let x := fresh "x" in
            apply bind_Ok_inv in H as (x & _ & H));
    congruence.
Qed.

Lemma run_state code : forall s st s' st' e,
  Forall not_store code -> run be code s st = (s', st', e) -> s' = s.
Proof.
  induction code as [|ins code IH]; intros s st s' st' e Hns; simpl.
  - intros [= <- _ _]. reflexivity.
  - apply Forall_cons in Hns as [Hi Hns].
    destruct (exec_instr be s st ins) as [[s1 st1]|e1] eqn:E.
    + intros H. apply (IH _ _ _ _ _ Hns) in H.
      apply (exec_instr_state _ _ _ _ _ Hi) in E. congruence.
    + intros [= <- _ _]. reflexivity.
Qed.

(** A run of a compiled program that ends in an exception has not
    stored. *)
Lemma execute_fails_state code target s s' e :
  Forall not_store code ->
  execute be (code ++ [mkInstr Store target 0%float 0]) s = (s', Some e) ->
  s' = s.
Proof.
  intros Hns. unfold execute.
  destruct (run be code s []) as [[s1 st1] [e1|]] eqn:Er.
  - rewrite (executor_facts.run_app_fail be _ _ _ _ _ _ _ Er).
    intros [= <- _]. eapply run_state; eauto.
  - rewrite (executor_facts.run_app be _ _ _ _ _ _ Er).
    apply (run_state _ _ _ _ _ _ Hns) in Er. subst s1.
    simpl. unfold exec_instr. simpl.
    destruct st1 as [|x st1]; simpl.
    + intros [= <- _]. reflexivity.
    + discriminate.
Qed.

Lemma compile_and_execute_fails strtod input s s' e :
  compile_and_execute be strtod input s = (s', Some e) -> s' = s.
Proof.
  unfold compile_and_execute, compile.
  destruct (compile_tokens (tokens strtod input)) as [p|e'] eqn:Ec.
  - apply compile_tokens_shape in Ec as (code & target & -> & Hns).
    apply execute_fails_state. exact Hns.
  - intros [= <- _]. reflexivity.
Qed.

End WithBackend.

End store_facts.

(** C8: a failing run leaves the variable store untouched.  For every
    backend, when [compile] followed by [Program::execute] ends in an
    exception (of the parser or of the executor) the backend is as it was
    before, and a backend that records the calls of [store_var] has
    recorded none; [compile] itself has no access to a backend; and
    [execute_assignment] of the other namespace leaves its environment as
    it was whenever it throws. *)
Theorem C8_failure_leaves_store_untouched :
  (forall (S V : Type) (be : tsexpr.Backend S V) strtod input (s : S),
      snd (tsexpr.compile_and_execute be strtod input s) <> None ->
      fst (tsexpr.compile_and_execute be strtod input s) = s) /\
  (forall (S V : Type) (be : tsexpr.Backend S V) strtod input (s : S)
          (log : list (string * V)),
      snd (tsexpr.compile_and_execute (logged be) strtod input (s, log))
        <> None ->
      snd (fst (tsexpr.compile_and_execute (logged be) strtod input (s, log)))
        = log) /\
  (forall strtod input (env : gmap string ts_expr.TimeSeries),
      snd (ts_expr.execute_assignment strtod input env) <> None ->
      fst (ts_expr.execute_assignment strtod input env) = env).
Proof.
  assert (forall (S V : Type) (be : tsexpr.Backend S V) strtod input (s : S),
      snd (tsexpr.compile_and_execute be strtod input s) <> None ->
      fst (tsexpr.compile_and_execute be strtod input s) = s) as H.
  { intros S V be strtod input s.
    destruct (tsexpr.compile_and_execute be strtod input s) as [s' [e|]] eqn:E;
      simpl; [|congruence].
    intros _. eapply store_facts.compile_and_execute_fails; eauto. }
  split; [exact H|]. split.
  - intros S V be strtod input s log Hf.
    rewrite (H _ _ (logged be) strtod input (s, log) Hf). reflexivity.
  - intros strtod input env. unfold ts_expr.execute_assignment.
    destruct (ts_expr.compile strtod input) as [c|e]; [|reflexivity].
    destruct (ts_expr.eval_rpn (ts_expr.rpn c) env) as [[t|x]|e];
      simpl; congruence.
Qed.

Lemma C8_failure_leaves_store_untouched_witness :
  fst (tsexpr.compile_and_execute toy.Backend libc.strtod_dec
         "z = a + missing" toy_vars) = toy_vars /\
  fst (tsexpr.compile_and_execute toy.Backend libc.strtod_dec
         "z = (a + 2" toy_vars) = toy_vars /\
  snd (fst (tsexpr.compile_and_execute (logged toy.Backend) libc.strtod_dec
         "z = a + missing" (toy_vars, []))) = [] /\
  fst (ts_expr.execute_assignment libc.strtod_dec "z = a + missing" ts_env)
    = ts_env.
Proof.
  destruct C8_failure_leaves_store_untouched as (H1 & H2 & H3).
  split; [|split; [|split]].
  - apply H1. vm_compute. discriminate.
  - apply H1. vm_compute. discriminate.
  - apply H2. vm_compute. discriminate.
  - apply H3. vm_compute. discriminate.
Defined.

(** ** Commas and arities in [ts::expr::compile] (C3) *)

Module call_facts.

Import ts_expr.

Section InCall.

(** The ['('] of the call, its function marker and the stack under them;
    the frames under the frame of the call. *)
Variables (lp mf : Token) (ops0 : list Token) (fs0 : list FuncCtx).
Hypothesis Hlp : kind lp = LParen.

Let base := lp :: mf :: ops0.

Lemma pop_operators_above cur above : forall out,
  exists o above',
    pop_operators cur out (above ++ base) = (o, above' ++ base) /\
    count_lparen above' = count_lparen above.
Proof.
  induction above as [|t above IH]; intros out.
  - exists out, []. simpl. rewrite Hlp. simpl. auto.
  - simpl. destruct (is_operator (kind t)) eqn:Eop; simpl.
    + destruct (pop_it (kind t) cur).
      * destruct (IH (out ++ [t])) as (o & above' & -> & Hc).
        exists o, above'. split; [reflexivity|].
        rewrite Hc. destruct (kind t); try discriminate; reflexivity.
      * exists out, (t :: above). auto.
    + exists out, (t :: above). auto.
Qed.

Lemma pop_to_lparen_above above : forall out,
  exists o above',
    pop_to_lparen out (above ++ base) = (o, above' ++ base) /\
    count_lparen above' = count_lparen above.
Proof.
  induction above as [|t above IH]; intros out.
  - exists out, []. simpl. rewrite Hlp. auto.
  - simpl. destruct (kind t) eqn:Ek;
      try (destruct (IH (out ++ [t])) as (o & above' & -> & Hc);
           exists o, above'; split; [reflexivity | exact Hc]).
    exists out, (t :: above). simpl. rewrite Ek. auto.
Qed.

Lemma pop_through_lparen_above above : forall out m,
  count_lparen above = S m ->
  exists o above',
    pop_through_lparen out (above ++ base) = Some (o, above' ++ base) /\
    count_lparen above' = m.
Proof.
  induction above as [|t above IH]; intros out m; simpl; [discriminate|].
  destruct (kind t) eqn:Ek; try apply IH.
  intros [= <-]. exists out, above. auto.
Qed.

Lemma pop_through_lparen_flat above : forall out,
  count_lparen above = 0 ->
  pop_through_lparen out (above ++ base) = Some (out ++ above, mf :: ops0).
Proof.
  induction above as [|t above IH]; intros out; simpl.
  - intros _. rewrite Hlp, app_nil_r. reflexivity.
  - destruct (kind t) eqn:Ek; try discriminate;
      (intros H; rewrite (IH _ H), <- app_assoc; reflexivity).
Qed.

(** The frame on top, whether of a nested call or of the call itself. *)
Lemma top_frame inner cf :
  exists c rest, inner ++ cf :: fs0 = c :: rest.
Proof. destruct inner as [|c inner]; simpl; eauto. Qed.

Lemma depth_sum_cons c inner :
  depth_sum (c :: inner) = (depth c + depth_sum inner)%Z.
Proof. reflexivity. Qed.

Lemma depth_sum_nonneg inner :
  Forall (fun c => (1 <= depth c)%Z) inner -> (0 <= depth_sum inner)%Z.
Proof.
  induction 1 as [|c inner Hc _ IH]; [simpl; lia|].
  rewrite depth_sum_cons. lia.
Qed.

(** At the argument-list level of the call no nested call is open and
    the frame of the call is at depth 1; and conversely. *)
Lemma level_zero inner cf d :
  (depth cf - 1 + depth_sum inner = Z.of_nat d)%Z ->
  (1 <= depth cf)%Z ->
  Forall (fun c => (1 <= depth c)%Z) inner ->
  (d = 0 <-> inner = [] /\ depth cf = 1%Z).
Proof.
  intros Hsum Hcf Hin. pose proof (depth_sum_nonneg _ Hin) as Hnn. split.
  - intros ->. destruct inner as [|c inner].
    + split; [reflexivity|]. simpl in Hsum. lia.
    + apply Forall_cons in Hin as [Hc Hin].
      pose proof (depth_sum_nonneg _ Hin). rewrite depth_sum_cons in Hsum. lia.
  - intros [-> Hd]. simpl in Hsum. lia.
Qed.

Lemma in_call_on_operand d n st t :
  in_call base fs0 d n st -> in_call base fs0 d n (on_operand st t).
Proof.
  intros (above & inner & cf & Hops & Hcnt & Hfs & Hn & Hsum & Hcf & Hin).
  unfold on_operand, in_call. cbn [opstack func_stack]. rewrite Hfs.
  destruct inner as [|c inner]; cbn [app mark_expr].
  - destruct ((depth cf =? 1)%Z && expect_operand st).
    + exists above, [], (mkFuncCtx (commas cf) (depth cf) true).
      simpl. auto 10.
    + exists above, [], cf. auto 10.
  - apply Forall_cons in Hin as [Hc Hin].
    destruct ((depth c =? 1)%Z && expect_operand st).
    + exists above, (mkFuncCtx (commas c) (depth c) true :: inner), cf.
      repeat split; auto; constructor; auto.
    + exists above, (c :: inner), cf. repeat split; auto; constructor; auto.
Qed.

Lemma in_call_on_call d n st t lp' :
  kind lp' = LParen ->
  in_call base fs0 d n st -> in_call base fs0 (S d) n (on_call st t lp').
Proof.
  intros Hl (above & inner & cf & Hops & Hcnt & Hfs & Hn & Hsum & Hcf & Hin).
  exists (lp' :: mkToken Func (text t) 0%float 0 :: above),
         (mkFuncCtx 0 1 false :: inner), cf.
  unfold on_call. cbn [opstack func_stack]. rewrite Hops, Hfs.
  repeat split; auto.
  - simpl. rewrite Hl. simpl. rewrite Hcnt. reflexivity.
  - rewrite depth_sum_cons. simpl depth. lia.
  - constructor; [simpl; lia | exact Hin].
Qed.

Lemma in_call_on_lparen d n st t :
  kind t = LParen ->
  in_call base fs0 d n st -> in_call base fs0 (S d) n (on_lparen st t).
Proof.
  intros Hk (above & inner & cf & Hops & Hcnt & Hfs & Hn & Hsum & Hcf & Hin).
  unfold on_lparen, in_call. cbn [opstack func_stack]. rewrite Hops, Hfs.
  destruct inner as [|c inner]; cbn [app].
  - eexists (t :: above), [], _. repeat split; simpl; auto.
    + rewrite Hk, Hcnt. reflexivity.
    + simpl in Hsum. lia.
    + lia.
  - apply Forall_cons in Hin as [Hc Hin].
    eexists (t :: above), (_ :: inner), cf. repeat split; simpl; auto.
    + rewrite Hk, Hcnt. reflexivity.
    + rewrite depth_sum_cons in *. simpl depth. lia.
    + constructor; [simpl; lia | exact Hin].
Qed.

Lemma in_call_on_operator d n st t :
  in_call base fs0 d n st -> is_operator (kind t) = true ->
  in_call base fs0 d n (on_operator st t).
Proof.
  intros (above & inner & cf & Hops & Hcnt & Hfs & Hn & Hsum & Hcf & Hin) Hk.
  unfold on_operator. rewrite Hops.
  destruct (pop_operators_above (kind t) above (output st))
    as (o & above' & -> & Hc).
  exists (t :: above'), inner, cf. cbn [opstack func_stack].
  repeat split; auto.
  simpl. rewrite Hc, Hcnt. destruct (kind t); try discriminate; reflexivity.
Qed.

Lemma in_call_on_comma d n st st' :
  in_call base fs0 d n st -> on_comma st = Ok st' ->
  in_call base fs0 d (match d with O => n + 1 | S _ => n end)%Z st'.
Proof.
  intros (above & inner & cf & Hops & Hcnt & Hfs & Hn & Hsum & Hcf & Hin).
  pose proof (level_zero _ _ _ Hsum Hcf Hin) as Hz.
  unfold on_comma. rewrite Hfs, Hops.
  destruct (pop_to_lparen_above above (output st)) as (o & above' & Hp & Hc).
  destruct inner as [|c inner]; cbn [app].
  - destruct (depth cf =? 1)%Z eqn:Ed; [|discriminate]. cbn [negb].
    apply Z.eqb_eq in Ed. rewrite Hp.
    destruct (above' ++ base) eqn:Eab; [discriminate|]. intros [= <-].
    assert (d = 0) as -> by (apply Hz; auto).
    exists above', [], (mkFuncCtx (commas cf + 1) (depth cf) (saw_expr cf)).
    cbn [opstack func_stack app commas depth]. rewrite Eab.
    repeat split; auto; try lia; try congruence.
  - destruct (depth c =? 1)%Z eqn:Ed; [|discriminate]. cbn [negb].
    rewrite Hp.
    destruct (above' ++ base) eqn:Eab; [discriminate|]. intros [= <-].
    destruct d as [|d']; [destruct (proj1 Hz eq_refl); discriminate|].
    apply Forall_cons in Hin as [Hc1 Hin].
    exists above', (mkFuncCtx (commas c + 1) (depth c) (saw_expr c) :: inner),
           cf.
    cbn [opstack func_stack app]. rewrite Eab.
    repeat split; auto; try congruence; try (constructor; auto).
Qed.

Lemma in_call_on_rparen d n st st' :
  in_call base fs0 (S d) n st -> on_rparen st = Ok st' ->
  in_call base fs0 d n st'.
Proof.
  intros (above & inner & cf & Hops & Hcnt & Hfs & Hn & Hsum & Hcf & Hin).
  pose proof (level_zero _ _ _ Hsum Hcf Hin) as Hz.
  unfold on_rparen. rewrite Hfs, Hops.
  destruct (pop_through_lparen_above above (output st) d Hcnt)
    as (o & above' & Hp & Hc).
  destruct inner as [|c inner]; cbn [app].
  - (* a parenthesis at the level of the call itself *)
    simpl in Hsum.
    replace (depth cf - 1 <? 0)%Z with false by (symmetry; apply Z.ltb_ge; lia).
    cbn [bind]. rewrite Hp.
    replace (depth cf - 1 =? 0)%Z with false by (symmetry; apply Z.eqb_neq; lia).
    intros [= <-].
    exists above', [], (mkFuncCtx (commas cf) (depth cf - 1) (saw_expr cf)).
    cbn [opstack func_stack app commas depth]. repeat split; auto; simpl; lia.
  - (* a parenthesis of a nested call *)
    apply Forall_cons in Hin as [Hc1 Hin]. rewrite depth_sum_cons in Hsum.
    replace (depth c - 1 <? 0)%Z with false by (symmetry; apply Z.ltb_ge; lia).
    cbn [bind]. rewrite Hp.
    destruct (depth c - 1 =? 0)%Z eqn:Ez.
    + (* it closes the nested call *)
      apply Z.eqb_eq in Ez.
      destruct above' as [|fn above'']; cbn [app].
      * unfold base. unfold is_function. rewrite Hlp. discriminate.
      * destruct (is_function (kind fn)) eqn:Efn; [|discriminate].
        cbn [saw_expr]. destruct (saw_expr c); [|discriminate].
        intros [= <-].
        exists above'', inner, cf. cbn [opstack func_stack].
        repeat split; auto; try lia.
        simpl in Hc. apply TokKind_eqb_eq in Efn. rewrite Efn in Hc. exact Hc.
    + apply Z.eqb_neq in Ez. intros [= <-].
      exists above', (mkFuncCtx (commas c) (depth c - 1) (saw_expr c) :: inner),
             cf.
      cbn [opstack func_stack app]. repeat split; auto.
      * rewrite depth_sum_cons. simpl depth. lia.
      * constructor; [simpl; lia | exact Hin].
Qed.

Lemma in_call_step d n st t st' d' n' :
  in_call base fs0 d n st -> step st t = Ok st' ->
  scan_tok d n (kind t) = Some (d', n') ->
  in_call base fs0 d' n' st'.
Proof.
  intros Hin. unfold step, scan_tok.
  destruct (kind t) eqn:Ek;
    try (destruct (is_operator (kind (retag_minus st t))) eqn:Eop;
         [intros [= <-] [= <- <-]; apply in_call_on_operator; assumption
         | destruct (kind (retag_minus st t)); discriminate]).
  - intros [= <-] [= <- <-]. apply in_call_on_operand. exact Hin.
  - intros [= <-] [= <- <-]. apply in_call_on_lparen; assumption.
  - destruct d as [|d0]; [discriminate|].
    intros Hr [= <- <-]. eapply in_call_on_rparen; eauto.
  - intros Hc [= <- <-]. eapply in_call_on_comma; eauto.
Qed.

(** Across a stretch of the argument list. *)
Lemma in_call_loop body : forall st d n st1 d1 n1,
  no_End_ts body -> in_call base fs0 d n st ->
  loop st body = Ok st1 ->
  scan_args d n (map kind body) = Some (d1, n1) ->
  in_call base fs0 d1 n1 st1.
Proof.
  induction body as [| x | x y l IHl IHyl] using list_ind2;
    intros st d n st1 d1 n1 Hne Hin.
  - intros [= <-] [= <- <-]. exact Hin.
  - apply Forall_cons in Hne as [Hx _].
    destruct (ts_expr_facts.ts_loop_cases st x []) as
      [[? _]|[(_ & lp' & r & [=] & _)|[(Hi & _ & ->)|(_ & _ & ->)]]];
      [congruence | |].
    + intros [= <-]. simpl. rewrite Hi. intros [= <- <-].
      apply in_call_on_operand. exact Hin.
    + destruct (step st x) as [s1|] eqn:Es; [|discriminate].
      intros [= <-]. simpl.
      destruct (scan_tok d n (kind x)) as [[d' n']|] eqn:Et; [|discriminate].
      intros [= <- <-]. eapply in_call_step; eauto.
  - apply Forall_cons in Hne as [Hx Hne]. pose proof Hne as Hyl.
    apply Forall_cons in Hne as [Hy Hne].
    destruct (ts_expr_facts.ts_loop_cases st x (y :: l)) as
      [[? _]|[(Hi & lp' & r & [= <- <-] & Hl' & ->)
             |[(Hi & _ & ->)|(_ & _ & ->)]]];
      [congruence | | |].
    + intros Hloop. cbn [map scan_args]. rewrite Hi, Hl'. cbn [scan_tok].
      apply (IHl _ _ _ _ _ _ Hne (in_call_on_call _ _ _ x y Hl' Hin) Hloop).
    + intros Hloop. cbn [map scan_args]. rewrite Hi. cbn [scan_tok].
      apply (IHyl _ _ _ _ _ _ Hyl (in_call_on_operand _ _ _ x Hin) Hloop).
    + destruct (step st x) as [s1|] eqn:Es; [|discriminate].
      intros Hloop. cbn [map scan_args].
      destruct (scan_tok d n (kind x)) as [[d' n']|] eqn:Et; [|discriminate].
      apply (IHyl _ _ _ _ _ _ Hyl (in_call_step _ _ _ _ _ _ _ Hin Es Et) Hloop).
Qed.

(** Closing the call at its own level. *)
Lemma in_call_close n st st2 :
  kind mf = Func ->
  in_call base fs0 0 n st -> on_rparen st = Ok st2 ->
  exists out,
    output st2 = out ++ [mkToken Func (text mf) (number mf) (n + 1)] /\
    opstack st2 = ops0 /\ func_stack st2 = fs0.
Proof.
  intros Hmf (above & inner & cf & Hops & Hcnt & Hfs & Hn & Hsum & Hcf & Hin).
  destruct (proj1 (level_zero _ _ _ Hsum Hcf Hin) eq_refl) as [-> Hd].
  unfold on_rparen. rewrite Hfs, Hops. cbn [app]. rewrite Hd.
  replace (1 - 1 <? 0)%Z with false by reflexivity. cbn [bind].
  rewrite (pop_through_lparen_flat above (output st) Hcnt).
  replace (1 - 1 =? 0)%Z with true by reflexivity.
  unfold is_function. rewrite Hmf. cbn [TokKind_eqb saw_expr commas].
  destruct (saw_expr cf); [|discriminate].
  intros [= <-]. exists (output st ++ above). cbn [output opstack func_stack].
  rewrite Hn. auto.
Qed.

End InCall.

(** The arity of a call is one plus the number of commas at its own
    level. *)
Lemma call_arity st f lp body k st1 st2 :
  kind lp = LParen -> no_End_ts body ->
  scan_args 0 0 (map kind body) = Some (0, k) ->
  loop (on_call st f lp) body = Ok st1 ->
  on_rparen st1 = Ok st2 ->
  exists out,
    output st2 = out ++ [mkToken Func (text f) 0%float (k + 1)] /\
    opstack st2 = opstack st /\ func_stack st2 = func_stack st.
Proof.
  intros Hlp Hne Hscan Hloop Hclose.
  assert (in_call (lp :: mkToken Func (text f) 0%float 0 :: opstack st)
            (func_stack st) 0 0 (on_call st f lp)) as Hin.
  { exists [], [], (mkFuncCtx 0 1 false). simpl. repeat split; auto; lia. }
  pose proof (in_call_loop lp _ _ _ Hlp body _ _ _ _ _ _ Hne Hin Hloop Hscan)
    as Hin1.
  exact (in_call_close lp (mkToken Func (text f) 0%float 0) (opstack st)
           (func_stack st) Hlp k st1 st2 eq_refl Hin1 Hclose).
Qed.

(** The loop across a whole call. *)
Lemma loop_call st f lp body rp rest :
  kind f = Ident -> kind lp = LParen -> kind rp = RParen ->
  no_End_ts body ->
  loop st (f :: lp :: body ++ rp :: rest) =
  (st1 <- loop (on_call st f lp) body ;;
   st2 <- on_rparen st1 ;;
   loop st2 rest).
Proof.
  intros Hf Hlp Hrp Hne.
  assert (loop st (f :: lp :: body ++ rp :: rest) =
          loop (on_call st f lp) (body ++ rp :: rest)) as ->.
  { cbn [loop]. rewrite Hf, Hlp. reflexivity. }
  rewrite ts_expr_facts.ts_loop_app by (assumption || (simpl; congruence)).
  destruct (loop (on_call st f lp) body) as [st1|e]; [|reflexivity].
  cbn [bind loop]. rewrite Hrp. unfold step. rewrite Hrp.
  destruct (on_rparen st1); reflexivity.
Qed.

End call_facts.

(** In [tsexpr::compile], which keeps no nesting depth, the comma of
    [z = f((1, 2))] stands inside a parenthesis nested in the call and is
    still counted toward the arity of [f]; so [s = sumproduct((a, b))] runs
    as [sumproduct(a, b)] does.  [ts::expr::compile] rejects both inputs. *)
Lemma tsexpr_counts_nested_comma :
  tsexpr.compile libc.strtod_dec "z = f((1, 2))" =
    Ok [PushNum 1%float; PushNum 2%float; Call "f" 2; Store "z"] /\
  tsexpr.compile_and_execute toy.Backend libc.strtod_dec
      "s = sumproduct((a, b))" toy_vars =
    (<["s" := toy.VScalar 140%float]> toy_vars, None) /\
  ts_expr.compile libc.strtod_dec "z = f((1, 2))" =
    Err (ParseError
      "Unexpected ',' (commas are only valid inside function argument lists)") /\
  ts_expr.compile libc.strtod_dec "s = sumproduct((a, b))" =
    Err (ParseError
      "Unexpected ',' (commas are only valid inside function argument lists)").
Proof. repeat split; vm_compute; reflexivity. Qed.




(** ** The two pipelines side by side (C1) *)


Module equiv_facts.

(** *** The two token loops on a call-free input *)















(** *** The two compilers on a call-free input *)





(** *** The two evaluators on a call-free postfix sequence *)


Section WithEnv.

Variable env : gmap string ts_expr.TimeSeries.



End WithEnv.

End equiv_facts.



(** * Further properties of the code *)

(** ** The lexers: progress, white space, identifiers *)

Module lexing.

Lemma append_cons (c : ascii) (a b : string) :
  String c a +:+ b = String c (a +:+ b).
Proof. reflexivity. Qed.

Lemma append_nil (a : string) : "" +:+ a = a.
Proof. reflexivity. Qed.

Lemma append_nil_r (a : string) : a +:+ "" = a.
Proof. induction a as [|c a IH]; [reflexivity|]. rewrite append_cons, IH. reflexivity. Qed.

Lemma append_assoc (a b c : string) : (a +:+ b) +:+ c = a +:+ (b +:+ c).
Proof.
  induction a as [|x a IH]; [reflexivity|]. rewrite !append_cons, IH. reflexivity.
Qed.

Lemma skip_ws_split (s : string) :
  exists ws, s = ws +:+ scan.skip_ws s /\ all_space ws = true.
Proof.
  induction s as [|c r (ws & IH & Hws)]; simpl.
  - exists "". auto.
  - destruct (libc.isspace c) eqn:Ec.
    + exists (String c ws). rewrite append_cons. simpl. rewrite Ec, Hws.
      split; [f_equal; exact IH | reflexivity].
    + exists "". auto.
Qed.

Lemma skip_ws_app (ws s : string) :
  all_space ws = true -> scan.skip_ws (ws +:+ s) = scan.skip_ws s.
Proof.
  induction ws as [|c ws IH]; simpl; [reflexivity|].
  intros H. apply andb_prop in H as [-> H]. auto.
Qed.

Lemma skip_ws_empty (s : string) :
  scan.skip_ws s = "" <-> all_space s = true.
Proof.
  induction s as [|c r IH]; simpl; [tauto|].
  destruct (libc.isspace c); simpl; [exact IH|].
  split; discriminate.
Qed.

Lemma backtick_split (s txt r : string) :
  scan.backtick s = Some (txt, r) -> s = txt +:+ String "`" r.
Proof.
  revert txt r. induction s as [|c s IH]; simpl; intros txt r H; [discriminate|].
  destruct (Ascii.eqb_spec c "`") as [->|Hc].
  - inversion H. reflexivity.
  - destruct (scan.backtick s) as [[t' r']|]; [|discriminate].
    inversion H. subst. rewrite append_cons. f_equal. apply IH. reflexivity.
Qed.

Lemma ident_split (s txt r : string) :
  scan.ident s = (txt, r) -> s = txt +:+ r.
Proof.
  revert txt r. induction s as [|c s IH]; simpl; intros txt r H.
  - inversion H. reflexivity.
  - destruct (scan.is_ident_char c).
    + destruct (scan.ident s) as [t' r']. inversion H. subst.
      rewrite append_cons. f_equal. apply IH. reflexivity.
    + inversion H. reflexivity.
Qed.

Lemma advance_split (n : nat) (s : string) :
  exists p, s = p +:+ scan.advance n s.
Proof.
  revert s. induction n as [|n IH]; intros s.
  - exists "". destruct s; reflexivity.
  - destruct s as [|c s]; simpl.
    + exists "". reflexivity.
    + destruct (IH s) as [p Hp]. exists (String c p). rewrite append_cons.
      f_equal. exact Hp.
Qed.

Lemma single_char_kind (c : ascii) (k : TokKind) :
  single_char c = Some k -> lexer_kind k = true /\ k <> Ident /\ k <> Number.
Proof.
  unfold single_char.
  repeat match goal with
         | |- context [if ?b then _ else _] => destruct b
         end; intros H; inversion H; subst; repeat split; discriminate.
Qed.

(** The shape of every successful call of [next]. *)
Lemma next_inv strtod (s s' : string) (t : tsexpr.Token) :
  tsexpr.next strtod s = Ok (t, s') ->
  (scan.skip_ws s = "" /\ t = tsexpr.tok End /\ s' = "") \/
  (exists c r,
      scan.skip_ws s = String c r /\
      ((exists k, single_char c = Some k /\ t = tsexpr.tok k /\ s' = r) \/
       (exists txt, t = tsexpr.mkToken Ident (String c txt) 0%float /\
                    String c r = String c txt +:+ s' /\ single_char c = None) \/
       (exists txt, c = "`"%char /\ t = tsexpr.mkToken Ident txt 0%float /\
                    r = txt +:+ String "`" s') \/
       (exists x n, t = tsexpr.mkToken Number "" x /\
                    s' = scan.advance (S n) (String c r)))).
Proof.
  unfold tsexpr.next. destruct (scan.skip_ws s) as [|c r] eqn:Es.
  - intros H. inversion H. auto.
  - intros H. right. exists c, r. split; [reflexivity|].
    destruct (single_char c) as [k|] eqn:Ek.
    { inversion H. eauto 10. }
    destruct (Ascii.eqb_spec c "`") as [->|Hc].
    { destruct (scan.backtick r) as [[txt r']|] eqn:Eb; [|discriminate].
      inversion H. subst. apply backtick_split in Eb.
      right. right. left. eauto. }
    destruct (scan.is_ident_start c).
    { destruct (scan.ident r) as [txt r'] eqn:Ei. inversion H. subst.
      apply ident_split in Ei. right. left. exists txt.
      rewrite append_cons. repeat split; congruence. }
    destruct (libc.isdigit c || (c =? ".")%char); [|discriminate].
    destruct (strtod (String c r)) as [x n]. destruct n as [|n]; [discriminate|].
    inversion H. subst. right. right. right. eauto.
Qed.

Lemma next_suffix strtod (s s' : string) (t : tsexpr.Token) :
  tsexpr.next strtod s = Ok (t, s') -> exists consumed, s = consumed +:+ s'.
Proof.
  intros H. destruct (skip_ws_split s) as (ws & Hs & _).
  apply next_inv in H as [(E & _ & ->) | (c & r & E & H)].
  - exists s. rewrite append_nil_r. reflexivity.
  - rewrite E in Hs.
    destruct H as [(k & _ & _ & ->) | [(txt & _ & Hr & _) |
                   [(txt & -> & _ & ->) | (x & n & _ & ->)]]].
    + exists (ws +:+ String c ""). rewrite append_assoc. exact Hs.
    + exists (ws +:+ String c txt). rewrite append_assoc, <- Hr. exact Hs.
    + exists (ws +:+ String "`" (txt +:+ "`")).
      rewrite append_assoc, append_cons, append_assoc. exact Hs.
    + destruct (advance_split (S n) (String c r)) as [p Hp].
      exists (ws +:+ p). rewrite append_assoc, <- Hp. exact Hs.
Qed.

Lemma next_End strtod (s s' : string) (t : tsexpr.Token) :
  tsexpr.next strtod s = Ok (t, s') ->
  (tsexpr.kind t = End <-> all_space s = true).
Proof.
  intros H. rewrite <- skip_ws_empty.
  apply next_inv in H as [(E & -> & _) | (c & r & E & H)].
  - simpl. tauto.
  - rewrite E.
    destruct H as [(k & Hk & -> & _) | [(txt & -> & _) |
                   [(txt & _ & -> & _) | (x & n & -> & _)]]];
      simpl; split; try discriminate.
    intros ->. apply single_char_kind in Hk as [Hk _]. discriminate.
Qed.

Lemma next_lexer_token strtod (s s' : string) (t : tsexpr.Token) :
  tsexpr.next strtod s = Ok (t, s') ->
  tsexpr.kind t <> End -> lexer_token t.
Proof.
  intros H Hne.
  apply next_inv in H as [(_ & -> & _) | (c & r & _ & H)].
  - contradiction.
  - destruct H as [(k & Hk & -> & _) | [(txt & -> & _) |
                   [(txt & _ & -> & _) | (x & n & -> & _)]]];
      unfold lexer_token; simpl; repeat split; try congruence.
    apply single_char_kind in Hk. tauto.
Qed.

Lemma tokens_upto_length strtod (n : nat) : forall s,
  length (fst (tsexpr.tokens_upto strtod n s)) <= String.length s.
Proof.
  induction n as [|n IH]; intros s; simpl; [lia|].
  destruct (tsexpr.next strtod s) as [[t s']|e] eqn:En; simpl; [|lia].
  destruct (tsexpr.kind t) eqn:Ek; simpl; try lia;
    (assert (Hlt : String.length s' < String.length s)
       by (eapply lexer_facts.next_consumes; [exact En | congruence]));
    specialize (IH s'); destruct (tsexpr.tokens_upto strtod n s');
    simpl in *; lia.
Qed.

Lemma tokens_upto_lexer_token strtod (n : nat) : forall s,
  Forall lexer_token (fst (tsexpr.tokens_upto strtod n s)).
Proof.
  induction n as [|n IH]; intros s; simpl; [constructor|].
  destruct (tsexpr.next strtod s) as [[t s']|e] eqn:En; simpl; [|constructor].
  destruct (tsexpr.kind t) eqn:Ek; simpl; try constructor;
    specialize (IH s'); destruct (tsexpr.tokens_upto strtod n s');
    simpl in *; constructor; auto;
    eapply next_lexer_token; eauto; congruence.
Qed.

Lemma next_error strtod (s : string) (e : Error) :
  tsexpr.next strtod s = Err e ->
  exists w, e = ParseError w /\ lexer_message w.
Proof.
  unfold tsexpr.next, lexer_message.
  destruct (scan.skip_ws s) as [|c r]; [discriminate|].
  destruct (single_char c); [discriminate|].
  destruct (c =? "`")%char.
  { destruct (scan.backtick r) as [[? ?]|]; intros H; inversion H; eauto. }
  destruct (scan.is_ident_start c).
  { destruct (scan.ident r). discriminate. }
  destruct (libc.isdigit c || (c =? ".")%char).
  { destruct (strtod (String c r)) as [x [|n]]; intros H; inversion H; eauto. }
  intros H; inversion H; eauto 6.
Qed.

Lemma tokens_upto_error strtod (n : nat) : forall s e,
  snd (tsexpr.tokens_upto strtod n s) = Some e ->
  exists w, e = ParseError w /\ lexer_message w.
Proof.
  induction n as [|n IH]; intros s e; simpl; [discriminate|].
  destruct (tsexpr.next strtod s) as [[t s']|e'] eqn:En; simpl.
  - specialize (IH s' e).
    destruct (tsexpr.kind t); simpl; try discriminate;
      destruct (tsexpr.tokens_upto strtod n s'); simpl in *; exact IH.
  - intros H. inversion H. subst. eapply next_error; eauto.
Qed.

Lemma ident_start_plain (c : ascii) :
  scan.is_ident_start c = true ->
  single_char c = None /\ (c =? "`")%char = false.
Proof.
  destruct c as [[] [] [] [] [] [] [] []]; vm_compute; intros H;
    try discriminate H; split; reflexivity.
Qed.

Lemma ident_all (cs rest : string) :
  all_ident_chars cs = true -> ends_ident rest = true ->
  scan.ident (cs +:+ rest) = (cs, rest).
Proof.
  intros Hcs Hr. induction cs as [|c cs IH]; simpl in *.
  - destruct rest as [|c r]; simpl in *; [reflexivity|].
    apply negb_true_iff in Hr. rewrite Hr. reflexivity.
  - apply andb_prop in Hcs as [-> Hcs]. rewrite (IH Hcs). reflexivity.
Qed.

Lemma next_ws strtod (ws s : string) :
  all_space ws = true ->
  tsexpr.next strtod (ws +:+ s) = tsexpr.next strtod s.
Proof. intros H. unfold tsexpr.next. rewrite skip_ws_app by exact H. reflexivity. Qed.

Lemma tokens_ws strtod (ws s : string) :
  all_space ws = true ->
  tsexpr.tokens strtod (ws +:+ s) = tsexpr.tokens strtod s.
Proof.
  intros H. rewrite (lexer_facts.tokens_unfold strtod (ws +:+ s)),
    (lexer_facts.tokens_unfold strtod s), next_ws by exact H. reflexivity.
Qed.

End lexing.

(** X1.  The two lexers are the same function up to the token record:
    on every input, [ts::expr]'s [next_impl] returns the token
    [Lexer::next] of lexer.cpp returns (same kind, text and number) and
    leaves the same unread text, or throws the same exception; so the two
    token sequences of an input are equal, and are cut short by the same
    exception if any. *)
Theorem X1_lexers_agree :
  forall strtod (s : string),
    ts_expr.next_impl strtod s =
      match tsexpr.next strtod s with
      | Ok (t, s') => Ok (conv t, s')
      | Err e => Err e
      end /\
    ts_expr.tokens strtod s =
      (map conv (fst (tsexpr.tokens strtod s)), snd (tsexpr.tokens strtod s)).
Proof.
  intros strtod s. split.
  - apply lexer_facts.next_impl_next.
  - apply lexer_facts.tokens_conv.
Qed.

(** X2.  A successful call of [Lexer::next] leaves a suffix of the text
    it was given; the suffix is proper unless the token is [End]; and the
    token is [End] exactly when only white space was left. *)
Theorem X2_next_consumes_a_prefix :
  forall strtod (s s' : string) (t : tsexpr.Token),
    tsexpr.next strtod s = Ok (t, s') ->
    (exists consumed, s = consumed +:+ s') /\
    (tsexpr.kind t <> End -> String.length s' < String.length s) /\
    (tsexpr.kind t = End <-> all_space s = true).
Proof.
  intros strtod s s' t H. split; [|split].
  - eapply lexing.next_suffix; eauto.
  - eapply lexer_facts.next_consumes; eauto.
  - eapply lexing.next_End; eauto.
Qed.

Lemma X2_next_consumes_a_prefix_witness :
  (exists consumed, "  carry / 2" = consumed +:+ " / 2") /\
  (tsexpr.kind (tsexpr.mkToken Ident "carry" 0%float) <> End ->
   String.length " / 2" < String.length "  carry / 2") /\
  (tsexpr.kind (tsexpr.mkToken Ident "carry" 0%float) = End <->
   all_space "  carry / 2" = true).
Proof.
  apply (X2_next_consumes_a_prefix libc.strtod_dec "  carry / 2" " / 2"
           (tsexpr.mkToken Ident "carry" 0%float)).
  vm_compute. reflexivity.
Defined.

(** X3.  Lexing an input of [n] characters yields at most [n] tokens
    before [End]; each of them has a kind other than [End], [Neg] and
    [Func], carries a text only if it is an identifier and a number only if
    it is a number; and an exception of the lexer is always a
    [ParseError]. *)
Theorem X3_token_sequence :
  forall strtod (s : string),
    length (fst (tsexpr.tokens strtod s)) <= String.length s /\
    Forall lexer_token (fst (tsexpr.tokens strtod s)) /\
    match snd (tsexpr.tokens strtod s) with
    | Some e => is_parse e = true
    | None => True
    end.
Proof.
  intros strtod s. split; [|split].
  - apply lexing.tokens_upto_length.
  - apply lexing.tokens_upto_lexer_token.
  - destruct (snd (tsexpr.tokens strtod s)) as [e|] eqn:E; [|exact I].
    apply lexing.tokens_upto_error in E as (w & -> & _). reflexivity.
Qed.

(** X4.  White space before a token is skipped: putting white space in
    front of a text changes neither the next token nor the token sequence,
    and so neither what the two [compile] functions return. *)
Theorem X4_leading_white_space :
  forall strtod (ws s : string),
    all_space ws = true ->
    tsexpr.next strtod (ws +:+ s) = tsexpr.next strtod s /\
    tsexpr.tokens strtod (ws +:+ s) = tsexpr.tokens strtod s /\
    tsexpr.compile strtod (ws +:+ s) = tsexpr.compile strtod s /\
    ts_expr.compile strtod (ws +:+ s) = ts_expr.compile strtod s.
Proof.
  intros strtod ws s H. split; [|split; [|split]].
  - apply lexing.next_ws, H.
  - apply lexing.tokens_ws, H.
  - unfold tsexpr.compile. rewrite lexing.tokens_ws by exact H. reflexivity.
  - unfold ts_expr.compile.
    rewrite !lexer_facts.tokens_conv, lexing.tokens_ws by exact H. reflexivity.
Qed.

Lemma X4_leading_white_space_witness :
  tsexpr.next libc.strtod_dec ("   " +:+ "z = a") =
    tsexpr.next libc.strtod_dec "z = a" /\
  tsexpr.tokens libc.strtod_dec ("   " +:+ "z = a") =
    tsexpr.tokens libc.strtod_dec "z = a" /\
  tsexpr.compile libc.strtod_dec ("   " +:+ "z = a") =
    tsexpr.compile libc.strtod_dec "z = a" /\
  ts_expr.compile libc.strtod_dec ("   " +:+ "z = a") =
    ts_expr.compile libc.strtod_dec "z = a".
Proof.
  apply (X4_leading_white_space libc.strtod_dec "   " "z = a"). reflexivity.
Defined.

(** X5.  A plain identifier is read by longest match: a letter or
    underscore followed by letters, digits and underscores, up to the first
    character that is none of these, becomes one identifier token with
    exactly that text, in both lexers. *)
Theorem X5_plain_identifier :
  forall strtod (ws : string) (c : ascii) (cs rest : string),
    all_space ws = true ->
    scan.is_ident_start c = true ->
    all_ident_chars cs = true ->
    ends_ident rest = true ->
    tsexpr.next strtod (ws +:+ String c (cs +:+ rest)) =
      Ok (tsexpr.mkToken Ident (String c cs) 0%float, rest) /\
    ts_expr.next_impl strtod (ws +:+ String c (cs +:+ rest)) =
      Ok (ts_expr.mkToken Ident (String c cs) 0%float 0, rest).
Proof.
  intros strtod ws c cs rest Hws Hc Hcs Hr.
  assert (H : tsexpr.next strtod (ws +:+ String c (cs +:+ rest)) =
              Ok (tsexpr.mkToken Ident (String c cs) 0%float, rest)).
  { rewrite lexing.next_ws by exact Hws. unfold tsexpr.next. simpl.
    destruct (libc.isspace c) eqn:Esp.
    { exfalso. revert Hc Esp. clear.
      destruct c as [[] [] [] [] [] [] [] []]; vm_compute; congruence. }
    destruct (lexing.ident_start_plain c Hc) as [-> ->].
    rewrite Hc, (lexing.ident_all cs rest Hcs Hr). reflexivity. }
  split; [exact H|].
  rewrite lexer_facts.next_impl_next, H. reflexivity.
Qed.

Lemma X5_plain_identifier_witness :
  tsexpr.next libc.strtod_dec (" " +:+ String "t" ("otal_2" +:+ "+carry")) =
    Ok (tsexpr.mkToken Ident "total_2" 0%float, "+carry") /\
  ts_expr.next_impl libc.strtod_dec
      (" " +:+ String "t" ("otal_2" +:+ "+carry")) =
    Ok (ts_expr.mkToken Ident "total_2" 0%float 0, "+carry").
Proof.
  apply (X5_plain_identifier libc.strtod_dec " " "t" "otal_2" "+carry");
    reflexivity.
Defined.

(** ** The parser of [tsexpr]: what its loop keeps *)

Module rpn_facts.

Import tsexpr.

Lemma pop_to_lparen_split ops : forall out,
  exists p q,
    pop_to_lparen out ops = (out ++ p, q) /\ ops = p ++ q /\
    Forall (fun t => kind t <> LParen) p /\
    match q with
    | lp :: _ => kind lp = LParen
    | [] => True
    end.
Proof.
  induction ops as [|top ops IH]; intros out.
  - exists [], []. rewrite app_nil_r. repeat split. constructor.
  - destruct (kind top) eqn:Ek.
    7: { exists [], (top :: ops). simpl. rewrite Ek, app_nil_r.
         repeat split; try constructor; assumption. }
    all: destruct (IH (out ++ [top])) as (p & q & Hp & -> & Hf & Hq);
      exists (top :: p), q; simpl; rewrite Ek, Hp, <- app_assoc;
      repeat split; try exact Hq; constructor; [congruence | exact Hf].
Qed.

Lemma pop_operators_split cur ops : forall out,
  exists p q,
    pop_operators cur out ops = (out ++ p, q) /\ ops = p ++ q /\
    Forall (fun t => is_op (kind t) = true) p.
Proof.
  induction ops as [|top ops IH]; intros out.
  - exists [], []. rewrite app_nil_r. repeat split. constructor.
  - simpl. destruct (is_op (kind top)) eqn:Eo; simpl.
    + destruct (pop_it (kind top) cur).
      * destruct (IH (out ++ [top])) as (p & q & Hp & -> & Hf).
        exists (top :: p), q. rewrite Hp, <- app_assoc.
        repeat split. constructor; assumption.
      * exists [], (top :: ops). rewrite app_nil_r. repeat split. constructor.
    + exists [], (top :: ops). rewrite app_nil_r. repeat split. constructor.
Qed.

Lemma drain_split ops : forall out r,
  drain out ops = Ok r ->
  r = out ++ ops /\
  Forall (fun t => kind t <> LParen /\ kind t <> Func) ops.
Proof.
  induction ops as [|top ops IH]; intros out r; simpl.
  - intros [= <-]. rewrite app_nil_r. split; constructor.
  - destruct (kind top) eqn:Ek; try discriminate;
      intros H; apply IH in H as [-> Hf]; rewrite <- app_assoc;
      (split; [reflexivity | constructor; [split; congruence | exact Hf]]).
Qed.

(** A property of the state that every turn of the loop keeps holds when
    the loop ends. *)
Lemma loop_invariant (I : RpnState -> Prop) :
  (forall st t lp, kind t = Ident -> kind lp = LParen ->
                   I st -> I (on_call st t lp)) ->
  (forall st t, kind t = Ident -> I st -> I (on_operand st t)) ->
  (forall st t st', kind t <> Ident -> kind t <> End ->
                    I st -> step st t = Ok st' -> I st') ->
  forall toks st st', I st -> loop st toks = Ok st' -> I st'.
Proof.
  intros Hcall Hoperand Hstep.
  induction toks as [| x | x y l IHl IHyl] using list_ind2; intros st st' Hi.
  - intros [= <-]. exact Hi.
  - destruct (tsexpr_facts.loop_cases st x []) as
      [[_ ->]|[(_ & lp & r & [=] & _)|[(Hk & _ & ->)|(Hne & Hni & ->)]]].
    + intros [= <-]. exact Hi.
    + intros [= <-]. auto.
    + destruct (step st x) as [s1|] eqn:Es; [|discriminate].
      intros [= <-]. eauto.
  - destruct (tsexpr_facts.loop_cases st x (y :: l)) as
      [[_ ->]|[(Hk & lp & r & [= <- <-] & Hlp & ->)
              |[(Hk & _ & ->)|(Hne & Hni & ->)]]].
    + intros [= <-]. exact Hi.
    + apply IHl. auto.
    + apply IHyl. auto.
    + destruct (step st x) as [s1|] eqn:Es; [|discriminate].
      apply IHyl. eauto.
Qed.

Lemma under_paren_pop p : forall q,
  Forall (fun k => k <> LParen) p ->
  func_under_paren (p ++ q) = true ->
  Forall (fun k => k <> Func) p /\
  func_under_paren q = true /\
  count_kind Func (p ++ q) = count_kind Func q.
Proof.
  induction p as [|k p IH]; intros q Hp H.
  - repeat split; [constructor | exact H].
  - apply Forall_cons in Hp as [Hk Hp].
    assert (Hkf : k <> Func) by (intros ->; discriminate H).
    assert (H' : func_under_paren (p ++ q) = true)
      by (destruct k; simpl in H; congruence).
    destruct (IH q Hp H') as (Hf & Hq & Hc).
    repeat split; [constructor; assumption | exact Hq |].
    unfold count_kind in *. simpl.
    destruct k; simpl; congruence.
Qed.

Lemma under_paren_lparen ks :
  func_under_paren ks = true -> func_under_paren (LParen :: ks) = true.
Proof. destruct ks as [|[] ks]; simpl; congruence. Qed.

Lemma under_paren_op k ks :
  is_op k = true -> func_under_paren (k :: ks) = func_under_paren ks.
Proof. destruct k; simpl; congruence. Qed.

Lemma stack_kind_lowerable k :
  stack_kind k = true -> k <> LParen -> lowerable k = true.
Proof. destruct k; simpl; congruence. Qed.

Lemma is_op_kinds k :
  is_op k = true -> lowerable k = true /\ stack_kind k = true /\ k <> Func.
Proof. destruct k; simpl; repeat split; congruence. Qed.

Lemma Forall_kind_map {A : Type} (f : A -> TokKind) (P : TokKind -> Prop) l :
  Forall (fun t => P (f t)) l -> Forall P (map f l).
Proof. induction 1; simpl; constructor; assumption. Qed.

(** What [pop_to_lparen] leaves of a state that is in order. *)
Lemma pop_to_lparen_ok st out ops :
  rpn_state_ok st ->
  pop_to_lparen (output st) (opstack st) = (out, ops) ->
  Forall (fun t => lowerable (kind t) = true) out /\
  Forall (fun t => stack_kind (kind t) = true) ops /\
  func_under_paren (map kind ops) = true /\
  length (fnstack st) = count_kind Func (map kind ops) /\
  match ops with
  | lp :: _ => kind lp = LParen
  | [] => True
  end.
Proof.
  intros (Ho & Hs & Hu & Hc) Hp.
  destruct (pop_to_lparen_split (opstack st) (output st))
    as (p & q & Hp' & Hops & Hnl & Hq).
  rewrite Hp in Hp'. inversion Hp'. subst out ops. clear Hp'.
  rewrite Hops in Hs, Hu, Hc. rewrite map_app in Hu, Hc.
  apply Forall_app in Hs as [Hsp Hsq].
  destruct (under_paren_pop (map kind p) (map kind q)) as (Hnf & Huq & Hcq);
    [apply (Forall_kind_map kind (fun k => k <> LParen)); exact Hnl
    | exact Hu |].
  repeat split; try assumption; [|congruence].
  apply Forall_app. split; [exact Ho|].
  rewrite Forall_forall in *. intros t Ht.
  apply stack_kind_lowerable; auto.
Qed.

Lemma rpn_state_ok_init : rpn_state_ok rpn_init.
Proof. repeat split; constructor. Qed.

Lemma mark_arg_length fs : length (mark_arg fs) = length fs.
Proof. destruct fs; reflexivity. Qed.

Lemma rpn_state_ok_on_call st t lp :
  kind lp = LParen -> rpn_state_ok st -> rpn_state_ok (on_call st t lp).
Proof.
  intros Hlp (Ho & Hs & Hu & Hc). unfold rpn_state_ok, on_call. simpl.
  rewrite Hlp. repeat split; try assumption.
  - constructor; [rewrite Hlp; reflexivity|]. constructor; [reflexivity|].
    exact Hs.
  - unfold count_kind in *. simpl. congruence.
Qed.

Lemma rpn_state_ok_on_operand st t :
  is_operand (kind t) = true -> rpn_state_ok st ->
  rpn_state_ok (on_operand st t).
Proof.
  intros Hk (Ho & Hs & Hu & Hc). unfold rpn_state_ok, on_operand. simpl.
  rewrite mark_arg_length. repeat split; try assumption.
  apply Forall_app. split; [exact Ho|]. constructor; [|constructor].
  destruct (kind t); simpl in *; congruence.
Qed.

Lemma rpn_state_ok_on_comma st st' :
  rpn_state_ok st -> on_comma st = Ok st' -> rpn_state_ok st'.
Proof.
  intros Hok. unfold on_comma.
  destruct (pop_to_lparen (output st) (opstack st)) as [out ops] eqn:Ep.
  destruct (pop_to_lparen_ok _ _ _ Hok Ep) as (Ho & Hs & Hu & Hc & _).
  destruct ops as [|lp ops]; [discriminate|].
  destruct (fnstack st) as [|f fs]; [discriminate|].
  intros [= <-]. repeat split; assumption.
Qed.

Lemma rpn_state_ok_on_rparen st st' :
  rpn_state_ok st -> on_rparen st = Ok st' -> rpn_state_ok st'.
Proof.
  intros Hok. unfold on_rparen.
  destruct (pop_to_lparen (output st) (opstack st)) as [out ops] eqn:Ep.
  destruct (pop_to_lparen_ok _ _ _ Hok Ep) as (Ho & Hs & Hu & Hc & Hlp).
  destruct ops as [|lp ops1]; [discriminate|].
  apply Forall_cons in Hs as [_ Hs]. simpl in Hu, Hc. rewrite Hlp in Hu, Hc.
  destruct ops1 as [|fn ops2].
  { intros [= <-]. repeat split; assumption. }
  simpl in Hu, Hc. destruct (kind fn) eqn:Ef.
  13: { destruct (fnstack st) as [|frame fs]; [discriminate|].
        intros [= <-]. apply Forall_cons in Hs as [_ Hs].
        unfold rpn_state_ok. simpl. rewrite mark_arg_length.
        unfold count_kind in *. simpl in Hc.
        repeat split; try assumption; [|congruence].
        apply Forall_app. split; [exact Ho|]. repeat constructor. }
  all: intros [= <-]; unfold rpn_state_ok; simpl; rewrite Ef;
    repeat split; assumption.
Qed.

Lemma rpn_state_ok_on_operator st t :
  is_op (kind t) = true -> rpn_state_ok st -> rpn_state_ok (on_operator st t).
Proof.
  intros Hk (Ho & Hs & Hu & Hc). unfold on_operator.
  destruct (pop_operators_split (kind t) (opstack st) (output st))
    as (p & q & -> & Hops & Hp).
  rewrite Hops in Hs, Hu, Hc. rewrite map_app in Hu, Hc.
  apply Forall_app in Hs as [Hsp Hsq].
  destruct (under_paren_pop (map kind p) (map kind q)) as (_ & Huq & Hcq);
    [| exact Hu |].
  { apply (Forall_kind_map kind (fun k => k <> LParen)).
    rewrite Forall_forall in *. intros x Hx Hl. specialize (Hp x Hx).
    rewrite Hl in Hp. discriminate. }
  destruct (is_op_kinds _ Hk) as (Hl & Hsk & Hnf).
  unfold rpn_state_ok. cbn [output opstack fnstack map].
  rewrite (under_paren_op _ _ Hk).
  repeat split.
  - apply Forall_app. split; [exact Ho|].
    rewrite Forall_forall in *. intros x Hx. apply is_op_kinds. auto.
  - constructor; assumption.
  - exact Huq.
  - rewrite Hc, Hcq. unfold count_kind. cbn [List.filter].
    destruct (kind t); simpl in *; congruence.
Qed.

Lemma rpn_state_ok_step st t st' :
  rpn_state_ok st -> step st t = Ok st' -> rpn_state_ok st'.
Proof.
  intros Hok. unfold step.
  destruct (kind t) eqn:Ek;
    try (destruct (is_op (kind (retag_minus st t))) eqn:Eo;
         [intros [= <-]; apply rpn_state_ok_on_operator; assumption
         | discriminate]).
  - intros [= <-]. apply rpn_state_ok_on_operand; [rewrite Ek; reflexivity|].
    exact Hok.
  - intros [= <-]. destruct Hok as (Ho & Hs & Hu & Hc).
    unfold rpn_state_ok, on_lparen. cbn [output opstack fnstack map].
    rewrite Ek. repeat split.
    + exact Ho.
    + constructor; [rewrite Ek; reflexivity | exact Hs].
    + apply under_paren_lparen. exact Hu.
    + exact Hc.
  - apply rpn_state_ok_on_rparen. exact Hok.
  - apply rpn_state_ok_on_comma. exact Hok.
Qed.

Lemma rpn_state_ok_loop toks st st' :
  rpn_state_ok st -> loop st toks = Ok st' -> rpn_state_ok st'.
Proof.
  apply loop_invariant.
  - intros. apply rpn_state_ok_on_call; assumption.
  - intros s t Hk. apply rpn_state_ok_on_operand. rewrite Hk. reflexivity.
  - intros s t s' _ _. apply rpn_state_ok_step.
Qed.

(** When the loop throws, some turn of it threw, in a state the turns
    before had kept in order. *)
Lemma loop_fails_at (I : RpnState -> Prop) :
  (forall st t lp, kind t = Ident -> kind lp = LParen ->
                   I st -> I (on_call st t lp)) ->
  (forall st t, kind t = Ident -> I st -> I (on_operand st t)) ->
  (forall st t st', kind t <> Ident -> kind t <> End ->
                    I st -> step st t = Ok st' -> I st') ->
  forall toks st e, I st -> loop st toks = Err e ->
  exists st1 t, I st1 /\ In t toks /\ step st1 t = Err e.
Proof.
  intros Hcall Hoperand Hstep.
  induction toks as [| x | x y l IHl IHyl] using list_ind2; intros st e Hi.
  - discriminate.
  - destruct (tsexpr_facts.loop_cases st x []) as
      [[_ ->]|[(_ & lp & r & [=] & _)|[(Hk & _ & ->)|(Hne & Hni & ->)]]];
      try discriminate.
    destruct (step st x) as [s1|e1] eqn:Es; [discriminate|].
    intros [= <-]. exists st, x. repeat split; [exact Hi | left; reflexivity | exact Es].
  - destruct (tsexpr_facts.loop_cases st x (y :: l)) as
      [[_ ->]|[(Hk & lp & r & [= <- <-] & Hlp & ->)
              |[(Hk & _ & ->)|(Hne & Hni & ->)]]].
    + discriminate.
    + intros H. destruct (IHl _ _ (Hcall _ _ _ Hk Hlp Hi) H)
        as (s1 & t & ? & ? & ?).
      exists s1, t. repeat split; [assumption | right; right; assumption | assumption].
    + intros H. destruct (IHyl _ _ (Hoperand _ _ Hk Hi) H)
        as (s1 & t & ? & ? & ?).
      exists s1, t. repeat split; [assumption | right; assumption | assumption].
    + destruct (step st x) as [s1|e1] eqn:Es.
      * intros H. destruct (IHyl _ _ (Hstep _ _ _ Hni Hne Hi Es) H)
          as (s2 & t & ? & ? & ?).
        exists s2, t. repeat split; [assumption | right; assumption | assumption].
      * intros [= <-]. exists st, x.
        repeat split; [exact Hi | left; reflexivity | exact Es].
Qed.

Lemma rpn_loop_fails_at toks st e :
  rpn_state_ok st -> loop st toks = Err e ->
  exists st1 t, rpn_state_ok st1 /\ In t toks /\ step st1 t = Err e.
Proof.
  apply loop_fails_at.
  - intros. apply rpn_state_ok_on_call; assumption.
  - intros s t Hk. apply rpn_state_ok_on_operand. rewrite Hk. reflexivity.
  - intros s t s' _ _. apply rpn_state_ok_step.
Qed.

(** In a state in order, closing a call finds its frame. *)
Lemma on_rparen_message st e :
  rpn_state_ok st -> on_rparen st = Err e ->
  e = ParseError "Mismatched ')'".
Proof.
  intros Hok. unfold on_rparen.
  destruct (pop_to_lparen (output st) (opstack st)) as [out ops] eqn:Ep.
  destruct (pop_to_lparen_ok _ _ _ Hok Ep) as (Ho & Hs & Hu & Hc & Hlp).
  destruct ops as [|lp ops1]; [intros [= <-]; reflexivity|].
  destruct ops1 as [|fn ops2]; [discriminate|].
  destruct (kind fn) eqn:Ef; try discriminate.
  destruct (fnstack st) as [|frame fs]; [|discriminate].
  exfalso. simpl in Hc. rewrite Hlp, Ef in Hc.
  unfold count_kind in Hc. simpl in Hc. discriminate.
Qed.

Lemma on_comma_message st e :
  on_comma st = Err e ->
  e = ParseError "Comma not within function call" \/
  e = ParseError "Internal error: comma with no function frame".
Proof.
  unfold on_comma.
  destruct (pop_to_lparen (output st) (opstack st)) as [out ops].
  destruct ops as [|lp ops]; [intros [= <-]; auto|].
  destruct (fnstack st); [intros [= <-]; auto | discriminate].
Qed.

Lemma step_message st t e :
  rpn_state_ok st -> step st t = Err e ->
  exists w, e = ParseError w /\ In w tsexpr_messages.
Proof.
  intros Hok. unfold step.
  destruct (kind t) eqn:Ek;
    try discriminate;
    try (destruct (is_op (kind (retag_minus st t)));
         [discriminate | intros [= <-]; eexists; split; [reflexivity|];
                         simpl; tauto]).
  - intros H. apply (on_rparen_message _ _ Hok) in H as ->.
    eexists; split; [reflexivity|]. simpl; tauto.
  - intros H. apply on_comma_message in H as [-> | ->];
      (eexists; split; [reflexivity|]; simpl; tauto).
Qed.

(** With every function marker under its ['('], the final [while] can
    only fail on a ['(']; and when it does not fail no function marker was
    left, so that no frame is. *)
Lemma drain_message ops : forall out e,
  func_under_paren (map kind ops) = true ->
  drain out ops = Err e -> e = ParseError "Mismatched '('".
Proof.
  induction ops as [|top ops IH]; intros out e Hu; simpl; [discriminate|].
  simpl in Hu. destruct (kind top) eqn:Ek;
    try (apply IH; exact Hu); try discriminate Hu.
  intros [= <-]. reflexivity.
Qed.

Lemma drain_no_frames st out :
  rpn_state_ok st -> drain (output st) (opstack st) = Ok out ->
  fnstack st = [] /\ Forall (fun t => lowerable (kind t) = true) out.
Proof.
  intros (Ho & Hs & _ & Hc) Hd. apply drain_split in Hd as [-> Hn]. split.
  - assert (Hz : count_kind Func (map kind (opstack st)) = 0).
    { clear -Hn. induction Hn as [|t l [_ Hf] _ IH]; [reflexivity|].
      unfold count_kind in *. simpl.
      destruct (kind t); simpl; congruence. }
    rewrite Hz in Hc. destruct (fnstack st); [reflexivity | discriminate].
  - apply Forall_app. split; [exact Ho|].
    rewrite Forall_forall in *. intros t Ht.
    apply stack_kind_lowerable; [auto | apply Hn; exact Ht].
Qed.

Lemma lower_all_lowerable rpn :
  Forall (fun t => lowerable (kind t) = true) rpn ->
  exists code, lower_all rpn = Ok code /\ length code = length rpn.
Proof.
  induction 1 as [|t rpn Ht _ (code & IH & Hl)]; simpl.
  - exists []. auto.
  - unfold lower. rewrite IH.
    destruct (kind t); try discriminate Ht;
      (eexists; split; [reflexivity | simpl; congruence]).
Qed.

Lemma to_rpn_message lex t0 e :
  to_rpn lex t0 = Err e ->
  snd lex = Some e \/ exists w, e = ParseError w /\ In w tsexpr_messages.
Proof.
  unfold to_rpn.
  destruct (loop rpn_init (t0 :: fst lex)) as [st|e1] eqn:El; simpl.
  - pose proof (rpn_state_ok_loop _ _ _ rpn_state_ok_init El) as Hok.
    destruct (snd lex) as [e1|]; [intros [= <-]; auto|].
    destruct (drain (output st) (opstack st)) as [out|e1] eqn:Ed; simpl.
    + destruct (drain_no_frames _ _ Hok Ed) as [-> _]. discriminate.
    + intros [= <-]. destruct Hok as (_ & _ & Hu & _).
      apply (drain_message _ _ _ Hu) in Ed as ->.
      right. eexists; split; [reflexivity|]. simpl; tauto.
  - intros [= <-]. right.
    destruct (rpn_loop_fails_at _ _ _ rpn_state_ok_init El)
      as (st1 & t & Hok & _ & Hs).
    eapply step_message; eauto.
Qed.

Lemma to_rpn_lowerable lex t0 rpn :
  to_rpn lex t0 = Ok rpn -> Forall (fun t => lowerable (kind t) = true) rpn.
Proof.
  unfold to_rpn. intros H.
  apply bind_Ok_inv in H as (st & El & H).
  pose proof (rpn_state_ok_loop _ _ _ rpn_state_ok_init El) as Hok.
  destruct (snd lex); [discriminate|].
  apply bind_Ok_inv in H as (out & Ed & H).
  destruct (drain_no_frames _ _ Hok Ed) as [Hf Hl].
  rewrite Hf in H. inversion H. subst. exact Hl.
Qed.

Lemma lex_next_message (lex : Lexer) e :
  lex_next lex = Err e -> snd lex = Some e.
Proof.
  destruct lex as [[|t l] [e1|]]; simpl; try discriminate.
  intros [= <-]. reflexivity.
Qed.

Lemma lex_next_snd (lex lex' : Lexer) t :
  lex_next lex = Ok (t, lex') -> snd lex' = snd lex.
Proof.
  destruct lex as [[|t1 l] [e1|]]; simpl; try discriminate;
    intros [= <- <-]; reflexivity.
Qed.

Lemma compile_tokens_message lex e :
  compile_tokens lex = Err e ->
  snd lex = Some e \/ exists w, e = ParseError w /\ In w tsexpr_messages.
Proof.
  unfold compile_tokens.
  destruct (lex_next lex) as [[lhs lex1]|e1] eqn:E1; simpl;
    [|intros [= <-]; left; apply lex_next_message; exact E1].
  apply lex_next_snd in E1.
  destruct (kind lhs);
    try (intros [= <-]; right; eexists; split; [reflexivity | simpl; tauto]).
  destruct (lex_next lex1) as [[eq lex2]|e1] eqn:E2; simpl;
    [|intros [= <-]; left; rewrite <- E1; apply lex_next_message; exact E2].
  apply lex_next_snd in E2.
  destruct (kind eq);
    try (intros [= <-]; right; eexists; split; [reflexivity | simpl; tauto]).
  destruct (lex_next lex2) as [[first lex3]|e1] eqn:E3; simpl;
    [|intros [= <-]; left; rewrite <- E1, <- E2; apply lex_next_message;
      exact E3].
  apply lex_next_snd in E3.
  assert (Hrest :
    (rpn <- to_rpn lex3 first ;; code <- lower_all rpn ;;
     Ok (code ++ [mkInstr Store (text lhs) 0%float 0])) = Err e ->
    snd lex = Some e \/ exists w, e = ParseError w /\ In w tsexpr_messages).
  { destruct (to_rpn lex3 first) as [rpn|e1] eqn:Et; simpl.
    - apply to_rpn_lowerable in Et.
      destruct (lower_all_lowerable _ Et) as (code & -> & _). discriminate.
    - intros [= <-]. apply to_rpn_message in Et as [Et | Et]; [|auto].
      left. congruence. }
  destruct (kind first); try exact Hrest.
  intros [= <-]. right. eexists; split; [reflexivity | simpl; tauto].
Qed.

End rpn_facts.

(** ** The parser of [ts::expr]: what its loop keeps *)

Module ts_rpn_facts.

Import ts_expr.

Lemma ts_pop_to_lparen_split ops : forall out,
  exists p q,
    pop_to_lparen out ops = (out ++ p, q) /\ ops = p ++ q /\
    Forall (fun t => kind t <> LParen) p /\
    match q with
    | lp :: _ => kind lp = LParen
    | [] => True
    end.
Proof.
  induction ops as [|top ops IH]; intros out.
  - exists [], []. rewrite app_nil_r. repeat split. constructor.
  - destruct (kind top) eqn:Ek.
    7: { exists [], (top :: ops). simpl. rewrite Ek, app_nil_r.
         repeat split; try constructor; assumption. }
    all: destruct (IH (out ++ [top])) as (p & q & Hp & -> & Hf & Hq);
      exists (top :: p), q; simpl; rewrite Ek, Hp, <- app_assoc;
      repeat split; try exact Hq; constructor; [congruence | exact Hf].
Qed.

Lemma pop_through_lparen_split ops : forall out,
  match pop_through_lparen out ops with
  | Some (o, q) =>
      exists p lp, o = out ++ p /\ ops = p ++ lp :: q /\ kind lp = LParen /\
                   Forall (fun t => kind t <> LParen) p
  | None => Forall (fun t => kind t <> LParen) ops
  end.
Proof.
  induction ops as [|top ops IH]; intros out; simpl; [constructor|].
  destruct (kind top) eqn:Ek.
  7: { exists [], top. rewrite app_nil_r. repeat split; try constructor.
       exact Ek. }
  all: specialize (IH (out ++ [top]));
    destruct (pop_through_lparen (out ++ [top]) ops) as [[o q]|];
    [ destruct IH as (p & lp & -> & -> & Hlp & Hf);
      exists (top :: p), lp; rewrite <- app_assoc;
      repeat split; try assumption; constructor; [congruence | exact Hf]
    | constructor; [congruence | exact IH] ].
Qed.

Lemma ts_pop_operators_split cur ops : forall out,
  exists p q,
    pop_operators cur out ops = (out ++ p, q) /\ ops = p ++ q /\
    Forall (fun t => is_operator (kind t) = true) p.
Proof.
  induction ops as [|top ops IH]; intros out.
  - exists [], []. rewrite app_nil_r. repeat split. constructor.
  - simpl. destruct (is_operator (kind top)) eqn:Eo; simpl.
    + destruct (pop_it (kind top) cur).
      * destruct (IH (out ++ [top])) as (p & q & Hp & -> & Hf).
        exists (top :: p), q. rewrite Hp, <- app_assoc.
        repeat split. constructor; assumption.
      * exists [], (top :: ops). rewrite app_nil_r. repeat split. constructor.
    + exists [], (top :: ops). rewrite app_nil_r. repeat split. constructor.
Qed.

Lemma ts_drain_split ops : forall out r,
  drain out ops = Ok r ->
  r = out ++ ops /\
  Forall (fun t => kind t <> LParen /\ kind t <> Func) ops.
Proof.
  induction ops as [|top ops IH]; intros out r; simpl.
  - intros [= <-]. rewrite app_nil_r. split; constructor.
  - destruct (kind top) eqn:Ek; try discriminate;
      intros H; apply IH in H as [-> Hf]; rewrite <- app_assoc;
      (split; [reflexivity | constructor; [split; congruence | exact Hf]]).
Qed.

Lemma ts_loop_invariant (I : State -> Prop) :
  (forall st t lp, kind t = Ident -> kind lp = LParen ->
                   I st -> I (on_call st t lp)) ->
  (forall st t, kind t = Ident -> I st -> I (on_operand st t)) ->
  (forall st t st', kind t <> Ident -> kind t <> End ->
                    I st -> step st t = Ok st' -> I st') ->
  forall toks st st', I st -> loop st toks = Ok st' -> I st'.
Proof.
  intros Hcall Hoperand Hstep.
  induction toks as [| x | x y l IHl IHyl] using list_ind2; intros st st' Hi.
  - intros [= <-]. exact Hi.
  - destruct (ts_expr_facts.ts_loop_cases st x []) as
      [[_ ->]|[(_ & lp & r & [=] & _)|[(Hk & _ & ->)|(Hne & Hni & ->)]]].
    + intros [= <-]. exact Hi.
    + intros [= <-]. auto.
    + destruct (step st x) as [s1|] eqn:Es; [|discriminate].
      intros [= <-]. eauto.
  - destruct (ts_expr_facts.ts_loop_cases st x (y :: l)) as
      [[_ ->]|[(Hk & lp & r & [= <- <-] & Hlp & ->)
              |[(Hk & _ & ->)|(Hne & Hni & ->)]]].
    + intros [= <-]. exact Hi.
    + apply IHl. auto.
    + apply IHyl. auto.
    + destruct (step st x) as [s1|] eqn:Es; [|discriminate].
      apply IHyl. eauto.
Qed.

Lemma ts_loop_fails_at (I : State -> Prop) :
  (forall st t lp, kind t = Ident -> kind lp = LParen ->
                   I st -> I (on_call st t lp)) ->
  (forall st t, kind t = Ident -> I st -> I (on_operand st t)) ->
  (forall st t st', kind t <> Ident -> kind t <> End ->
                    I st -> step st t = Ok st' -> I st') ->
  forall toks st e, I st -> loop st toks = Err e ->
  exists st1 t,
    I st1 /\ In t toks /\ kind t <> Ident /\ step st1 t = Err e.
Proof.
  intros Hcall Hoperand Hstep.
  induction toks as [| x | x y l IHl IHyl] using list_ind2; intros st e Hi.
  - discriminate.
  - destruct (ts_expr_facts.ts_loop_cases st x []) as
      [[_ ->]|[(_ & lp & r & [=] & _)|[(Hk & _ & ->)|(Hne & Hni & ->)]]];
      try discriminate.
    destruct (step st x) as [s1|e1] eqn:Es; [discriminate|].
    intros [= <-]. exists st, x.
    repeat split; [exact Hi | left; reflexivity | exact Hni | exact Es].
  - destruct (ts_expr_facts.ts_loop_cases st x (y :: l)) as
      [[_ ->]|[(Hk & lp & r & [= <- <-] & Hlp & ->)
              |[(Hk & _ & ->)|(Hne & Hni & ->)]]].
    + discriminate.
    + intros H. destruct (IHl _ _ (Hcall _ _ _ Hk Hlp Hi) H)
        as (s1 & t & ? & ? & ? & ?).
      exists s1, t.
      repeat split; [assumption | right; right; assumption | assumption
                    | assumption].
    + intros H. destruct (IHyl _ _ (Hoperand _ _ Hk Hi) H)
        as (s1 & t & ? & ? & ? & ?).
      exists s1, t.
      repeat split; [assumption | right; assumption | assumption | assumption].
    + destruct (step st x) as [s1|e1] eqn:Es.
      * intros H. destruct (IHyl _ _ (Hstep _ _ _ Hni Hne Hi Es) H)
          as (s2 & t & ? & ? & ? & ?).
        exists s2, t.
        repeat split; [assumption | right; assumption | assumption
                      | assumption].
      * intros [= <-]. exists st, x.
        repeat split; [exact Hi | left; reflexivity | exact Hni | exact Es].
Qed.

Lemma ts_stack_kind_lowerable k :
  stack_kind k = true -> k <> LParen -> lowerable k = true.
Proof. destruct k; simpl; congruence. Qed.

Lemma is_operator_kinds k :
  is_operator k = true -> lowerable k = true /\ stack_kind k = true.
Proof. destruct k; simpl; repeat split; congruence. Qed.

Lemma ts_state_ok_init : ts_state_ok init.
Proof. split; constructor. Qed.

Lemma ts_state_ok_on_call st t lp :
  kind lp = LParen -> ts_state_ok st -> ts_state_ok (on_call st t lp).
Proof.
  intros Hlp [Ho Hs]. split; simpl; [exact Ho|].
  constructor; [rewrite Hlp; reflexivity|]. constructor; [reflexivity|].
  exact Hs.
Qed.

Lemma ts_state_ok_on_operand st t :
  is_operand (kind t) = true -> ts_state_ok st -> ts_state_ok (on_operand st t).
Proof.
  intros Hk [Ho Hs]. split; simpl; [|exact Hs].
  apply Forall_app. split; [exact Ho|]. constructor; [|constructor].
  destruct (kind t); simpl in *; congruence.
Qed.

Lemma popped_lowerable (p : list Token) :
  Forall (fun t => stack_kind (kind t) = true) p ->
  Forall (fun t => kind t <> LParen) p ->
  Forall (fun t => lowerable (kind t) = true) p.
Proof.
  rewrite !Forall_forall. intros Hs Hn t Ht.
  apply ts_stack_kind_lowerable; auto.
Qed.

Lemma ts_state_ok_on_comma st st' :
  ts_state_ok st -> on_comma st = Ok st' -> ts_state_ok st'.
Proof.
  intros [Ho Hs]. unfold on_comma.
  destruct (func_stack st) as [|c fs]; [discriminate|].
  destruct (negb (depth c =? 1)%Z); [discriminate|].
  destruct (ts_pop_to_lparen_split (opstack st) (output st))
    as (p & q & -> & Hops & Hn & _).
  rewrite Hops in Hs. apply Forall_app in Hs as [Hsp Hsq].
  destruct q; [discriminate|]. intros [= <-]. split; simpl; [|exact Hsq].
  apply Forall_app. split; [exact Ho|]. apply popped_lowerable; assumption.
Qed.

Lemma ts_state_ok_on_rparen st st' :
  ts_state_ok st -> on_rparen st = Ok st' -> ts_state_ok st'.
Proof.
  intros [Ho Hs]. unfold on_rparen. intros H.
  apply bind_Ok_inv in H as ([fstack closes] & _ & H).
  pose proof (pop_through_lparen_split (opstack st) (output st)) as Hp.
  destruct (pop_through_lparen (output st) (opstack st)) as [[o q]|];
    [|discriminate].
  destruct Hp as (p & lp & -> & Hops & _ & Hn).
  rewrite Hops in Hs. apply Forall_app in Hs as [Hsp Hsq].
  apply Forall_cons in Hsq as [_ Hsq].
  assert (Hout : Forall (fun t => lowerable (kind t) = true) (output st ++ p)).
  { apply Forall_app. split; [exact Ho|]. apply popped_lowerable; assumption. }
  destruct closes.
  - destruct q as [|fn q']; [discriminate|].
    destruct (is_function (kind fn)) eqn:Ef; [|discriminate].
    destruct fstack as [|ctx fs]; [discriminate|].
    destruct (saw_expr ctx); [|discriminate].
    inversion H. subst. apply Forall_cons in Hsq as [_ Hsq].
    split; simpl; [|exact Hsq].
    apply Forall_app. split; [exact Hout|]. constructor; [|constructor].
    simpl. apply TokKind_eqb_eq in Ef. rewrite Ef. reflexivity.
  - inversion H. subst. split; assumption.
Qed.

Lemma ts_state_ok_on_operator st t :
  is_operator (kind t) = true -> ts_state_ok st ->
  ts_state_ok (on_operator st t).
Proof.
  intros Hk [Ho Hs]. unfold on_operator.
  destruct (ts_pop_operators_split (kind t) (opstack st) (output st))
    as (p & q & -> & Hops & Hp).
  rewrite Hops in Hs. apply Forall_app in Hs as [Hsp Hsq].
  split; simpl.
  - apply Forall_app. split; [exact Ho|].
    rewrite Forall_forall in *. intros x Hx. apply is_operator_kinds. auto.
  - constructor; [apply is_operator_kinds; exact Hk | exact Hsq].
Qed.

Lemma ts_state_ok_step st t st' :
  ts_state_ok st -> step st t = Ok st' -> ts_state_ok st'.
Proof.
  intros Hok. unfold step.
  destruct (kind t) eqn:Ek;
    try (destruct (is_operator (kind (retag_minus st t))) eqn:Eo;
         [intros [= <-]; apply ts_state_ok_on_operator; assumption
         | destruct (kind (retag_minus st t)); discriminate]).
  - intros [= <-]. apply ts_state_ok_on_operand; [rewrite Ek; reflexivity|].
    exact Hok.
  - intros [= <-]. destruct Hok as [Ho Hs]. split; simpl; [exact Ho|].
    constructor; [rewrite Ek; reflexivity | exact Hs].
  - apply ts_state_ok_on_rparen. exact Hok.
  - apply ts_state_ok_on_comma. exact Hok.
Qed.

(** The state as the loop keeps it: the kinds, and the shape of the
    stacks. *)
Lemma state_loop toks st st' :
  ts_state_ok st /\ well_formed st -> loop st toks = Ok st' ->
  ts_state_ok st' /\ well_formed st'.
Proof.
  apply (ts_loop_invariant (fun s => ts_state_ok s /\ well_formed s)).
  - intros s t lp _ Hlp [H1 H2]. split.
    + apply ts_state_ok_on_call; assumption.
    + apply arity_facts.well_formed_on_call; assumption.
  - intros s t Hk [H1 H2]. split.
    + apply ts_state_ok_on_operand; [rewrite Hk; reflexivity | exact H1].
    + apply arity_facts.well_formed_on_operand; [congruence | exact H2].
  - intros s t s' _ _ [H1 H2] Hs. split.
    + eapply ts_state_ok_step; eauto.
    + eapply arity_facts.well_formed_step; eauto.
Qed.

Lemma state_fails_at toks st e :
  ts_state_ok st /\ well_formed st -> loop st toks = Err e ->
  exists st1 t,
    (ts_state_ok st1 /\ well_formed st1) /\ In t toks /\ kind t <> Ident /\
    step st1 t = Err e.
Proof.
  apply (ts_loop_fails_at (fun s => ts_state_ok s /\ well_formed s)).
  - intros s t lp _ Hlp [H1 H2]. split.
    + apply ts_state_ok_on_call; assumption.
    + apply arity_facts.well_formed_on_call; assumption.
  - intros s t Hk [H1 H2]. split.
    + apply ts_state_ok_on_operand; [rewrite Hk; reflexivity | exact H1].
    + apply arity_facts.well_formed_on_operand; [congruence | exact H2].
  - intros s t s' _ _ [H1 H2] Hs. split.
    + eapply ts_state_ok_step; eauto.
    + eapply arity_facts.well_formed_step; eauto.
Qed.

Lemma ts_on_comma_message st e :
  well_formed st -> on_comma st = Err e ->
  e = ParseError
    "Unexpected ',' (commas are only valid inside function argument lists)".
Proof.
  intros (Hs & _ & Ho). unfold on_comma.
  destruct (func_stack st) as [|c fs] eqn:Hfs; [intros [= <-]; reflexivity|].
  destruct (Z.eqb_spec (depth c) 1) as [Hd|Hd]; simpl;
    [|intros [= <-]; reflexivity].
  destruct (arity_facts.pop_to_lparen_shape _ _ (output st) Hs Ho) as [Hs' _].
  destruct (pop_to_lparen (output st) (opstack st)) as [o p].
  simpl in Hs'. rewrite Hd in Hs'.
  destruct p as [|lp p]; [inversion Hs' | discriminate].
Qed.

Lemma ts_on_rparen_message st e :
  well_formed st -> on_rparen st = Err e ->
  e = ParseError "Mismatched ')'" \/
  e = ParseError "Function call has empty argument list".
Proof.
  intros (Hs & _ & Ho). unfold on_rparen.
  pose proof (arity_facts.shape_depth_pos _ _ Hs) as Hpos.
  destruct (func_stack st) as [|c fs] eqn:Hfs; simpl.
  - destruct (pop_through_lparen (output st) (opstack st)) as [[o q]|];
      [discriminate | intros [= <-]; auto].
  - simpl in Hpos. apply Forall_cons in Hpos as [Hc _].
    destruct (Z.ltb_spec (depth c - 1) 0) as [Hlt|_]; [lia|]. simpl.
    destruct (pop_through_lparen (output st) (opstack st)) as [[o q]|] eqn:Ep;
      [|intros [= <-]; auto].
    destruct (Z.eqb_spec (depth c - 1) 0) as [Hz|_]; [|discriminate].
    destruct (arity_facts.pop_through_lparen_shape _ _ _ _ _ Hs Ho Ep)
      as [_ [[Hds _] | [(d & ds' & Hds & Hd & _) |
                        (ds' & fn & p' & _ & -> & Hfn & _)]]].
    + discriminate Hds.
    + simpl in Hds. inversion Hds. lia.
    + unfold is_function. rewrite Hfn. simpl.
      destruct (saw_expr c); [discriminate | intros [= <-]; auto].
Qed.

Lemma ts_drain_message ds ops : forall out e,
  call_shape ds ops -> drain out ops = Err e ->
  e = ParseError "Mismatched '('".
Proof.
  intros out e Hs. revert out.
  induction Hs as [| ds t ops Ht _ IH | t ops Ht _ _ | d ds t ops Ht _ _ _
                  | ds lp fn ops Hlp _ _ _]; intros out; simpl.
  - discriminate.
  - destruct (kind t); try discriminate Ht; apply IH.
  - rewrite Ht. intros [= <-]. reflexivity.
  - rewrite Ht. intros [= <-]. reflexivity.
  - rewrite Hlp. intros [= <-]. reflexivity.
Qed.

(** A token of the lexer that no case of the loop takes is ['=']. *)
Lemma ts_step_message st t e :
  well_formed st -> lexer_kind (kind t) = true -> kind t <> Ident ->
  step st t = Err e ->
  exists w, e = ParseError w /\ In w ts_expr_messages.
Proof.
  intros Hw Hk Hni. unfold step.
  destruct (kind t) eqn:Ek; try discriminate Hk; try congruence.
  5: { intros H. apply (ts_on_rparen_message _ _ Hw) in H as [-> | ->];
         (eexists; split; [reflexivity | simpl; tauto]). }
  5: { intros H. apply (ts_on_comma_message _ _ Hw) in H as ->.
       eexists; split; [reflexivity | simpl; tauto]. }
  all: unfold retag_minus; rewrite Ek;
    try (destruct (expect_operand st)); simpl; rewrite ?Ek; simpl;
    try discriminate.
  all: intros [= <-]; eexists; split; [reflexivity | simpl; tauto].
Qed.

Lemma ts_lex_next_message (lex : Lexer) e :
  lex_next lex = Err e -> snd lex = Some e.
Proof.
  destruct lex as [[|t l] [e1|]]; simpl; try discriminate.
  intros [= <-]. reflexivity.
Qed.

Lemma lex_next_inv (lex lex' : Lexer) t (P : Token -> Prop) :
  lex_next lex = Ok (t, lex') ->
  snd lex' = snd lex /\ (Forall P (fst lex) -> Forall P (fst lex')).
Proof.
  destruct lex as [[|t1 l] [e1|]]; simpl; try discriminate;
    intros [= <- <-]; simpl; split; try reflexivity; try tauto;
    intros H; apply Forall_cons in H as [_ H]; exact H.
Qed.

Lemma ts_compile_tokens_message lex e :
  Forall (fun t => lexer_kind (kind t) = true) (fst lex) ->
  compile_tokens lex = Err e ->
  snd lex = Some e \/ exists w, e = ParseError w /\ In w ts_expr_messages.
Proof.
  intros Hlex. unfold compile_tokens.
  destruct (lex_next lex) as [[lhs lex1]|e1] eqn:E1; simpl;
    [|intros [= <-]; left; apply ts_lex_next_message; exact E1].
  apply (lex_next_inv _ _ _ (fun t => lexer_kind (kind t) = true)) in E1
    as [E1 F1].
  destruct (kind lhs);
    try (intros [= <-]; right; eexists; split; [reflexivity | simpl; tauto]).
  destruct (lex_next lex1) as [[eq lex2]|e1] eqn:E2; simpl;
    [|intros [= <-]; left; rewrite <- E1; apply ts_lex_next_message; exact E2].
  apply (lex_next_inv _ _ _ (fun t => lexer_kind (kind t) = true)) in E2
    as [E2 F2].
  destruct (kind eq);
    try (intros [= <-]; right; eexists; split; [reflexivity | simpl; tauto]).
  assert (Hl2 : Forall (fun t => lexer_kind (kind t) = true) (fst lex2))
    by auto.
  destruct (loop init (fst lex2)) as [st|e1] eqn:El; simpl.
  - destruct (state_loop _ _ _ (conj ts_state_ok_init
                                     arity_facts.well_formed_init) El)
      as [_ (Hs & _)].
    destruct (snd lex2) as [e1|] eqn:Es; [intros [= <-]; left; congruence|].
    destruct (drain (output st) (opstack st)) as [out|e1] eqn:Ed; simpl;
      [discriminate|].
    intros [= <-]. apply (ts_drain_message _ _ _ _ Hs) in Ed as ->.
    right. eexists; split; [reflexivity | simpl; tauto].
  - intros [= <-]. right.
    destruct (state_fails_at _ _ _ (conj ts_state_ok_init
                                         arity_facts.well_formed_init) El)
      as (st1 & t & [_ Hw] & Hin & Hni & Hs).
    eapply ts_step_message; eauto.
    apply (proj1 (List.Forall_forall _ _) Hl2). exact Hin.
Qed.

Lemma compile_tokens_lowerable lex c :
  compile_tokens lex = Ok c ->
  Forall (fun t => lowerable (kind t) = true) (rpn c).
Proof.
  unfold compile_tokens. intros H.
  apply bind_Ok_inv in H as ([lhs lex1] & _ & H).
  destruct (kind lhs); try discriminate.
  apply bind_Ok_inv in H as ([eq lex2] & _ & H).
  destruct (kind eq); try discriminate.
  apply bind_Ok_inv in H as (st & Hst & H).
  destruct (snd lex2); [discriminate|].
  apply bind_Ok_inv in H as (out & Hd & [= <-]). simpl.
  destruct (state_loop _ _ _ (conj ts_state_ok_init
                                   arity_facts.well_formed_init) Hst)
    as [[Ho Hs] _].
  apply ts_drain_split in Hd as [-> Hn].
  apply Forall_app. split; [exact Ho|].
  rewrite Forall_forall in *. intros t Ht.
  apply ts_stack_kind_lowerable; [auto | apply Hn; exact Ht].
Qed.

End ts_rpn_facts.

(** X6.  The diagnostics of [tsexpr::compile]: whenever it throws, it
    throws a [ParseError] whose text is one of the three of the lexer or
    one of eight of the parser; each of the eight is thrown on some input.
    The checks for "Mismatched function call", "Internal error: function
    close with no frame" and "Unsupported token in RPN compilation" are not
    among them: they never fire. *)
Theorem X6_tsexpr_compile_diagnostics :
  (forall strtod (input : string) (e : Error),
      tsexpr.compile strtod input = Err e ->
      exists w, e = ParseError w /\
                (lexer_message w \/ In w tsexpr_messages)) /\
  Forall (fun w => exists input,
            tsexpr.compile libc.strtod_dec input = Err (ParseError w))
         tsexpr_messages.
Proof.
  split.
  - intros strtod input e H. unfold tsexpr.compile in H.
    apply rpn_facts.compile_tokens_message in H as [H | (w & -> & H)].
    + apply lexing.tokens_upto_error in H as (w & -> & H). eauto.
    + eauto.
  - unfold tsexpr_messages. repeat constructor.
    + exists "= 1". vm_compute. reflexivity.
    + exists "z 1". vm_compute. reflexivity.
    + exists "z =". vm_compute. reflexivity.
    + exists "z = 1, 2". vm_compute. reflexivity.
    + exists "z = (1, 2)". vm_compute. reflexivity.
    + exists "z = 1)". vm_compute. reflexivity.
    + exists "z = = 1". vm_compute. reflexivity.
    + exists "z = (1". vm_compute. reflexivity.
Qed.

Lemma X6_tsexpr_compile_diagnostics_witness :
  exists w, ParseError "Mismatched '('" = ParseError w /\
            (lexer_message w \/ In w tsexpr_messages).
Proof.
  apply (proj1 X6_tsexpr_compile_diagnostics libc.strtod_dec "z = (a + 2").
  vm_compute. reflexivity.
Defined.

(** X7.  The diagnostics of [ts::expr::compile]: whenever it throws, it
    throws a [ParseError] whose text is one of the three of the lexer or
    one of seven of the parser; each of the seven is thrown on some input.
    The checks for "Unexpected ','", "Internal error: function context
    without function token", "Mismatched function call" and "Unexpected
    token in expression" are not among them: they never fire. *)
Theorem X7_ts_expr_compile_diagnostics :
  (forall strtod (input : string) (e : Error),
      ts_expr.compile strtod input = Err e ->
      exists w, e = ParseError w /\
                (lexer_message w \/ In w ts_expr_messages)) /\
  Forall (fun w => exists input,
            ts_expr.compile libc.strtod_dec input = Err (ParseError w))
         ts_expr_messages.
Proof.
  split.
  - intros strtod input e H. unfold ts_expr.compile in H.
    apply ts_rpn_facts.ts_compile_tokens_message in H as [H | (w & -> & H)].
    + rewrite lexer_facts.tokens_conv in H. simpl in H.
      apply lexing.tokens_upto_error in H as (w & -> & H). eauto.
    + eauto.
    + rewrite lexer_facts.tokens_conv. simpl.
      pose proof (lexing.tokens_upto_lexer_token strtod
                    (S (String.length input)) input) as Hl.
      fold (tsexpr.tokens strtod input) in Hl.
      induction Hl as [|t l [Ht _] _ IH]; simpl; constructor; assumption.
  - unfold ts_expr_messages. repeat constructor.
    + exists "= 1". vm_compute. reflexivity.
    + exists "z 1". vm_compute. reflexivity.
    + exists "z = 1, 2". vm_compute. reflexivity.
    + exists "z = 1)". vm_compute. reflexivity.
    + exists "z = f()". vm_compute. reflexivity.
    + exists "z = = 1". vm_compute. reflexivity.
    + exists "z = (1". vm_compute. reflexivity.
Qed.

Lemma X7_ts_expr_compile_diagnostics_witness :
  exists w, ParseError "Function call has empty argument list" = ParseError w /\
            (lexer_message w \/ In w ts_expr_messages).
Proof.
  apply (proj1 X7_ts_expr_compile_diagnostics libc.strtod_dec "z = f(g(1))").
  vm_compute. reflexivity.
Defined.

(** ** Parentheses and operands through the two parsers *)

Module paren_facts.

Lemma open_parens_app {T : Type} (kind : T -> TokKind) (p q : list T) :
  Forall (fun t => kind t <> LParen) p ->
  open_parens kind (p ++ q) = open_parens kind q.
Proof.
  unfold open_parens, count_kind. induction 1 as [|t p Ht _ IH]; simpl.
  - reflexivity.
  - destruct (kind t); simpl; congruence.
Qed.

Lemma open_parens_cons {T : Type} (kind : T -> TokKind) (t : T) (q : list T) :
  open_parens kind (t :: q) =
  match kind t with
  | LParen => S (open_parens kind q)
  | _ => open_parens kind q
  end.
Proof. unfold open_parens, count_kind. simpl. destruct (kind t); reflexivity. Qed.

Lemma operand_tokens_app {T : Type} (kind : T -> TokKind) (a b : list T) :
  operand_tokens kind (a ++ b) = operand_tokens kind a ++ operand_tokens kind b.
Proof. apply List.filter_app. Qed.

Lemma operand_tokens_none {T : Type} (kind : T -> TokKind) (p : list T) :
  Forall (fun t => stack_kind (kind t) = true) p -> operand_tokens kind p = [].
Proof.
  unfold operand_tokens. induction 1 as [|t p Ht _ IH]; simpl; [reflexivity|].
  destruct (kind t); simpl in *; congruence.
Qed.

Lemma paren_depth_skip (k : TokKind) (d : nat) (ks : list TokKind) :
  k <> LParen -> k <> RParen -> paren_depth d (k :: ks) = paren_depth d ks.
Proof. destruct k; simpl; congruence. Qed.

End paren_facts.

Module rpn_scan.

Import tsexpr.

Lemma on_operator_scan st t :
  rpn_state_ok st -> is_op (kind t) = true ->
  open_parens kind (opstack (on_operator st t)) = open_parens kind (opstack st) /\
  operand_tokens kind (output (on_operator st t)) =
    operand_tokens kind (output st).
Proof.
  intros (Ho & Hs & Hu & Hc) Hk. unfold on_operator.
  destruct (rpn_facts.pop_operators_split (kind t) (opstack st) (output st))
    as (p & q & -> & Hops & Hp).
  cbn [output opstack]. rewrite Hops in *.
  apply Forall_app in Hs as [Hsp Hsq]. split.
  - rewrite paren_facts.open_parens_cons, paren_facts.open_parens_app.
    + destruct (kind t); simpl in Hk; congruence.
    + rewrite Forall_forall in *. intros x Hx Hl. specialize (Hp x Hx).
      rewrite Hl in Hp. discriminate.
  - rewrite paren_facts.operand_tokens_app,
      (paren_facts.operand_tokens_none _ p Hsp), app_nil_r. reflexivity.
Qed.

Lemma on_comma_scan st st' :
  rpn_state_ok st -> on_comma st = Ok st' ->
  open_parens kind (opstack st') = open_parens kind (opstack st) /\
  operand_tokens kind (output st') = operand_tokens kind (output st).
Proof.
  intros (Ho & Hs & Hu & Hc). unfold on_comma.
  destruct (rpn_facts.pop_to_lparen_split (opstack st) (output st))
    as (p & q & -> & Hops & Hp & _).
  rewrite Hops in *. apply Forall_app in Hs as [Hsp Hsq].
  destruct q as [|lp q]; [discriminate|].
  destruct (fnstack st); [discriminate|]. intros [= <-]. cbn [output opstack].
  split.
  - rewrite paren_facts.open_parens_app by exact Hp. reflexivity.
  - rewrite paren_facts.operand_tokens_app,
      (paren_facts.operand_tokens_none _ p Hsp), app_nil_r. reflexivity.
Qed.

Lemma on_rparen_scan st st' :
  rpn_state_ok st -> on_rparen st = Ok st' ->
  open_parens kind (opstack st) = S (open_parens kind (opstack st')) /\
  operand_tokens kind (output st') = operand_tokens kind (output st).
Proof.
  intros (Ho & Hs & Hu & Hc). unfold on_rparen.
  destruct (rpn_facts.pop_to_lparen_split (opstack st) (output st))
    as (p & q & -> & Hops & Hp & Hq).
  rewrite Hops in *. apply Forall_app in Hs as [Hsp Hsq].
  rewrite paren_facts.open_parens_app by exact Hp.
  assert (Hout : operand_tokens kind (output st ++ p) =
                 operand_tokens kind (output st)).
  { rewrite paren_facts.operand_tokens_app,
      (paren_facts.operand_tokens_none _ p Hsp), app_nil_r. reflexivity. }
  destruct q as [|lp q1]; [discriminate|].
  rewrite paren_facts.open_parens_cons, Hq.
  destruct q1 as [|fn q2]; [intros [= <-]; cbn [output opstack]; auto|].
  destruct (kind fn) eqn:Ef;
    try (intros [= <-]; cbn [output opstack]; auto; fail).
  destruct (fnstack st) as [|frame fs]; [discriminate|].
  intros [= <-]. cbn [output opstack].
  rewrite paren_facts.open_parens_cons, Ef. split; [reflexivity|].
  rewrite paren_facts.operand_tokens_app, Hout.
  unfold operand_tokens at 2. simpl. rewrite app_nil_r. reflexivity.
Qed.

(** One turn of the loop against the count of open parentheses and the
    operands put out. *)
Lemma step_scan st t st' (ks : list TokKind) :
  rpn_state_ok st -> kind t <> Ident -> step st t = Ok st' ->
  paren_depth (open_parens kind (opstack st)) (kind t :: ks) =
    paren_depth (open_parens kind (opstack st')) ks /\
  operand_tokens kind (output st') =
    operand_tokens kind (output st) ++ match kind t with
                                       | Number => [t]
                                       | _ => []
                                       end.
Proof.
  intros Hok Hni. unfold step.
  destruct (kind t) eqn:Ek; try congruence;
    try (destruct (is_op (kind (retag_minus st t))) eqn:Eo; [|discriminate];
         intros [= <-];
         destruct (on_operator_scan st _ Hok Eo) as [-> ->];
         rewrite app_nil_r; split; reflexivity).
  - intros [= <-]. split; [reflexivity|]. cbn [output on_operand].
    rewrite paren_facts.operand_tokens_app. unfold operand_tokens at 2.
    simpl. rewrite Ek. reflexivity.
  - intros [= <-]. cbn [output opstack on_lparen].
    rewrite paren_facts.open_parens_cons, Ek, app_nil_r. split; reflexivity.
  - intros H. destruct (on_rparen_scan _ _ Hok H) as [-> ->].
    rewrite app_nil_r. split; reflexivity.
  - intros H. destruct (on_comma_scan _ _ Hok H) as [-> ->].
    rewrite app_nil_r. split; reflexivity.
Qed.

Lemma loop_scan toks : forall st st',
  rpn_state_ok st -> no_End toks -> loop st toks = Ok st' ->
  paren_depth (open_parens kind (opstack st)) (map kind toks) =
    Some (open_parens kind (opstack st')) /\
  operand_tokens kind (output st') =
    operand_tokens kind (output st) ++ operands_of kind toks.
Proof.
  induction toks as [| x | x y l IHl IHyl] using list_ind2;
    intros st st' Hok Hne.
  - intros [= <-]. rewrite app_nil_r. split; reflexivity.
  - apply Forall_cons in Hne as [Hx _].
    destruct (tsexpr_facts.loop_cases st x []) as
      [[? _]|[(_ & lp & r & [=] & _)|[(Hk & _ & ->)|(_ & Hni & ->)]]];
      [congruence | |].
    + intros [= <-]. simpl. rewrite Hk. cbn [output opstack on_operand].
      rewrite paren_facts.operand_tokens_app. unfold operand_tokens at 2.
      simpl. rewrite Hk. split; reflexivity.
    + destruct (step st x) as [s1|] eqn:Es; [|discriminate].
      intros [= <-]. destruct (step_scan _ _ _ [] Hok Hni Es) as [H1 H2].
      simpl map. rewrite H1, H2. split; [reflexivity|].
      simpl. destruct (kind x); try reflexivity. congruence.
  - apply Forall_cons in Hne as [Hx Hne].
    pose proof Hne as Hyl. apply Forall_cons in Hne as [Hy Hne].
    destruct (tsexpr_facts.loop_cases st x (y :: l)) as
      [[? _]|[(Hk & lp & r & [= <- <-] & Hlp & ->)
              |[(Hk & Hh & ->)|(_ & Hni & ->)]]]; [congruence | | |].
    + intros H.
      destruct (IHl _ _ (rpn_facts.rpn_state_ok_on_call _ x _ Hlp Hok) Hne H)
        as [H1 H2].
      simpl map. simpl operands_of. rewrite Hk, Hlp.
      cbn [opstack output on_call] in H1, H2.
      rewrite !paren_facts.open_parens_cons, Hlp in H1. simpl in H1.
      simpl paren_depth. split; [exact H1 | exact H2].
    + intros H.
      assert (Hop : is_operand (kind x) = true) by (rewrite Hk; reflexivity).
      destruct (IHyl _ _ (rpn_facts.rpn_state_ok_on_operand _ _ Hop Hok) Hyl H)
        as [H1 H2].
      cbn [opstack output on_operand] in H1, H2.
      rewrite paren_facts.operand_tokens_app in H2.
      unfold operand_tokens at 3 in H2. simpl in H2. rewrite Hk in H2.
      simpl in H2. rewrite <- app_assoc in H2. simpl in Hh.
      change (map kind (x :: y :: l)) with (kind x :: map kind (y :: l)).
      rewrite paren_facts.paren_depth_skip by congruence.
      split; [exact H1|]. rewrite H2. simpl. rewrite Hk.
      destruct (kind y); try reflexivity. congruence.
    + destruct (step st x) as [s1|] eqn:Es; [|discriminate].
      intros H.
      destruct (step_scan _ _ _ (map kind (y :: l)) Hok Hni Es) as [H1 H2].
      destruct (IHyl _ _ (rpn_facts.rpn_state_ok_step _ _ _ Hok Es) Hyl H)
        as [H3 H4].
      change (map kind (x :: y :: l)) with (kind x :: map kind (y :: l)).
      rewrite H1, H3, H4, H2, <- app_assoc. split; [reflexivity|].
      f_equal. change (operands_of kind (x :: y :: l)) with
        match kind x with
        | Number => x :: operands_of kind (y :: l)
        | Ident =>
            match kind y with
            | LParen => operands_of kind (y :: l)
            | _ => x :: operands_of kind (y :: l)
            end
        | _ => operands_of kind (y :: l)
        end.
      destruct (kind x); try reflexivity. congruence.
Qed.

End rpn_scan.

Module ts_scan.

Import ts_expr.

Lemma ts_on_operator_scan st t :
  ts_state_ok st -> is_operator (kind t) = true ->
  open_parens kind (opstack (on_operator st t)) = open_parens kind (opstack st) /\
  operand_tokens kind (output (on_operator st t)) =
    operand_tokens kind (output st).
Proof.
  intros (Ho & Hs) Hk. unfold on_operator.
  destruct (ts_rpn_facts.ts_pop_operators_split (kind t) (opstack st) (output st))
    as (p & q & -> & Hops & Hp).
  cbn [output opstack]. rewrite Hops in *.
  apply Forall_app in Hs as [Hsp Hsq]. split.
  - rewrite paren_facts.open_parens_cons, paren_facts.open_parens_app.
    + destruct (kind t); simpl in Hk; congruence.
    + rewrite Forall_forall in *. intros x Hx Hl. specialize (Hp x Hx).
      rewrite Hl in Hp. discriminate.
  - rewrite paren_facts.operand_tokens_app,
      (paren_facts.operand_tokens_none _ p Hsp), app_nil_r. reflexivity.
Qed.

Lemma ts_on_comma_scan st st' :
  ts_state_ok st -> on_comma st = Ok st' ->
  open_parens kind (opstack st') = open_parens kind (opstack st) /\
  operand_tokens kind (output st') = operand_tokens kind (output st).
Proof.
  intros (Ho & Hs). unfold on_comma.
  destruct (func_stack st) as [|c fs]; [discriminate|].
  destruct (negb (depth c =? 1)%Z); [discriminate|].
  destruct (ts_rpn_facts.ts_pop_to_lparen_split (opstack st) (output st))
    as (p & q & -> & Hops & Hp & _).
  rewrite Hops in *. apply Forall_app in Hs as [Hsp Hsq].
  destruct q as [|lp q]; [discriminate|].
  intros [= <-]. cbn [output opstack]. split.
  - rewrite paren_facts.open_parens_app by exact Hp. reflexivity.
  - rewrite paren_facts.operand_tokens_app,
      (paren_facts.operand_tokens_none _ p Hsp), app_nil_r. reflexivity.
Qed.

Lemma ts_on_rparen_scan st st' :
  ts_state_ok st -> on_rparen st = Ok st' ->
  open_parens kind (opstack st) = S (open_parens kind (opstack st')) /\
  operand_tokens kind (output st') = operand_tokens kind (output st).
Proof.
  intros (Ho & Hs). unfold on_rparen. intros H.
  apply bind_Ok_inv in H as ([fstack closes] & _ & H).
  pose proof (ts_rpn_facts.pop_through_lparen_split (opstack st) (output st))
    as Hp.
  destruct (pop_through_lparen (output st) (opstack st)) as [[o q]|];
    [|discriminate].
  destruct Hp as (p & lp & -> & Hops & Hlp & Hn).
  rewrite Hops in *. apply Forall_app in Hs as [Hsp Hsq].
  rewrite paren_facts.open_parens_app by exact Hn.
  rewrite paren_facts.open_parens_cons, Hlp.
  assert (Hout : operand_tokens kind (output st ++ p) =
                 operand_tokens kind (output st)).
  { rewrite paren_facts.operand_tokens_app,
      (paren_facts.operand_tokens_none _ p Hsp), app_nil_r. reflexivity. }
  destruct closes.
  - destruct q as [|fn q']; [discriminate|].
    destruct (is_function (kind fn)) eqn:Ef; [|discriminate].
    destruct fstack as [|ctx fs]; [discriminate|].
    destruct (saw_expr ctx); [|discriminate].
    inversion H. subst. cbn [output opstack].
    apply TokKind_eqb_eq in Ef.
    rewrite paren_facts.open_parens_cons, Ef. split; [reflexivity|].
    rewrite paren_facts.operand_tokens_app, Hout.
    unfold operand_tokens at 2. simpl. rewrite app_nil_r. reflexivity.
  - inversion H. subst. cbn [output opstack]. auto.
Qed.

Lemma ts_step_scan st t st' (ks : list TokKind) :
  ts_state_ok st -> kind t <> Ident -> step st t = Ok st' ->
  paren_depth (open_parens kind (opstack st)) (kind t :: ks) =
    paren_depth (open_parens kind (opstack st')) ks /\
  operand_tokens kind (output st') =
    operand_tokens kind (output st) ++ match kind t with
                                       | Number => [t]
                                       | _ => []
                                       end.
Proof.
  intros Hok Hni. unfold step.
  destruct (kind t) eqn:Ek; try congruence;
    try (destruct (is_operator (kind (retag_minus st t))) eqn:Eo;
         [|destruct (kind (retag_minus st t)); discriminate];
         intros [= <-];
         destruct (ts_on_operator_scan st _ Hok Eo) as [-> ->];
         rewrite app_nil_r; split; reflexivity).
  - intros [= <-]. split; [reflexivity|]. cbn [output on_operand].
    rewrite paren_facts.operand_tokens_app. unfold operand_tokens at 2.
    simpl. rewrite Ek. reflexivity.
  - intros [= <-]. cbn [output opstack on_lparen].
    rewrite paren_facts.open_parens_cons, Ek, app_nil_r. split; reflexivity.
  - intros H. destruct (ts_on_rparen_scan _ _ Hok H) as [-> ->].
    rewrite app_nil_r. split; reflexivity.
  - intros H. destruct (ts_on_comma_scan _ _ Hok H) as [-> ->].
    rewrite app_nil_r. split; reflexivity.
Qed.

Lemma ts_loop_scan toks : forall st st',
  ts_state_ok st -> no_End_ts toks -> loop st toks = Ok st' ->
  paren_depth (open_parens kind (opstack st)) (map kind toks) =
    Some (open_parens kind (opstack st')) /\
  operand_tokens kind (output st') =
    operand_tokens kind (output st) ++ operands_of kind toks.
Proof.
  induction toks as [| x | x y l IHl IHyl] using list_ind2;
    intros st st' Hok Hne.
  - intros [= <-]. rewrite app_nil_r. split; reflexivity.
  - apply Forall_cons in Hne as [Hx _].
    destruct (ts_expr_facts.ts_loop_cases st x []) as
      [[? _]|[(_ & lp & r & [=] & _)|[(Hk & _ & ->)|(_ & Hni & ->)]]];
      [congruence | |].
    + intros [= <-]. simpl. rewrite Hk. cbn [output opstack on_operand].
      rewrite paren_facts.operand_tokens_app. unfold operand_tokens at 2.
      simpl. rewrite Hk. split; reflexivity.
    + destruct (step st x) as [s1|] eqn:Es; [|discriminate].
      intros [= <-]. destruct (ts_step_scan _ _ _ [] Hok Hni Es) as [H1 H2].
      simpl map. rewrite H1, H2. split; [reflexivity|].
      simpl. destruct (kind x); try reflexivity. congruence.
  - apply Forall_cons in Hne as [Hx Hne].
    pose proof Hne as Hyl. apply Forall_cons in Hne as [Hy Hne].
    destruct (ts_expr_facts.ts_loop_cases st x (y :: l)) as
      [[? _]|[(Hk & lp & r & [= <- <-] & Hlp & ->)
              |[(Hk & Hh & ->)|(_ & Hni & ->)]]]; [congruence | | |].
    + intros H.
      destruct (IHl _ _ (ts_rpn_facts.ts_state_ok_on_call _ x _ Hlp Hok) Hne H)
        as [H1 H2].
      simpl map. simpl operands_of. rewrite Hk, Hlp.
      cbn [opstack output on_call] in H1, H2.
      rewrite !paren_facts.open_parens_cons, Hlp in H1. simpl in H1.
      simpl paren_depth. split; [exact H1 | exact H2].
    + intros H.
      assert (Hop : is_operand (kind x) = true) by (rewrite Hk; reflexivity).
      destruct (IHyl _ _ (ts_rpn_facts.ts_state_ok_on_operand _ _ Hop Hok)
                  Hyl H) as [H1 H2].
      cbn [opstack output on_operand] in H1, H2.
      rewrite paren_facts.operand_tokens_app in H2.
      unfold operand_tokens at 3 in H2. simpl in H2. rewrite Hk in H2.
      simpl in H2. rewrite <- app_assoc in H2. simpl in Hh.
      change (map kind (x :: y :: l)) with (kind x :: map kind (y :: l)).
      rewrite paren_facts.paren_depth_skip by congruence.
      split; [exact H1|]. rewrite H2. simpl. rewrite Hk.
      destruct (kind y); try reflexivity. congruence.
    + destruct (step st x) as [s1|] eqn:Es; [|discriminate].
      intros H.
      destruct (ts_step_scan _ _ _ (map kind (y :: l)) Hok Hni Es) as [H1 H2].
      destruct (IHyl _ _ (ts_rpn_facts.ts_state_ok_step _ _ _ Hok Es) Hyl H)
        as [H3 H4].
      change (map kind (x :: y :: l)) with (kind x :: map kind (y :: l)).
      rewrite H1, H3, H4, H2, <- app_assoc. split; [reflexivity|].
      f_equal. change (operands_of kind (x :: y :: l)) with
        match kind x with
        | Number => x :: operands_of kind (y :: l)
        | Ident =>
            match kind y with
            | LParen => operands_of kind (y :: l)
            | _ => x :: operands_of kind (y :: l)
            end
        | _ => operands_of kind (y :: l)
        end.
      destruct (kind x); try reflexivity. congruence.
Qed.

End ts_scan.

(** ** What a successful compilation went through *)

Module compile_facts.

Lemma tsexpr_compile_tokens_inv (lex : tsexpr.Lexer) (p : tsexpr.Program) :
  tsexpr.compile_tokens lex = Ok p ->
  exists lhs eq first e st out code,
    fst lex = lhs :: eq :: first :: e /\ snd lex = None /\
    tsexpr.kind lhs = Ident /\ tsexpr.kind eq = Assign /\
    tsexpr.kind first <> End /\
    tsexpr.loop tsexpr.rpn_init (first :: e) = Ok st /\
    tsexpr.drain (tsexpr.output st) (tsexpr.opstack st) = Ok out /\
    tsexpr.fnstack st = [] /\
    tsexpr.lower_all out = Ok code /\
    p = code ++ [tsexpr.mkInstr tsexpr.Store (tsexpr.text lhs) 0%float 0].
Proof.
  destruct lex as [l tail].
  destruct l as [|lhs [|eq [|first e]]].
  - destruct tail; simpl; discriminate.
  - unfold tsexpr.compile_tokens. simpl.
    destruct (tsexpr.kind lhs); try discriminate;
      destruct tail; simpl; discriminate.
  - unfold tsexpr.compile_tokens. simpl.
    destruct (tsexpr.kind lhs); try discriminate.
    destruct (tsexpr.kind eq); try discriminate.
    destruct tail; simpl; discriminate.
  - rewrite tsexpr_facts.compile_tokens_cons3.
    destruct (tsexpr.kind lhs) eqn:E1; try discriminate.
    destruct (tsexpr.kind eq) eqn:E2; try discriminate.
    intros H.
    assert (Hf : tsexpr.kind first <> End)
      by (intros Hf; rewrite Hf in H; discriminate).
    assert (H' : (rpn <- tsexpr.to_rpn (e, tail) first ;;
                  code <- tsexpr.lower_all rpn ;;
                  Ok (code ++ [tsexpr.mkInstr tsexpr.Store (tsexpr.text lhs)
                                 0%float 0])) = Ok p)
      by (destruct (tsexpr.kind first); congruence).
    clear H. apply bind_Ok_inv in H' as (rpn & Hr & H).
    apply bind_Ok_inv in H as (code & Hc & [= <-]).
    unfold tsexpr.to_rpn in Hr. simpl in Hr.
    apply bind_Ok_inv in Hr as (st & Hl & Hr).
    destruct tail; [discriminate|].
    apply bind_Ok_inv in Hr as (out & Hd & Hr).
    destruct (tsexpr.fnstack st) eqn:Hfs; [|discriminate].
    inversion Hr. subst.
    exists lhs, eq, first, e, st, rpn, code. repeat split; assumption.
Qed.

Lemma ts_expr_compile_tokens_inv (lex : ts_expr.Lexer) (c : ts_expr.Compiled) :
  ts_expr.compile_tokens lex = Ok c ->
  exists lhs eq e st,
    fst lex = lhs :: eq :: e /\ snd lex = None /\
    ts_expr.kind lhs = Ident /\ ts_expr.kind eq = Assign /\
    ts_expr.loop ts_expr.init e = Ok st /\
    ts_expr.drain (ts_expr.output st) (ts_expr.opstack st) =
      Ok (ts_expr.rpn c) /\
    ts_expr.target c = ts_expr.text lhs.
Proof.
  destruct lex as [l tail].
  destruct l as [|lhs [|eq e]].
  - destruct tail; simpl; discriminate.
  - unfold ts_expr.compile_tokens. simpl.
    destruct (ts_expr.kind lhs); try discriminate;
      destruct tail; simpl; discriminate.
  - rewrite ts_expr_facts.compile_tokens_cons2.
    destruct (ts_expr.kind lhs) eqn:E1; try discriminate.
    destruct (ts_expr.kind eq) eqn:E2; try discriminate.
    intros H. apply bind_Ok_inv in H as (st & Hl & H).
    destruct tail; [discriminate|].
    apply bind_Ok_inv in H as (out & Hd & [= <-]).
    exists lhs, eq, e, st. repeat split; assumption.
Qed.

Lemma lower_all_pushes (out : list tsexpr.Token) : forall code,
  tsexpr.lower_all out = Ok code ->
  List.filter is_push code = map push_of (operand_tokens tsexpr.kind out).
Proof.
  induction out as [|t out IH]; simpl; intros code H.
  - inversion H. reflexivity.
  - apply bind_Ok_inv in H as (i & Hi & H).
    apply bind_Ok_inv in H as (code' & Hc & [= <-]).
    specialize (IH _ Hc). unfold tsexpr.lower in Hi.
    unfold operand_tokens in *. simpl.
    destruct (tsexpr.kind t) eqn:Ek; inversion Hi; subst; simpl;
      try exact IH;
      unfold push_of at 1; rewrite Ek; f_equal; exact IH.
Qed.

Lemma no_End_conv (l : list tsexpr.Token) :
  no_End l -> no_End_ts (map conv l).
Proof. unfold no_End, no_End_ts. induction 1; simpl; constructor; auto. Qed.

Lemma map_kind_conv (l : list tsexpr.Token) :
  map ts_expr.kind (map conv l) = map tsexpr.kind l.
Proof. induction l; simpl; congruence. Qed.

Lemma drained_no_parens (ops : list tsexpr.Token) :
  Forall (fun t => tsexpr.kind t <> LParen /\ tsexpr.kind t <> Func) ops ->
  open_parens tsexpr.kind ops = 0.
Proof.
  intros H. rewrite <- (app_nil_r ops).
  rewrite paren_facts.open_parens_app; [reflexivity|].
  eapply Forall_impl; [exact H|]. simpl. tauto.
Qed.

Lemma ts_drained_no_parens (ops : list ts_expr.Token) :
  Forall (fun t => ts_expr.kind t <> LParen /\ ts_expr.kind t <> Func) ops ->
  open_parens ts_expr.kind ops = 0.
Proof.
  intros H. rewrite <- (app_nil_r ops).
  rewrite paren_facts.open_parens_app; [reflexivity|].
  eapply Forall_impl; [exact H|]. simpl. tauto.
Qed.

End compile_facts.

(** X8.  In [to_rpn], the stack of call frames mirrors the function
    markers on the operator stack: after any run of the loop there is one
    frame per marker, no marker is on top of the stack and each lies
    directly under a ['(']; so closing a call always finds its frame, and
    once the final [while] has emptied the operator stack no frame is left:
    the checks "function close with no frame" and the trailing "Mismatched
    function call" cannot fire. *)
Theorem X8_frames_mirror_markers :
  forall (toks : list tsexpr.Token) (st : tsexpr.RpnState),
    tsexpr.loop tsexpr.rpn_init toks = Ok st ->
    length (tsexpr.fnstack st) =
      count_kind Func (map tsexpr.kind (tsexpr.opstack st)) /\
    func_under_paren (map tsexpr.kind (tsexpr.opstack st)) = true /\
    (forall e, tsexpr.on_rparen st = Err e ->
               e = ParseError "Mismatched ')'") /\
    (forall out, tsexpr.drain (tsexpr.output st) (tsexpr.opstack st) = Ok out ->
                 tsexpr.fnstack st = []).
Proof.
  intros toks st H.
  pose proof (rpn_facts.rpn_state_ok_loop _ _ _ rpn_facts.rpn_state_ok_init H)
    as Hok.
  pose proof Hok as (_ & _ & Hu & Hc). repeat split; try assumption.
  - intros e. apply rpn_facts.on_rparen_message. exact Hok.
  - intros out Hd. apply (rpn_facts.drain_no_frames _ _ Hok Hd).
Qed.

Lemma X8_frames_mirror_markers_witness :
  length (tsexpr.fnstack
            (tsexpr.mkRpnState [num 1%float]
               [tsexpr.tok LParen; tsexpr.mkToken Func "g" 0%float;
                tsexpr.tok LParen; tsexpr.mkToken Func "f" 0%float]
               false
               [tsexpr.mkFnFrame "g" 0 true; tsexpr.mkFnFrame "f" 0 false])) = 2.
Proof.
  pose proof (X8_frames_mirror_markers
                [ident "f"; tsexpr.tok LParen; ident "g"; tsexpr.tok LParen;
                 num 1%float] _ eq_refl) as (H & _).
  exact H.
Defined.

(** X9.  Both [compile] functions accept balanced parentheses only: if
    either returns normally, then reading the tokens of the input from left
    to right no [')'] comes without an open ['('] before it, and none is
    open at the end. *)
Theorem X9_balanced_parentheses :
  forall strtod (input : string),
    (exists p, tsexpr.compile strtod input = Ok p) \/
    (exists c, ts_expr.compile strtod input = Ok c) ->
    paren_depth 0 (map tsexpr.kind (fst (tsexpr.tokens strtod input))) = Some 0.
Proof.
  intros strtod input [[p H] | [c H]].
  - unfold tsexpr.compile in H.
    pose proof (lexer_facts.tokens_no_End strtod input) as Hne.
    apply compile_facts.tsexpr_compile_tokens_inv in H
      as (lhs & eq & first & e & st & out & code & Hl & _ & H1 & H2 & _ &
          Hloop & Hd & _).
    rewrite Hl in *. apply Forall_cons in Hne as [_ Hne].
    apply Forall_cons in Hne as [_ Hne].
    destruct (rpn_scan.loop_scan _ _ _ rpn_facts.rpn_state_ok_init Hne Hloop)
      as [Hp _].
    apply rpn_facts.drain_split in Hd as [_ Hd].
    rewrite (compile_facts.drained_no_parens _ Hd) in Hp.
    change (map tsexpr.kind (lhs :: eq :: first :: e))
      with (tsexpr.kind lhs :: tsexpr.kind eq :: map tsexpr.kind (first :: e)).
    rewrite H1, H2. exact Hp.
  - unfold ts_expr.compile in H. rewrite lexer_facts.tokens_conv in H.
    pose proof (lexer_facts.tokens_no_End strtod input) as Hne.
    apply compile_facts.ts_expr_compile_tokens_inv in H
      as (lhs & eq & e & st & Hl & _ & H1 & H2 & Hloop & Hd & _).
    simpl in Hl.
    destruct (fst (tsexpr.tokens strtod input)) as [|lhs' [|eq' e']];
      try discriminate.
    simpl in Hl. inversion Hl. subst. clear Hl.
    apply Forall_cons in Hne as [_ Hne]. apply Forall_cons in Hne as [_ Hne].
    destruct (ts_scan.ts_loop_scan _ _ _ ts_rpn_facts.ts_state_ok_init
                (compile_facts.no_End_conv _ Hne) Hloop) as [Hp _].
    apply ts_rpn_facts.ts_drain_split in Hd as [_ Hd].
    rewrite (compile_facts.ts_drained_no_parens _ Hd) in Hp.
    rewrite compile_facts.map_kind_conv in Hp.
    simpl in H1, H2. simpl. rewrite H1, H2. exact Hp.
Qed.

Lemma X9_balanced_parentheses_witness :
  paren_depth 0
    (map tsexpr.kind
       (fst (tsexpr.tokens libc.strtod_dec "z = (a + f(b, (c))) * 2"))) = Some 0.
Proof.
  apply X9_balanced_parentheses. left. eexists. vm_compute. reflexivity.
Defined.

(** X10.  Operands keep the order of the text: the instructions of a
    compiled program that push a variable or a number are, in order, the
    numbers and the identifiers of the expression that are not call names,
    each lowered to its push; and likewise for the operand tokens of the
    postfix sequence [ts::expr::compile] returns. *)
Theorem X10_operands_in_text_order :
  forall strtod (input : string),
    (forall p, tsexpr.compile strtod input = Ok p ->
       exists lhs eq e,
         fst (tsexpr.tokens strtod input) = lhs :: eq :: e /\
         List.filter is_push p = map push_of (operands_of tsexpr.kind e)) /\
    (forall c, ts_expr.compile strtod input = Ok c ->
       exists lhs eq e,
         fst (ts_expr.tokens strtod input) = lhs :: eq :: e /\
         operand_tokens ts_expr.kind (ts_expr.rpn c) =
           operands_of ts_expr.kind e).
Proof.
  intros strtod input. split.
  - intros p H. unfold tsexpr.compile in H.
    pose proof (lexer_facts.tokens_no_End strtod input) as Hne.
    apply compile_facts.tsexpr_compile_tokens_inv in H
      as (lhs & eq & first & e & st & out & code & Hl & _ & H1 & H2 & _ &
          Hloop & Hd & _ & Hlow & ->).
    exists lhs, eq, (first :: e). split; [exact Hl|].
    rewrite Hl in Hne. apply Forall_cons in Hne as [_ Hne].
    apply Forall_cons in Hne as [_ Hne].
    pose proof (rpn_facts.rpn_state_ok_loop _ _ _ rpn_facts.rpn_state_ok_init
                  Hloop) as (_ & Hs & _).
    destruct (rpn_scan.loop_scan _ _ _ rpn_facts.rpn_state_ok_init Hne Hloop)
      as [_ Ho].
    apply rpn_facts.drain_split in Hd as [-> _].
    rewrite List.filter_app. simpl. rewrite app_nil_r.
    rewrite (compile_facts.lower_all_pushes _ _ Hlow).
    rewrite paren_facts.operand_tokens_app,
      (paren_facts.operand_tokens_none _ _ Hs), app_nil_r, Ho.
    reflexivity.
  - intros c H. unfold ts_expr.compile in H.
    pose proof (lexer_facts.ts_tokens_no_End strtod input) as Hne.
    apply compile_facts.ts_expr_compile_tokens_inv in H
      as (lhs & eq & e & st & Hl & _ & H1 & H2 & Hloop & Hd & _).
    exists lhs, eq, e. split; [exact Hl|].
    rewrite Hl in Hne. apply Forall_cons in Hne as [_ Hne].
    apply Forall_cons in Hne as [_ Hne].
    destruct (ts_rpn_facts.state_loop _ _ _
                (conj ts_rpn_facts.ts_state_ok_init
                      arity_facts.well_formed_init) Hloop) as [[_ Hs] _].
    destruct (ts_scan.ts_loop_scan _ _ _ ts_rpn_facts.ts_state_ok_init Hne Hloop)
      as [_ Ho].
    apply ts_rpn_facts.ts_drain_split in Hd as [-> _].
    rewrite paren_facts.operand_tokens_app,
      (paren_facts.operand_tokens_none _ _ Hs), app_nil_r, Ho.
    reflexivity.
Qed.

Lemma X10_operands_in_text_order_witness :
  exists lhs eq e,
    fst (tsexpr.tokens libc.strtod_dec "z = (a + f(b, 2)) * c") =
      lhs :: eq :: e /\
    List.filter is_push
      [PushVar "a"; PushVar "b"; PushNum 2%float; Call "f" 2;
       Arith tsexpr.Add; PushVar "c"; Arith tsexpr.Mul; Store "z"] =
    map push_of (operands_of tsexpr.kind e).
Proof.
  apply (proj1 (X10_operands_in_text_order libc.strtod_dec
                  "z = (a + f(b, 2)) * c")).
  vm_compute. reflexivity.
Defined.

(** ** Execution: stack heights, arguments, the store *)

Module stack_facts.

Ltac invert_pop H :=
  simpl in H;
  match type of H with
  | _ ?st = Ok _ =>
      is_var st; destruct st; simpl in H; [discriminate H|];
      inversion H; subst; clear H
  end.

Ltac invert_pops :=
  repeat match goal with
         | H : tsexpr.pop _ = Ok _ |- _ => invert_pop H
         | H : ts_expr.pop _ = Ok _ |- _ => invert_pop H
         end.

Section WithBackend.

Context {S V : Type} (be : tsexpr.Backend S V).

Lemma exec_instr_height s st ins s' st' :
  tsexpr.exec_instr be s st ins = Ok (s', st') ->
  Z.of_nat (length st') = (Z.of_nat (length st) + stack_delta ins)%Z.
Proof.
  unfold tsexpr.exec_instr, stack_delta.
  destruct (tsexpr.op ins).
  - intros H. apply bind_Ok_inv in H as (v & _ & [= _ <-]). simpl. lia.
  - intros [= _ <-]. simpl. lia.
  - intros H. apply bind_Ok_inv in H as ([b st1] & Hb & H).
    apply bind_Ok_inv in H as ([a st2] & Ha & H).
    apply bind_Ok_inv in H as (v & _ & [= _ <-]).
    invert_pops. simpl. lia.
  - intros H. apply bind_Ok_inv in H as ([b st1] & Hb & H).
    apply bind_Ok_inv in H as ([a st2] & Ha & H).
    apply bind_Ok_inv in H as (v & _ & [= _ <-]).
    invert_pops. simpl. lia.
  - intros H. apply bind_Ok_inv in H as ([b st1] & Hb & H).
    apply bind_Ok_inv in H as ([a st2] & Ha & H).
    apply bind_Ok_inv in H as (v & _ & [= _ <-]).
    invert_pops. simpl. lia.
  - intros H. apply bind_Ok_inv in H as ([b st1] & Hb & H).
    apply bind_Ok_inv in H as ([a st2] & Ha & H).
    apply bind_Ok_inv in H as (v & _ & [= _ <-]).
    invert_pops. simpl. lia.
  - intros H. apply bind_Ok_inv in H as ([a st1] & Ha & H).
    apply bind_Ok_inv in H as (v & _ & [= _ <-]).
    invert_pops. simpl. lia.
  - destruct (Z.ltb_spec (tsexpr.iargc ins) 0) as [|Hn]; [discriminate|].
    destruct (Z.ltb_spec (Z.of_nat (length st)) (tsexpr.iargc ins))
      as [|Hm]; [discriminate|].
    intros H. apply bind_Ok_inv in H as (v & _ & [= _ <-]).
    simpl. rewrite List.length_skipn. lia.
  - intros H. apply bind_Ok_inv in H as ([a st1] & Ha & [= _ <-]).
    invert_pops. simpl. lia.
Qed.

Lemma run_height code : forall s st s' st',
  tsexpr.run be code s st = (s', st', None) ->
  Z.of_nat (length st') = (Z.of_nat (length st) + net_effect code)%Z.
Proof.
  induction code as [|ins code IH]; intros s st s' st'; simpl.
  - intros [= _ <-]. lia.
  - destruct (tsexpr.exec_instr be s st ins) as [[s1 st1]|e] eqn:E;
      [|discriminate].
    intros H. apply IH in H. apply exec_instr_height in E. lia.
Qed.

(** A [Call] takes its arguments off the stack in the order they were
    pushed. *)
Lemma exec_call_args s st args ins :
  tsexpr.op ins = tsexpr.Call ->
  tsexpr.iargc ins = Z.of_nat (length args) ->
  tsexpr.exec_instr be s (rev args ++ st) ins =
  (v <- tsexpr.call be s (tsexpr.itext ins) args ;; Ok (s, v :: st)).
Proof.
  intros Hop Hn. unfold tsexpr.exec_instr. rewrite Hop, Hn.
  destruct (Z.ltb_spec (Z.of_nat (length args)) 0) as [|_]; [lia|].
  rewrite List.length_app, List.length_rev.
  destruct (Z.ltb_spec (Z.of_nat (length args + length st))
              (Z.of_nat (length args))) as [|_]; [lia|].
  rewrite Nat2Z.id, <- (List.length_rev args).
  rewrite take_app_length, drop_app_length, List.rev_involutive.
  reflexivity.
Qed.

End WithBackend.

Lemma eval_token_height env st t st' :
  ts_expr.eval_token env st t = Ok st' ->
  Z.of_nat (length st') = (Z.of_nat (length st) + token_delta t)%Z.
Proof.
  unfold ts_expr.eval_token, token_delta.
  destruct (ts_expr.kind t); try discriminate.
  - destruct (env !! ts_expr.text t); [|discriminate].
    intros [= <-]. simpl. lia.
  - intros [= <-]. simpl. lia.
  - intros H. apply bind_Ok_inv in H as ([b st1] & Hb & H).
    apply bind_Ok_inv in H as ([a st2] & Ha & H).
    apply bind_Ok_inv in H as (v & _ & [= <-]).
    invert_pops. simpl. lia.
  - intros H. apply bind_Ok_inv in H as ([b st1] & Hb & H).
    apply bind_Ok_inv in H as ([a st2] & Ha & H).
    apply bind_Ok_inv in H as (v & _ & [= <-]).
    invert_pops. simpl. lia.
  - intros H. apply bind_Ok_inv in H as ([b st1] & Hb & H).
    apply bind_Ok_inv in H as ([a st2] & Ha & H).
    apply bind_Ok_inv in H as (v & _ & [= <-]).
    invert_pops. simpl. lia.
  - intros H. apply bind_Ok_inv in H as ([b st1] & Hb & H).
    apply bind_Ok_inv in H as ([a st2] & Ha & H).
    apply bind_Ok_inv in H as (v & _ & [= <-]).
    invert_pops. simpl. lia.
  - intros H. apply bind_Ok_inv in H as ([a st1] & Ha & [= <-]).
    invert_pops. simpl. lia.
  - destruct (Z.leb_spec (ts_expr.arity t) 0) as [|Hn]; [discriminate|].
    destruct (Z.ltb_spec (Z.of_nat (length st)) (ts_expr.arity t))
      as [|Hm]; [discriminate|].
    intros H. apply bind_Ok_inv in H as (v & _ & [= <-]).
    simpl. rewrite List.length_skipn. lia.
Qed.

Lemma eval_loop_height env rpn : forall st st',
  ts_expr.eval_loop env st rpn = Ok st' ->
  Z.of_nat (length st') = (Z.of_nat (length st) + rpn_effect rpn)%Z.
Proof.
  induction rpn as [|t rpn IH]; intros st st'; simpl.
  - intros [= <-]. lia.
  - intros H. apply bind_Ok_inv in H as (st1 & E & H).
    apply IH in H. apply eval_token_height in E. lia.
Qed.

Lemma eval_func_args env st args t :
  ts_expr.kind t = Func -> args <> [] ->
  ts_expr.arity t = Z.of_nat (length args) ->
  ts_expr.eval_token env (rev args ++ st) t =
  (r <- ts_expr.apply_function t args ;; Ok (r :: st)).
Proof.
  intros Hk Hne Hn. unfold ts_expr.eval_token. rewrite Hk, Hn.
  destruct (Z.leb_spec (Z.of_nat (length args)) 0) as [Hz|_].
  { destruct args; [congruence | simpl in Hz; lia]. }
  rewrite List.length_app, List.length_rev.
  destruct (Z.ltb_spec (Z.of_nat (length args + length st))
              (Z.of_nat (length args))) as [|_]; [lia|].
  rewrite Nat2Z.id, <- (List.length_rev args).
  rewrite take_app_length, drop_app_length, List.rev_involutive.
  reflexivity.
Qed.

End stack_facts.

(** X11.  The height of the operand stack is a matter of the program
    alone: a run of [Program::execute] that does not throw changes it by the
    sum of the effects of the instructions (a push adds one, a binary
    operator and a store take one, a call of [argc] arguments adds
    [1 - argc]); the same for [eval_rpn], which therefore returns a value
    only for token sequences of total effect one. *)
Theorem X11_stack_height :
  (forall (S V : Type) (be : tsexpr.Backend S V) (code : list tsexpr.Instr)
          (s s' : S) (st st' : list V),
      tsexpr.run be code s st = (s', st', None) ->
      Z.of_nat (length st') = (Z.of_nat (length st) + net_effect code)%Z) /\
  (forall env (rpn : list ts_expr.Token) (st st' : list ts_expr.Value),
      ts_expr.eval_loop env st rpn = Ok st' ->
      Z.of_nat (length st') = (Z.of_nat (length st) + rpn_effect rpn)%Z) /\
  (forall env (rpn : list ts_expr.Token) (x : ts_expr.Value),
      ts_expr.eval_rpn rpn env = Ok x -> rpn_effect rpn = 1%Z).
Proof.
  split; [|split].
  - intros S V be code s s' st st'. apply stack_facts.run_height.
  - intros env rpn st st'. apply stack_facts.eval_loop_height.
  - intros env rpn x H. unfold ts_expr.eval_rpn in H.
    apply bind_Ok_inv in H as (st & Hl & H).
    apply stack_facts.eval_loop_height in Hl.
    destruct st as [|y [|z st]]; try discriminate. simpl in Hl. lia.
Qed.

Lemma X11_stack_height_witness :
  Z.of_nat (length [toy.VScalar 1%float]) =
    (Z.of_nat (@length toy.Value []) +
     net_effect [PushNum 1%float; PushNum 2%float; Store "z"])%Z /\
  rpn_effect [ts_expr.mkToken Number "" 1%float 0;
              ts_expr.mkToken Number "" 2%float 0;
              ts_expr.mkToken Plus "" 0%float 0] = 1%Z.
Proof.
  destruct X11_stack_height as (H1 & _ & H3). split.
  - apply (H1 _ _ toy.Backend _ ∅ (<["z" := toy.VScalar 2%float]> ∅)).
    reflexivity.
  - apply (H3 ∅ _ (ts_expr.VDouble 3%float)). reflexivity.
Defined.

(** X12.  A call receives its arguments in the order they were written:
    with the values [args] pushed one after the other on top of any stack,
    a [Call] of [argc = |args|] passes exactly [args] to [backend.call],
    first argument first, and leaves the rest of the stack as it was with
    the result on top; the same for a function token of [eval_rpn] and
    [apply_function]. *)
Theorem X12_call_arguments :
  (forall (S V : Type) (be : tsexpr.Backend S V) (s : S) (st args : list V)
          (ins : tsexpr.Instr),
      tsexpr.op ins = tsexpr.Call ->
      tsexpr.iargc ins = Z.of_nat (length args) ->
      tsexpr.exec_instr be s (rev args ++ st) ins =
      (v <- tsexpr.call be s (tsexpr.itext ins) args ;; Ok (s, v :: st))) /\
  (forall env (st args : list ts_expr.Value) (t : ts_expr.Token),
      ts_expr.kind t = Func -> args <> [] ->
      ts_expr.arity t = Z.of_nat (length args) ->
      ts_expr.eval_token env (rev args ++ st) t =
      (r <- ts_expr.apply_function t args ;; Ok (r :: st))).
Proof.
  split.
  - intros S V be. apply stack_facts.exec_call_args.
  - apply stack_facts.eval_func_args.
Qed.

Lemma X12_call_arguments_witness :
  tsexpr.exec_instr toy.Backend ∅
    (rev [series [1; 2]%float; toy.VScalar 3%float] ++ [toy.VScalar 9%float])
    (Call "sumproduct" 2) =
  (v <- toy.call "sumproduct" [series [1; 2]%float; toy.VScalar 3%float] ;;
   Ok (∅, v :: [toy.VScalar 9%float])).
Proof.
  apply (proj1 X12_call_arguments _ _ toy.Backend ∅ [toy.VScalar 9%float]
           [series [1; 2]%float; toy.VScalar 3%float] (Call "sumproduct" 2));
    reflexivity.
Defined.

(** ** The effect of an assignment on the store *)

Module assign_facts.

Section WithBackend.

Context {S V : Type} (be : tsexpr.Backend S V).

Lemma execute_stores code target s s' :
  Forall not_store code ->
  tsexpr.execute be (code ++ [tsexpr.mkInstr tsexpr.Store target 0%float 0]) s
    = (s', None) ->
  exists (v : V) (rest : list V),
    tsexpr.run be code s [] = (s, v :: rest, None) /\
    s' = tsexpr.store_var be s target v.
Proof.
  intros Hns. unfold tsexpr.execute.
  destruct (tsexpr.run be code s []) as [[s1 st1] [e1|]] eqn:Er.
  - rewrite (executor_facts.run_app_fail be _ _ _ _ _ _ _ Er). discriminate.
  - rewrite (executor_facts.run_app be _ _ _ _ _ _ Er).
    pose proof (store_facts.run_state be _ _ _ _ _ _ Hns Er). subst s1.
    simpl. unfold tsexpr.exec_instr. simpl.
    destruct st1 as [|x st1]; simpl; [discriminate|].
    intros [= <-]. eauto.
Qed.

End WithBackend.

End assign_facts.

(** X13.  A statement that runs to its end assigns to its target and to
    nothing else.  With any backend, [compile] followed by
    [Program::execute] leaves the backend as one call of [store_var] on the
    identifier before ['='] makes it, with the value the code before the
    [Store] left on top of the stack; with the example backend every other
    variable keeps its binding; and [execute_assignment] binds the target
    to the series evaluated, or to the one-point series of the scalar
    evaluated, and leaves every other binding. *)
Theorem X13_assignment_effect :
  (forall (S V : Type) (be : tsexpr.Backend S V) strtod (input : string)
          (s s' : S),
      tsexpr.compile_and_execute be strtod input s = (s', None) ->
      exists lhs rest (v : V),
        fst (tsexpr.tokens strtod input) = lhs :: rest /\
        s' = tsexpr.store_var be s (tsexpr.text lhs) v) /\
  (forall strtod (input : string) (vars vars' : gmap string toy.Value),
      tsexpr.compile_and_execute toy.Backend strtod input vars = (vars', None) ->
      exists lhs rest (v : toy.Value),
        fst (tsexpr.tokens strtod input) = lhs :: rest /\
        vars' !! tsexpr.text lhs = Some v /\
        forall name, name <> tsexpr.text lhs -> vars' !! name = vars !! name) /\
  (forall strtod (input : string) (env env' : gmap string ts_expr.TimeSeries),
      ts_expr.execute_assignment strtod input env = (env', None) ->
      exists lhs rest (c : ts_expr.Compiled) (x : ts_expr.Value),
        fst (ts_expr.tokens strtod input) = lhs :: rest /\
        ts_expr.compile strtod input = Ok c /\
        ts_expr.eval_rpn (ts_expr.rpn c) env = Ok x /\
        env' !! ts_expr.text lhs =
          Some match x with
               | ts_expr.VTimeSeries t => t
               | ts_expr.VDouble d => ts_expr.from_scalar d
               end /\
        forall name, name <> ts_expr.text lhs -> env' !! name = env !! name).
Proof.
  assert (H1 : forall (S V : Type) (be : tsexpr.Backend S V) strtod
                      (input : string) (s s' : S),
      tsexpr.compile_and_execute be strtod input s = (s', None) ->
      exists lhs rest (v : V),
        fst (tsexpr.tokens strtod input) = lhs :: rest /\
        s' = tsexpr.store_var be s (tsexpr.text lhs) v).
  { intros S V be strtod input s s'.
    unfold tsexpr.compile_and_execute, tsexpr.compile.
    destruct (tsexpr.compile_tokens (tsexpr.tokens strtod input))
      as [p|e] eqn:Ec; [|discriminate].
    apply compile_facts.tsexpr_compile_tokens_inv in Ec
      as (lhs & eq & first & e & st & out & code & Hl & _ & _ & _ & _ &
          _ & _ & _ & Hlow & ->).
    intros H.
    apply assign_facts.execute_stores in H as (v & rest & _ & ->);
      [|eapply store_facts.lower_all_not_store; eauto].
    exists lhs, (eq :: first :: e), v. split; [exact Hl | reflexivity]. }
  split; [exact H1 | split].
  - intros strtod input vars vars' H.
    apply H1 in H as (lhs & rest & v & Hl & ->).
    exists lhs, rest, v. split; [exact Hl|]. simpl. unfold toy.store_var.
    split; [apply lookup_insert_eq|].
    intros name Hn. apply lookup_insert_ne. congruence.
  - intros strtod input env env'. unfold ts_expr.execute_assignment.
    destruct (ts_expr.compile strtod input) as [c|e] eqn:Ec; [|discriminate].
    destruct (ts_expr.eval_rpn (ts_expr.rpn c) env) as [x|e] eqn:Ee;
      [|discriminate].
    pose proof Ec as Ec'. unfold ts_expr.compile in Ec'.
    apply compile_facts.ts_expr_compile_tokens_inv in Ec'
      as (lhs & eq & e & st & Hl & _ & _ & _ & _ & _ & Ht).
    intros H. exists lhs, (eq :: e), c, x.
    repeat split; try assumption; rewrite <- Ht;
      destruct x; inversion H; subst;
      try apply lookup_insert_eq;
      intros name Hn; apply lookup_insert_ne; congruence.
Qed.

Lemma X13_assignment_effect_witness :
  exists lhs rest (v : toy.Value),
    fst (tsexpr.tokens libc.strtod_dec "s = sumproduct(a, b)") = lhs :: rest /\
    (<["s" := toy.VScalar 140%float]> toy_vars) !! tsexpr.text lhs = Some v /\
    forall name, name <> tsexpr.text lhs ->
      (<["s" := toy.VScalar 140%float]> toy_vars) !! name = toy_vars !! name.
Proof.
  apply (proj1 (proj2 X13_assignment_effect) libc.strtod_dec
           "s = sumproduct(a, b)" toy_vars).
  vm_compute. reflexivity.
Defined.

(** ** Evaluation: its exceptions, and series of one size *)

Module eval_facts.

Import ts_expr.

Lemma eval_message_listed (w : string) : In w eval_messages -> eval_message w.
Proof. left. assumption. Qed.

Ltac listed :=
  right; eexists; split; [reflexivity | apply eval_message_listed; simpl; tauto].

Lemma pop_message st e :
  pop st = Err e -> e = EvalError "Stack underflow (bad expression)".
Proof. destruct st; simpl; [intros [= <-]; reflexivity | discriminate]. Qed.

Lemma require_same_size_message a b e :
  require_same_size a b = Err e -> e = size_mismatch.
Proof.
  unfold require_same_size.
  destruct (length (v a) =? length (v b))%nat; [discriminate|].
  intros [= <-]. reflexivity.
Qed.

Lemma apply_binary_message o a b e :
  arith o <> None -> apply_binary o a b = Err e -> e = size_mismatch.
Proof.
  intros Ho. unfold apply_binary.
  destruct (arith o) as [f|]; [|congruence].
  destruct a as [x|x], b as [y|y]; try discriminate.
  unfold binop_ts_ts.
  destruct (require_same_size x y) as [|e1] eqn:Er; simpl; [discriminate|].
  intros [= <-]. eapply require_same_size_message; eauto.
Qed.

Lemma apply_function_message fn args e :
  apply_function fn args = Err e ->
  e = size_mismatch \/
  e = EvalError "sumproduct expects 2 arguments" \/
  e = EvalError ("Unknown function: " +:+ text fn).
Proof.
  unfold apply_function.
  destruct (String.eqb (text fn) "sumproduct"); [|intros [= <-]; auto].
  destruct args as [|a [|b [|c args]]]; try (intros [= <-]; auto).
  destruct a as [x|x], b as [y|y]; try discriminate.
  unfold sumproduct_ts_ts.
  destruct (require_same_size x y) as [|e1] eqn:Er; simpl; [discriminate|].
  intros [= <-]. left. eapply require_same_size_message; eauto.
Qed.

Lemma eval_token_message env st t e :
  eval_token env st t = Err e ->
  e = size_mismatch \/ exists w, e = EvalError w /\ eval_message w.
Proof.
  unfold eval_token.
  destruct (kind t) eqn:Ek;
    try (intros [= <-]; listed);
    try (destruct (pop st) as [[b st1]|e1] eqn:Eb; simpl;
         [|intros [= <-]; apply pop_message in Eb as ->; listed];
         destruct (pop st1) as [[a st2]|e2] eqn:Ea; simpl;
         [|intros [= <-]; apply pop_message in Ea as ->; listed];
         destruct (apply_binary _ a b) as [r|e3] eqn:Er; simpl;
         [discriminate|];
         intros [= <-]; left;
         apply apply_binary_message in Er; [exact Er | discriminate]).
  - destruct (env !! text t); [discriminate|].
    intros [= <-]. right. eexists. split; [reflexivity|].
    right. left. eauto.
  - destruct (pop st) as [[a st1]|e1] eqn:Ea; simpl; [discriminate|].
    intros [= <-]. apply pop_message in Ea as ->. listed.
  - destruct (arity t <=? 0)%Z; [intros [= <-]; listed|].
    destruct (Z.of_nat (length st) <? arity t)%Z; [intros [= <-]; listed|].
    destruct (apply_function t _) as [r|e1] eqn:Ef; simpl; [discriminate|].
    intros [= <-]. apply apply_function_message in Ef as [-> | [-> | ->]];
      [left; reflexivity | listed |].
    right. eexists. split; [reflexivity|]. right. right. eauto.
Qed.

Lemma eval_loop_fails_at env rpn : forall st e,
  eval_loop env st rpn = Err e ->
  exists st1 t, In t rpn /\ eval_token env st1 t = Err e.
Proof.
  induction rpn as [|t rpn IH]; intros st e; simpl; [discriminate|].
  destruct (eval_token env st t) as [st1|e1] eqn:Et; simpl.
  - intros H. apply IH in H as (s1 & t1 & Hin & H). eauto.
  - intros [= <-]. eauto.
Qed.

Lemma eval_rpn_message rpn env e :
  eval_rpn rpn env = Err e ->
  e = size_mismatch \/ exists w, e = EvalError w /\ eval_message w.
Proof.
  unfold eval_rpn.
  destruct (eval_loop env [] rpn) as [st|e1] eqn:El; simpl.
  - destruct st as [|x [|y st]]; try discriminate; intros [= <-]; listed.
  - intros [= <-]. apply eval_loop_fails_at in El as (st1 & t & _ & H).
    eapply eval_token_message; eauto.
Qed.

(** A token [compile] emits is not the cause of "Unexpected token during
    evaluation" or "Bad function arity". *)
Lemma eval_token_compiled env st t e :
  lowerable (kind t) = true -> arity_ok t ->
  eval_token env st t = Err e ->
  e <> EvalError "Unexpected token during evaluation" /\
  e <> EvalError "Bad function arity".
Proof.
  intros Hl Ha H.
  assert (Hcases :
    e = size_mismatch \/
    e = EvalError "Stack underflow (bad expression)" \/
    e = EvalError "Stack underflow (function args)" \/
    e = EvalError "sumproduct expects 2 arguments" \/
    e = EvalError ("Unknown variable: " +:+ text t) \/
    e = EvalError ("Unknown function: " +:+ text t)).
  { revert H. unfold eval_token.
    destruct (kind t) eqn:Ek; try discriminate Hl;
      try (destruct (pop st) as [[b st1]|e1] eqn:Eb; simpl;
           [|intros [= <-]; apply pop_message in Eb as ->; tauto];
           destruct (pop st1) as [[a st2]|e2] eqn:Ea; simpl;
           [|intros [= <-]; apply pop_message in Ea as ->; tauto];
           destruct (apply_binary _ a b) as [r|e3] eqn:Er; simpl;
           [discriminate|];
           intros [= <-]; left;
           apply apply_binary_message in Er; [exact Er | discriminate]).
    - destruct (env !! text t); [discriminate|]. intros [= <-]. tauto.
    - discriminate.
    - destruct (pop st) as [[a st1]|e1] eqn:Ea; simpl; [discriminate|].
      intros [= <-]. apply pop_message in Ea as ->. tauto.
    - destruct (Z.leb_spec (arity t) 0) as [Hz|_].
      { specialize (Ha Ek). lia. }
      destruct (Z.of_nat (length st) <? arity t)%Z; [intros [= <-]; tauto|].
      destruct (apply_function t _) as [r|e1] eqn:Ef; simpl; [discriminate|].
      intros [= <-]. apply apply_function_message in Ef. tauto. }
  destruct Hcases as [-> | [-> | [-> | [-> | [-> | ->]]]]];
    split; intros Hx; inversion Hx as [Hy];
    cbv [String.append] in Hy; discriminate Hy.
Qed.

(** Values over series of one size. *)
Lemma zip_with_length {A B C : Type} (f : A -> B -> C) (a : list A) :
  forall b, length a = length b -> length (zip_with f a b) = length a.
Proof.
  induction a as [|x a IH]; intros [|y b]; simpl; try discriminate;
    [reflexivity|]. intros [= H]. rewrite IH; auto.
Qed.

Lemma apply_binary_uniform n o a b :
  uniform_value n a -> uniform_value n b ->
  arith o <> None ->
  match apply_binary o a b with
  | Ok r => uniform_value n r
  | Err _ => False
  end.
Proof.
  intros Ha Hb Ho. unfold apply_binary.
  destruct (arith o) as [f|]; [|congruence].
  destruct a as [x|x], b as [y|y]; simpl in *.
  - unfold binop_ts_ts, require_same_size. rewrite Ha, Hb, Nat.eqb_refl.
    simpl. rewrite zip_with_length; congruence.
  - rewrite List.length_map. exact Ha.
  - rewrite List.length_map. exact Hb.
  - exact I.
Qed.

Lemma apply_function_uniform n fn args :
  Forall (uniform_value n) args ->
  match apply_function fn args with
  | Ok r => uniform_value n r
  | Err e => e <> size_mismatch
  end.
Proof.
  intros Ha. unfold apply_function.
  destruct (String.eqb (text fn) "sumproduct"); [|discriminate].
  destruct args as [|a [|b [|c args]]]; try discriminate.
  apply Forall_cons in Ha as [Hx Ha]. apply Forall_cons in Ha as [Hy _].
  destruct a as [x|x], b as [y|y]; simpl in *; try exact I.
  unfold sumproduct_ts_ts, require_same_size. rewrite Hx, Hy, Nat.eqb_refl.
  simpl. exact I.
Qed.

Lemma Forall_firstn {A : Type} (P : A -> Prop) (k : nat) (l : list A) :
  Forall P l -> Forall P (firstn k l) /\ Forall P (skipn k l).
Proof.
  intros H. rewrite <- (firstn_skipn k l) in H.
  apply Forall_app in H. exact H.
Qed.

Lemma eval_token_uniform n env st t :
  uniform_env n env -> Forall (uniform_value n) st ->
  match eval_token env st t with
  | Ok st' => Forall (uniform_value n) st'
  | Err e => e <> size_mismatch
  end.
Proof.
  intros He Hs. unfold eval_token.
  destruct (kind t) eqn:Ek; try discriminate;
    try (destruct st as [|b [|a st]]; simpl; try discriminate;
         apply Forall_cons in Hs as [Hb Hs];
         apply Forall_cons in Hs as [Ha Hs];
         pose proof (apply_binary_uniform n (kind t) a b Ha Hb) as Hr;
         rewrite Ek in Hr;
         destruct (apply_binary _ a b) as [r|e];
         [simpl; constructor; [apply Hr; discriminate | exact Hs]
         | exfalso; apply Hr; discriminate]).
  - destruct (env !! text t) as [ts|] eqn:El; [|discriminate].
    constructor; [exact (He _ _ El) | exact Hs].
  - constructor; [exact I | exact Hs].
  - destruct st as [|a st]; simpl; [discriminate|].
    apply Forall_cons in Hs as [Ha Hs]. constructor; [|exact Hs].
    destruct a as [x|x]; simpl in *; [|exact I].
    rewrite List.length_map. exact Ha.
  - destruct (arity t <=? 0)%Z; [discriminate|].
    destruct (Z.of_nat (length st) <? arity t)%Z; [discriminate|].
    destruct (Forall_firstn _ (Z.to_nat (arity t)) _ Hs) as [Hf Hk].
    pose proof (apply_function_uniform n t
                  (rev (firstn (Z.to_nat (arity t)) st))) as Hr.
    destruct (apply_function t _) as [r|e]; simpl.
    + constructor; [|exact Hk]. apply Hr. apply Forall_rev. exact Hf.
    + apply Hr. apply Forall_rev. exact Hf.
Qed.

Lemma eval_loop_uniform n env rpn : forall st,
  uniform_env n env -> Forall (uniform_value n) st ->
  match eval_loop env st rpn with
  | Ok st' => Forall (uniform_value n) st'
  | Err e => e <> size_mismatch
  end.
Proof.
  induction rpn as [|t rpn IH]; intros st He Hs; simpl; [exact Hs|].
  pose proof (eval_token_uniform n env st t He Hs) as Ht.
  destruct (eval_token env st t) as [st1|e]; simpl; [|exact Ht].
  apply IH; assumption.
Qed.

End eval_facts.

(** X14.  The exceptions of [eval_rpn]: on any token sequence it throws
    either the size-mismatch [std::runtime_error] of the stub series or an
    [EvalError] with one of six fixed texts, "Unknown variable: " or
    "Unknown function: " followed by a name; never a [ParseError], and none
    of the four "Unsupported ... op" errors of [apply_binary].  On the
    token sequence [compile] returns it throws neither "Unexpected token
    during evaluation" nor "Bad function arity". *)
Theorem X14_eval_diagnostics :
  (forall (rpn : list ts_expr.Token) env (e : Error),
      ts_expr.eval_rpn rpn env = Err e ->
      e = size_mismatch \/ exists w, e = EvalError w /\ eval_message w) /\
  (forall strtod (input : string) (c : ts_expr.Compiled) env,
      ts_expr.compile strtod input = Ok c ->
      ts_expr.eval_rpn (ts_expr.rpn c) env <>
        Err (EvalError "Unexpected token during evaluation") /\
      ts_expr.eval_rpn (ts_expr.rpn c) env <>
        Err (EvalError "Bad function arity")).
Proof.
  split.
  - intros rpn env e. apply eval_facts.eval_rpn_message.
  - intros strtod input c env Hc. unfold ts_expr.compile in Hc.
    pose proof (ts_rpn_facts.compile_tokens_lowerable _ _ Hc) as Hl.
    pose proof (arity_facts.compile_tokens_arity _ _ Hc) as Ha.
    assert (H : forall e, ts_expr.eval_rpn (ts_expr.rpn c) env = Err e ->
                  e <> EvalError "Unexpected token during evaluation" /\
                  e <> EvalError "Bad function arity").
    { intros e. unfold ts_expr.eval_rpn.
      destruct (ts_expr.eval_loop env [] (ts_expr.rpn c)) as [st|e1] eqn:El;
        simpl.
      - destruct st as [|x [|y st]]; try discriminate;
          intros [= <-]; split; discriminate.
      - intros [= <-].
        apply eval_facts.eval_loop_fails_at in El as (st1 & t & Hin & H).
        eapply eval_facts.eval_token_compiled; eauto.
        + apply (proj1 (List.Forall_forall _ _) Hl). exact Hin.
        + apply (proj1 (List.Forall_forall _ _) Ha). exact Hin. }
    split; intros Hx; apply H in Hx; tauto.
Qed.

Lemma X14_eval_diagnostics_witness :
  EvalError "Unknown variable: missing" = size_mismatch \/
  exists w, EvalError "Unknown variable: missing" = EvalError w /\
            eval_message w.
Proof.
  apply (proj1 X14_eval_diagnostics
           [ts_expr.mkToken Ident "a" 0%float 0;
            ts_expr.mkToken Ident "missing" 0%float 0;
            ts_expr.mkToken Plus "" 0%float 0] ts_env).
  vm_compute. reflexivity.
Defined.

(** X15.  Series of one size stay of one size: when every series of the
    environment has [n] points, [eval_rpn] never throws the size-mismatch
    error of the stub, a series it returns has [n] points, and after
    [execute_assignment] every series of the environment still has [n]
    points unless the expression evaluated to a scalar (which is stored as a
    series of one point). *)
Theorem X15_uniform_series :
  forall (n : nat) (env : gmap string ts_expr.TimeSeries),
    uniform_env n env ->
    (forall rpn, ts_expr.eval_rpn rpn env <> Err size_mismatch) /\
    (forall rpn t, ts_expr.eval_rpn rpn env = Ok (ts_expr.VTimeSeries t) ->
                   length (ts_expr.v t) = n) /\
    (forall strtod input,
        uniform_env n (fst (ts_expr.execute_assignment strtod input env)) \/
        exists c d,
          ts_expr.compile strtod input = Ok c /\
          ts_expr.eval_rpn (ts_expr.rpn c) env = Ok (ts_expr.VDouble d)).
Proof.
  intros n env He.
  assert (H : forall rpn,
    match ts_expr.eval_rpn rpn env with
    | Ok x => uniform_value n x
    | Err e => e <> size_mismatch
    end).
  { intros rpn. unfold ts_expr.eval_rpn.
    pose proof (eval_facts.eval_loop_uniform n env rpn [] He (List.Forall_nil _))
      as Hl.
    destruct (ts_expr.eval_loop env [] rpn) as [st|e]; simpl; [|exact Hl].
    destruct st as [|x [|y st]]; try discriminate.
    apply Forall_cons in Hl as [Hx _]. exact Hx. }
  split; [|split].
  - intros rpn Hx. specialize (H rpn). rewrite Hx in H. congruence.
  - intros rpn t Hx. specialize (H rpn). rewrite Hx in H. exact H.
  - intros strtod input. unfold ts_expr.execute_assignment.
    destruct (ts_expr.compile strtod input) as [c|e]; [|left; exact He].
    specialize (H (ts_expr.rpn c)).
    destruct (ts_expr.eval_rpn (ts_expr.rpn c) env) as [[t|d]|e] eqn:Ee;
      [| |left; exact He].
    + left. simpl. intros name t'.
      destruct (decide (name = ts_expr.target c)) as [->|Hn].
      * rewrite lookup_insert_eq. intros [= <-]. exact H.
      * rewrite lookup_insert_ne by congruence. apply He.
    + right. eauto.
Qed.

Lemma X15_uniform_series_witness :
  ts_expr.eval_rpn
    [ts_expr.mkToken Ident "a" 0%float 0; ts_expr.mkToken Ident "b" 0%float 0;
     ts_expr.mkToken Plus "" 0%float 0]
    (<["a" := ts_expr.mkTimeSeries [1; 2; 3]%float]>
       (<["b" := ts_expr.mkTimeSeries [10; 20; 30]%float]> ∅))
  <> Err size_mismatch.
Proof.
  refine (proj1 (X15_uniform_series 3 _ _) _).
  intros name t.
  destruct (decide (name = "a")) as [->|Ha].
  { rewrite lookup_insert_eq. intros [= <-]. reflexivity. }
  rewrite lookup_insert_ne by congruence.
  destruct (decide (name = "b")) as [->|Hb].
  { rewrite lookup_insert_eq. intros [= <-]. reflexivity. }
  rewrite lookup_insert_ne by congruence. rewrite lookup_empty. discriminate.
Defined.

(** ** Unary minus on values *)

Module neg_facts.



End neg_facts.


(** ** A call as the only argument of a call, in [ts::expr] *)

(** X17.  [ts::expr::compile] rejects a call whose argument list is a
    single call, [f(g(...))], whatever the inner argument list holds: the
    frame of [f] records an argument only for an operand or a ['('] met at
    its own level, and the closing of [g] is neither, so that closing [f]
    throws "Function call has empty argument list" unless an exception came
    before.  [tsexpr::compile] compiles the same text. *)
Theorem X17_call_as_only_argument :
  (forall (st : ts_expr.State) (f lp g lp2 rp rp2 : ts_expr.Token)
          (inner rest : list ts_expr.Token) (k : Z),
      ts_expr.kind f = Ident -> ts_expr.kind lp = LParen ->
      ts_expr.kind g = Ident -> ts_expr.kind lp2 = LParen ->
      ts_expr.kind rp = RParen -> ts_expr.kind rp2 = RParen ->
      no_End_ts inner ->
      scan_args 0 0 (map ts_expr.kind inner) = Some (0, k) ->
      is_parse_error
        (ts_expr.loop st
           (f :: lp :: (g :: lp2 :: inner ++ [rp]) ++ rp2 :: rest))) /\
  tsexpr.compile libc.strtod_dec "z = f(g(x))" =
    Ok [PushVar "x"; Call "g" 1; Call "f" 1; Store "z"].
Proof.
  split; [|vm_compute; reflexivity].
  intros st f lp g lp2 rp rp2 inner rest k Hf Hlp Hg Hlp2 Hrp Hrp2 Hne Hscan.
  rewrite call_facts.loop_call; try assumption.
  2: { constructor; [congruence|]. constructor; [congruence|].
       apply Forall_app. split; [exact Hne|].
       constructor; [congruence | constructor]. }
  rewrite (call_facts.loop_call (ts_expr.on_call st f lp) g lp2 inner rp [])
    by assumption.
  destruct (ts_expr.loop (ts_expr.on_call (ts_expr.on_call st f lp) g lp2)
              inner) as [s1|e] eqn:E1; cbn [bind].
  2: { destruct (ts_expr_facts.ts_loop_err _ _ _ E1) as [w ->].
       eauto with parse. }
  destruct (ts_expr.on_rparen s1) as [s2|e] eqn:E2; cbn [bind].
  2: { destruct (ts_expr_facts.ts_on_rparen_err _ _ E2) as [w ->].
       eauto with parse. }
  destruct (call_facts.call_arity _ _ _ _ _ _ _ Hlp2 Hne Hscan E1 E2)
    as (out & _ & Hops & Hfs).
  cbn [ts_expr.loop bind].
  assert (E3 : ts_expr.on_rparen s2 =
               Err (ParseError "Function call has empty argument list")).
  { unfold ts_expr.on_rparen. rewrite Hfs, Hops. simpl. rewrite Hlp. simpl.
    reflexivity. }
  rewrite E3. cbn [bind]. eauto with parse.
Qed.

Lemma X17_call_as_only_argument_witness :
  is_parse_error
    (ts_expr.loop ts_expr.init
       (conv (ident "f") :: ts_expr.tok LParen ::
        (conv (ident "g") :: ts_expr.tok LParen ::
         map conv [ident "x"; tsexpr.tok Comma; num 2%float] ++
         [ts_expr.tok RParen]) ++ ts_expr.tok RParen :: [])).
Proof.
  apply (proj1 X17_call_as_only_argument ts_expr.init (conv (ident "f"))
           (ts_expr.tok LParen) (conv (ident "g")) (ts_expr.tok LParen)
           (ts_expr.tok RParen) (ts_expr.tok RParen)
           (map conv [ident "x"; tsexpr.tok Comma; num 2%float]) [] 1%Z);
    try reflexivity.
  repeat constructor; discriminate.
Defined.

(** ** The argument count as a [double] *)

Module cast_facts.

Lemma digits2_pos_bounds (m : positive) :
  (2 ^ (Z.pos (digits2_pos m) - 1) <= Z.pos m < 2 ^ Z.pos (digits2_pos m))%Z.
Proof.
  induction m as [m IH|m IH|]; simpl digits2_pos.
  - rewrite Pos2Z.inj_succ.
    replace (Z.succ (Z.pos (digits2_pos m)) - 1)%Z
      with (Z.succ (Z.pos (digits2_pos m) - 1))%Z by lia.
    rewrite !Z.pow_succ_r by lia. lia.
  - rewrite Pos2Z.inj_succ.
    replace (Z.succ (Z.pos (digits2_pos m)) - 1)%Z
      with (Z.succ (Z.pos (digits2_pos m) - 1))%Z by lia.
    rewrite !Z.pow_succ_r by lia. lia.
  - simpl. lia.
Qed.

Lemma digits2_pos_small (m : positive) :
  (Z.pos m < 2 ^ 53)%Z -> (Z.pos (digits2_pos m) <= 53)%Z.
Proof.
  intros H. destruct (digits2_pos_bounds m) as [Hlo _].
  destruct (Z.le_gt_cases (Z.pos (digits2_pos m)) 53) as [|Hgt]; [assumption|].
  assert (2 ^ 53 <= 2 ^ (Z.pos (digits2_pos m) - 1))%Z
    by (apply Z.pow_le_mono_r; lia).
  lia.
Qed.

Lemma digits2_pos_iter (m k : positive) :
  digits2_pos (Pos.iter xO m k) = (digits2_pos m + k)%positive.
Proof.
  induction k as [|k IH] using Pos.peano_ind.
  - simpl. lia.
  - rewrite Pos.iter_succ. simpl. rewrite IH. lia.
Qed.

Lemma iter_xO_value (m k : positive) :
  Z.pos (Pos.iter xO m k) = (Z.pos m * 2 ^ Z.pos k)%Z.
Proof.
  change (Pos.iter xO m k) with (shift_pos k m).
  rewrite shift_pos_correct, Z.pow_pos_fold. lia.
Qed.

(** A positive integer below 2^53 is a double: its mantissa shifted to 53
    bits, with the matching exponent. *)
Lemma normalize_small (m : positive) :
  (Z.pos m < 2 ^ 53)%Z ->
  exists mz ez,
    binary_normalize prec emax (Z.pos m) 0 false = S754_finite false mz ez /\
    (-52 <= ez <= 0)%Z /\
    Z.pos mz = (Z.pos m * 2 ^ (- ez))%Z /\
    Z.pos (digits2_pos mz) = 53%Z.
Proof.
  intros Hm. pose proof (digits2_pos_small m Hm) as Hd.
  assert (Hd1 : (1 <= Z.pos (digits2_pos m))%Z) by lia.
  unfold binary_normalize, binary_round, shl_align, fexp, SpecFloat.emin.
  change prec with 53%Z. change emax with 1024%Z.
  replace (Z.max (Z.pos (digits2_pos m) + 0 - 53) (3 - 1024 - 53))%Z
    with (Z.pos (digits2_pos m) - 53)%Z by lia.
  assert (Haux : forall mz ez,
    (-52 <= ez <= 0)%Z -> Z.pos (digits2_pos mz) = 53%Z ->
    binary_round_aux 53 1024 false (Z.pos mz) ez loc_Exact =
      S754_finite false mz ez).
  { intros mz ez He Hz.
    unfold binary_round_aux, shr_fexp, fexp, SpecFloat.emin. simpl Zdigits2.
    rewrite Hz.
    replace (Z.max (53 + ez - 53) (3 - 1024 - 53) - ez)%Z with 0%Z by lia.
    simpl. rewrite Hz.
    replace (Z.max (53 + ez - 53) (3 - 1024 - 53) - ez)%Z with 0%Z by lia.
    simpl. destruct (Z.leb_spec ez (1024 - 53)) as [|]; [reflexivity | lia]. }
  destruct (Z.pos (digits2_pos m) - 53 - 0)%Z as [|p|p] eqn:Ee.
  - exists m, 0%Z. rewrite Haux by lia. repeat split; lia.
  - lia.
  - exists (Pos.iter xO m p), (Z.pos (digits2_pos m) - 53)%Z.
    assert (Hz : Z.pos (digits2_pos (Pos.iter xO m p)) = 53%Z)
      by (rewrite digits2_pos_iter; lia).
    rewrite Haux by (try exact Hz; lia).
    repeat split; try lia.
    rewrite iter_xO_value. f_equal. f_equal. lia.
Qed.

(** [static_cast<int>(static_cast<double>(n)) == n] for the argument
    counts of [to_rpn]. *)
Lemma int_double_int (n : Z) :
  (0 <= n < 2 ^ 53)%Z -> libc.double_to_int (libc.int_to_double n) = n.
Proof.
  intros Hn. unfold libc.double_to_int, libc.int_to_double.
  destruct n as [|m|m]; [| |lia].
  - simpl binary_normalize. rewrite Prim2SF_SF2Prim by reflexivity.
    reflexivity.
  - destruct (normalize_small m) as (mz & ez & -> & He & Hv & Hz); [lia|].
    rewrite Prim2SF_SF2Prim.
    2: { simpl. unfold bounded, canonical_mantissa, fexp, SpecFloat.emin.
         rewrite Hz. change prec with 53%Z. change emax with 1024%Z.
         apply andb_true_intro. split; [apply Z.eqb_eq | apply Z.leb_le]; lia. }
    destruct ez as [|p|p]; [| lia |].
    + rewrite Z.shiftl_mul_pow2 by lia. simpl in Hv. lia.
    + rewrite Z.shiftr_div_pow2 by lia. rewrite Hv.
      change (- Z.neg p)%Z with (Z.pos p).
      apply Z.div_mul. apply Z.pow_nonzero; lia.
Qed.

End cast_facts.

(** ** [to_rpn] on the trees of the grammar *)

Module grammar_facts.

Import tsexpr.

Lemma expr_nested_ind (P : expr -> Prop) :
  (forall x, P (EVar x)) ->
  (forall v, P (ENum v)) ->
  (forall a, P a -> P (ENeg a)) ->
  (forall o a b, P a -> P b -> P (EBin o a b)) ->
  (forall a, P a -> P (EParen a)) ->
  (forall f args, Forall P args -> P (ECall f args)) ->
  forall e, P e.
Proof.
  intros HVar HNum HNeg HBin HParen HCall.
  fix IH 1. intros [x|v|a|o a b|a|f args].
  - apply HVar.
  - apply HNum.
  - apply HNeg, IH.
  - apply HBin; apply IH.
  - apply HParen, IH.
  - apply HCall. induction args as [|a args IHargs]; constructor.
    + apply IH.
    + exact IHargs.
Qed.

Lemma infix_call f args :
  infix (ECall f args) =
  ident f :: tok LParen :: infix_args args ++ [tok RParen].
Proof.
  reflexivity.
Qed.

Lemma mark_arg_idem fs : mark_arg (mark_arg fs) = mark_arg fs.
Proof. destruct fs; reflexivity. Qed.

(** The three ways [to_rpn] takes operators off its stack, on a stack
    that holds the pending operators of a tree. *)
Lemma pop_operators_neg ops out :
  pop_operators Neg out ops = (out, ops).
Proof.
  destruct ops as [|top ops]; simpl; [reflexivity|].
  destruct (kind top); reflexivity.
Qed.

Lemma pop_operators_pending o pend : forall ops out,
  is_binary o = true ->
  Forall (pending (level o)) pend ->
  match ops with
  | t :: _ => is_op (kind t) = true -> level (kind t) < level o
  | [] => True
  end ->
  pop_operators o out (pend ++ ops) = (out ++ pend, ops).
Proof.
  induction pend as [|p pend IH]; intros ops out Ho Hp Htop.
  - rewrite app_nil_r. destruct ops as [|t ops]; simpl; [reflexivity|].
    destruct (is_op (kind t)) eqn:Et; simpl; [|reflexivity].
    specialize (Htop eq_refl).
    destruct o; try discriminate Ho;
      destruct (kind t); simpl in *; try discriminate Et; try lia;
      reflexivity.
  - apply Forall_cons in Hp as [[Hop Hl] Hp]. simpl.
    rewrite Hop. simpl.
    assert (Hpop : pop_it (kind p) o = true).
    { destruct o; try discriminate Ho;
        destruct (kind p); simpl in *; try discriminate Hop; try lia;
        reflexivity. }
    rewrite Hpop, IH by assumption. rewrite <- app_assoc. reflexivity.
Qed.

Lemma pop_to_lparen_pending l pend : forall lp ops out,
  Forall (pending l) pend -> kind lp = LParen ->
  pop_to_lparen out (pend ++ lp :: ops) = (out ++ pend, lp :: ops).
Proof.
  induction pend as [|p pend IH]; intros lp ops out Hp Hlp; simpl.
  - rewrite Hlp, app_nil_r. reflexivity.
  - apply Forall_cons in Hp as [[Hop _] Hp].
    rewrite (IH _ _ _ Hp Hlp), <- app_assoc.
    destruct (kind p); try discriminate Hop; reflexivity.
Qed.

Lemma drain_pending l pend : forall out,
  Forall (pending l) pend -> drain out pend = Ok (out ++ pend).
Proof.
  induction pend as [|p pend IH]; intros out Hp; simpl.
  - rewrite app_nil_r. reflexivity.
  - apply Forall_cons in Hp as [[Hop _] Hp].
    rewrite (IH _ Hp), <- app_assoc.
    destruct (kind p); try discriminate Hop; reflexivity.
Qed.

Lemma pending_weaken l l' pend :
  l' <= l -> Forall (pending l) pend -> Forall (pending l') pend.
Proof.
  intros Hl H. eapply List.Forall_impl; [|exact H].
  intros t [H1 H2]. split; [exact H1 | lia].
Qed.

Lemma loop_operand st t rest :
  is_operand (kind t) = true -> head_not_lparen rest ->
  loop st (t :: rest) = loop (on_operand st t) rest.
Proof.
  intros Hk Hr.
  destruct (tsexpr_facts.loop_cases st t rest) as
    [[He _]|[(_ & lp & r & -> & Hlp & _)|[(_ & _ & ->)|(_ & Hni & ->)]]].
  - rewrite He in Hk. discriminate.
  - simpl in Hr. congruence.
  - reflexivity.
  - unfold step. destruct (kind t); try discriminate Hk; try congruence.
    reflexivity.
Qed.

Lemma loop_step st t rest :
  kind t <> End -> kind t <> Ident ->
  loop st (t :: rest) = (st' <- step st t ;; loop st' rest).
Proof.
  intros He Hi.
  destruct (tsexpr_facts.loop_cases st t rest) as
    [[? _]|[(? & _)|[(? & _)|(_ & _ & ->)]]]; try congruence.
Qed.

Lemma loop_on_call st f lp rest :
  kind f = Ident -> kind lp = LParen ->
  loop st (f :: lp :: rest) = loop (on_call st f lp) rest.
Proof. intros Hf Hlp. cbn [loop]. rewrite Hf, Hlp. reflexivity. Qed.

(** The arguments of a call, from the ['('] of the call to its [')']. *)
Lemma reads_args f args :
  args <> [] -> Forall (reads 1) args ->
  forall (c : Z) (saw : bool) (out ops : list Token) (fs : list FnFrame)
         (lp fn : Token) (rest : list Token),
    kind lp = LParen -> kind fn = Func ->
    loop (mkRpnState out (lp :: fn :: ops) true (mkFnFrame f c saw :: fs))
         (infix_args args ++ tok RParen :: rest) =
    loop (mkRpnState
            (out ++ concat (map postfix args) ++
             [mkToken Func (text fn)
                (libc.int_to_double (c + Z.of_nat (length args)))])
            ops false (mark_arg fs))
         rest.
Proof.
  intros Hne Hall. induction Hall as [|a args Ha Hall IH]; [congruence|].
  intros c saw out ops fs lp fn rest Hlp Hfn.
  set (st := mkRpnState out (lp :: fn :: ops) true (mkFnFrame f c saw :: fs)).
  assert (Hnf : top_not_func (opstack st)) by (simpl; congruence).
  assert (Htb : top_below 1 (opstack st)).
  { intros _. simpl. rewrite Hlp. discriminate. }
  destruct args as [|b args].
  - (* the last argument *)
    simpl infix_args. rewrite app_nil_r.
    destruct (Ha st (tok RParen :: rest) eq_refl Hnf Htb)
      as (body & pend & Hb & Hp & ->); [simpl; discriminate|].
    rewrite loop_step by discriminate.
    unfold step, after. cbn [kind tok]. unfold on_rparen.
    cbn [output opstack fnstack st].
    rewrite (pop_to_lparen_pending _ _ _ _ _ Hp Hlp). rewrite Hfn.
    cbn [mark_arg saw_any_arg argc bind]. simpl map. simpl concat.
    rewrite app_nil_r, <- Hb, <- !app_assoc.
    replace (c + Z.of_nat (length [a]))%Z with (c + 1)%Z by (simpl; lia).
    reflexivity.
  - (* an argument and a comma *)
    change (infix_args (a :: b :: args))
      with (infix a ++ tok Comma :: infix_args (b :: args)).
    rewrite <- app_assoc. rewrite <- app_comm_cons.
    destruct (Ha st (tok Comma :: infix_args (b :: args) ++ tok RParen :: rest)
                eq_refl Hnf Htb)
      as (body & pend & Hb & Hp & ->); [simpl; discriminate|].
    rewrite loop_step by discriminate.
    unfold step, after. cbn [kind tok]. unfold on_comma.
    cbn [output opstack fnstack st].
    rewrite (pop_to_lparen_pending _ _ _ _ _ Hp Hlp).
    cbn [mark_arg saw_any_arg argc name bind].
    rewrite (IH ltac:(discriminate) (c + 1)%Z true _ ops fs lp fn rest Hlp Hfn).
    replace (c + Z.of_nat (length (a :: b :: args)))%Z
      with (c + 1 + Z.of_nat (length (b :: args)))%Z
      by (change (length (a :: b :: args)) with (S (length (b :: args))); lia).
    change (map postfix (a :: b :: args))
      with (postfix a :: map postfix (b :: args)).
    cbn [concat]. rewrite <- Hb, <- !app_assoc. reflexivity.
Qed.

Lemma parses_at_weaken e : forall l l',
  l' <= l -> parses_at l e = true -> parses_at l' e = true.
Proof.
  destruct e as [x|v|a|o a b|a|f args]; intros l l' Hl; simpl; try tauto.
  - rewrite !andb_true_iff, !Nat.leb_le. intros [H1 H2]. split; [lia | auto].
  - rewrite !andb_true_iff, !Nat.leb_le. intros [[[H1 H2] H3] H4].
    repeat split; auto; lia.
Qed.

Theorem reads_tree e : forall l, parses_at l e = true -> reads l e.
Proof.
  induction e as [x|v|a IHa|o a b IHa IHb|a IHa|f args IHargs]
    using expr_nested_ind; intros l Hwf st rest Hexp Hnf Htb Hrest.
  - (* a variable *)
    exists [ident x], []. split; [reflexivity | split; [constructor|]].
    simpl app. rewrite loop_operand by (assumption || reflexivity).
    unfold after, on_operand. rewrite app_nil_l. reflexivity.
  - (* a number *)
    exists [num v], []. split; [reflexivity | split; [constructor|]].
    simpl app. rewrite loop_operand by (assumption || reflexivity).
    unfold after, on_operand. rewrite app_nil_l. reflexivity.
  - (* unary minus *)
    simpl in Hwf. apply andb_prop in Hwf as [Hl Ha]. apply Nat.leb_le in Hl.
    set (st1 := mkRpnState (output st) (tok Neg :: opstack st) true
                           (fnstack st)).
    destruct (IHa 3 Ha st1 rest eq_refl) as (body & pend & Hb & Hp & Hloop);
      [simpl; discriminate | intros H; lia | exact Hrest |].
    exists body, (pend ++ [tok Neg]). split; [|split].
    + simpl. rewrite <- Hb, <- app_assoc. reflexivity.
    + apply Forall_app. split; [eapply pending_weaken; [|exact Hp]; lia|].
      constructor; [|constructor]. split; [reflexivity | simpl; lia].
    + simpl infix. rewrite <- app_comm_cons, loop_step by discriminate.
      unfold step. cbn [kind tok retag_minus]. rewrite Hexp.
      cbn [kind is_op bind]. unfold on_operator. cbn [kind].
      rewrite pop_operators_neg.
      change (loop st1 (infix a ++ rest) =
              loop (after st body (pend ++ [tok Neg])) rest).
      rewrite Hloop. unfold after. cbn [output opstack fnstack st1].
      rewrite <- app_assoc. reflexivity.
  - (* a binary operator *)
    simpl in Hwf. rewrite !andb_true_iff in Hwf.
    destruct Hwf as [[[Ho Hl] Ha] Hb]. apply Nat.leb_le in Hl.
    assert (Hlo : level o <= 2) by (destruct o; simpl in *; try lia; discriminate).
    assert (Htb' : top_below (level o) (opstack st)).
    { intros _. specialize (Htb ltac:(lia)).
      destruct (opstack st) as [|t ops]; [exact I|].
      intros Ht. specialize (Htb Ht). lia. }
    simpl infix. rewrite <- app_assoc, <- app_comm_cons.
    destruct (IHa _ Ha st (tok o :: infix b ++ rest) Hexp Hnf Htb')
      as (body1 & pend1 & Hb1 & Hp1 & ->);
      [simpl; destruct o; discriminate|].
    rewrite loop_step by (destruct o; discriminate).
    assert (Hstep : step (after st body1 pend1) (tok o) =
              Ok (mkRpnState (output st ++ postfix a) (tok o :: opstack st)
                             true (mark_arg (fnstack st)))).
    { unfold step, after, retag_minus. cbn [kind tok expect_operand].
      destruct o; try discriminate Ho; cbn [kind tok is_op];
        unfold on_operator; cbn [kind tok output opstack fnstack];
        rewrite pop_operators_pending
          by (try assumption; try reflexivity; apply Htb'; exact Hlo);
        rewrite <- app_assoc, Hb1; reflexivity. }
    rewrite Hstep. cbn [bind].
    set (st2 := mkRpnState (output st ++ postfix a) (tok o :: opstack st)
                           true (mark_arg (fnstack st))).
    destruct (IHb _ Hb st2 rest eq_refl) as (body2 & pend2 & Hb2 & Hp2 & ->);
      [ simpl; destruct o; discriminate
      | intros _; simpl; intros _; lia
      | exact Hrest |].
    exists (postfix a ++ body2), (pend2 ++ [tok o]). split; [|split].
    + simpl postfix. rewrite <- Hb2, <- !app_assoc. reflexivity.
    + apply Forall_app. split; [eapply pending_weaken; [|exact Hp2]; lia|].
      constructor; [|constructor].
      split; [destruct o; try discriminate Ho; reflexivity | exact Hl].
    + unfold after. cbn [output opstack fnstack st2].
      rewrite mark_arg_idem, <- !app_assoc. reflexivity.
  - (* parentheses *)
    simpl in Hwf.
    set (st1 := mkRpnState (output st) (tok LParen :: opstack st) true
                           (fnstack st)).
    simpl infix. rewrite <- app_comm_cons, loop_step by discriminate.
    unfold step. cbn [kind tok bind]. fold (on_lparen st (tok LParen)).
    change (on_lparen st (tok LParen)) with st1.
    rewrite <- app_assoc. simpl app.
    destruct (IHa 1 Hwf st1 (tok RParen :: rest) eq_refl)
      as (body & pend & Hb & Hp & ->);
      [simpl; discriminate | intros _; simpl; discriminate
      | simpl; discriminate |].
    exists (postfix a), []. split; [apply app_nil_r | split; [constructor|]].
    rewrite loop_step by discriminate.
    unfold step, after. cbn [kind tok]. unfold on_rparen.
    cbn [output opstack fnstack st1].
    rewrite (pop_to_lparen_pending 1 pend (tok LParen) (opstack st) _ Hp
               eq_refl).
    rewrite <- app_assoc, Hb.
    destruct (opstack st) as [|t ops] eqn:Eops; cbn [bind]; [reflexivity|].
    simpl in Hnf. destruct (kind t) eqn:Et; try reflexivity. congruence.
  - (* a call *)
    assert (Hne : args <> []) by (destruct args; simpl in Hwf; congruence).
    assert (Hall : Forall (reads 1) args).
    { assert (Hf : forallb (parses_at 1) args = true)
        by (destruct args; simpl in Hwf; [discriminate | exact Hwf]).
      clear -Hf IHargs. induction IHargs as [|a args Ha _ IH];
        [constructor|].
      simpl in Hf. apply andb_prop in Hf as [H1 H2].
      constructor; [apply Ha; exact H1 | apply IH; exact H2]. }
    exists (postfix (ECall f args)), [].
    split; [apply app_nil_r | split; [constructor|]].
    rewrite infix_call, <- !app_comm_cons, <- app_assoc. simpl app.
    rewrite loop_on_call by reflexivity. unfold on_call. cbn [text ident].
    rewrite (reads_args f args Hne Hall 0%Z false (output st) (opstack st)
               (fnstack st) (tok LParen) (mkToken Func f 0%float) rest
               eq_refl eq_refl).
    unfold after. rewrite app_nil_l. reflexivity.
Qed.

End grammar_facts.

(** ** From the tokens of a tree to its value *)

Module tree_facts.

Lemma infix_cons (e : expr) :
  exists t l, infix e = t :: l /\ tsexpr.kind t <> End.
Proof.
  induction e as [x|v|a IHa|o a b (t & l & Ha & Ht) _|a IHa|f args _]
    using grammar_facts.expr_nested_ind;
    try (eexists; eexists; split; [reflexivity | discriminate]).
  exists t, (l ++ tsexpr.tok o :: infix b). split; [|exact Ht].
  simpl. rewrite Ha. reflexivity.
Qed.

Lemma to_rpn_infix (e : expr) (t : tsexpr.Token) (l : list tsexpr.Token) :
  parses_at 1 e = true -> infix e = t :: l ->
  tsexpr.to_rpn (l, None) t = Ok (postfix e).
Proof.
  intros Hwf Hi. unfold tsexpr.to_rpn. cbn [fst snd]. rewrite <- Hi.
  destruct (grammar_facts.reads_tree e 1 Hwf tsexpr.rpn_init [] eq_refl I)
    as (body & pend & Hb & Hp & Hloop);
    [intros _; exact I | exact I |].
  rewrite app_nil_r in Hloop. rewrite Hloop. cbn [tsexpr.loop bind].
  unfold after. cbn [tsexpr.output tsexpr.opstack tsexpr.fnstack tsexpr.rpn_init].
  rewrite app_nil_r, app_nil_l, (grammar_facts.drain_pending 1 pend body Hp).
  cbn [bind tsexpr.mark_arg]. rewrite Hb. reflexivity.
Qed.

Lemma lower_all_app (a b : list tsexpr.Token) :
  tsexpr.lower_all (a ++ b) =
  (x <- tsexpr.lower_all a ;; y <- tsexpr.lower_all b ;; Ok (x ++ y)).
Proof.
  induction a as [|t a IH]; simpl.
  - destruct (tsexpr.lower_all b); reflexivity.
  - destruct (tsexpr.lower t) as [i|e]; simpl; [|reflexivity].
    rewrite IH. destruct (tsexpr.lower_all a) as [x|e]; simpl; [|reflexivity].
    destruct (tsexpr.lower_all b); reflexivity.
Qed.

Lemma lower_postfix (e : expr) : forall l,
  parses_at l e = true -> arities_fit e = true ->
  tsexpr.lower_all (postfix e) = Ok (code_of e).
Proof.
  induction e as [x|v|a IHa|o a b IHa IHb|a IHa|f args IHargs]
    using grammar_facts.expr_nested_ind; intros l Hwf Hfit;
    simpl in Hwf, Hfit.
  - reflexivity.
  - reflexivity.
  - apply andb_prop in Hwf as [_ Ha]. simpl postfix.
    rewrite lower_all_app, (IHa _ Ha Hfit). reflexivity.
  - rewrite !andb_true_iff in Hwf. destruct Hwf as [[[Ho _] Ha] Hb].
    apply andb_prop in Hfit as [Fa Fb]. simpl postfix.
    rewrite !lower_all_app, (IHa _ Ha Fa), (IHb _ Hb Fb). cbn [bind].
    destruct o; try discriminate Ho; reflexivity.
  - apply (IHa _ Hwf Hfit).
  - apply andb_prop in Hfit as [Hn Hfit]. apply Z.ltb_lt in Hn.
    assert (Hf : forallb (parses_at 1) args = true)
      by (destruct args; [discriminate | exact Hwf]).
    simpl postfix. rewrite lower_all_app.
    assert (Hargs : tsexpr.lower_all (concat (map postfix args)) =
                    Ok (concat (map code_of args))).
    { clear Hn Hwf. induction IHargs as [|a args Ha _ IH]; [reflexivity|].
      simpl in Hf, Hfit. apply andb_prop in Hf as [H1 H2].
      apply andb_prop in Hfit as [F1 F2]. simpl.
      rewrite lower_all_app, (Ha _ H1 F1), (IH F2 H2). reflexivity. }
    rewrite Hargs. cbn [bind]. simpl tsexpr.lower_all. unfold tsexpr.lower. cbn [tsexpr.kind].
    cbn [bind tsexpr.number tsexpr.text].
    rewrite cast_facts.int_double_int; [reflexivity|].
    split; [lia|]. eapply Z.lt_trans; [exact Hn | reflexivity].
Qed.

Lemma compile_tree (e : expr) (z : string) :
  parses_at 1 e = true -> arities_fit e = true ->
  tsexpr.compile_tokens (ident z :: tsexpr.tok Assign :: infix e, None) =
  Ok (code_of e ++ [Store z]).
Proof.
  intros Hwf Hfit. destruct (infix_cons e) as (t & l & Hi & Ht).
  rewrite Hi, tsexpr_facts.compile_tokens_cons3. cbn [tsexpr.kind ident tsexpr.tok].
  rewrite (to_rpn_infix e t l Hwf Hi). cbn [bind].
  rewrite (lower_postfix e 1 Hwf Hfit). cbn [bind tsexpr.text].
  destruct (tsexpr.kind t); try reflexivity. congruence.
Qed.

Section WithBackend.

Context {S V : Type} (be : tsexpr.Backend S V) (s : S).

Lemma computes_args (args : list expr) :
  Forall (computes be s) args ->
  forall (st : list V) (post : list tsexpr.Instr),
    match denote_args (denote be s) args with
    | Ok xs =>
        length xs = length args /\
        tsexpr.run be (concat (map code_of args) ++ post) s st =
        tsexpr.run be post s (rev xs ++ st)
    | Err err =>
        exists st', tsexpr.run be (concat (map code_of args) ++ post) s st =
                    (s, st', Some err)
    end.
Proof.
  induction 1 as [|a args Ha _ IH]; intros st post.
  - split; reflexivity.
  - cbn [denote_args map concat]. rewrite <- app_assoc.
    specialize (Ha st (concat (map code_of args) ++ post)).
    destruct (denote be s a) as [x|err]; cbn [bind]; [|exact Ha].
    rewrite Ha. specialize (IH (x :: st) post).
    destruct (denote_args (denote be s) args) as [xs|err]; cbn [bind];
      [|exact IH].
    destruct IH as [Hl ->]. split; [simpl; congruence|].
    cbn [rev]. rewrite <- app_assoc. reflexivity.
Qed.

Lemma computes_tree (e : expr) : computes be s e.
Proof.
  induction e as [x|v|a IHa|o a b IHa IHb|a IHa|f args IHargs]
    using grammar_facts.expr_nested_ind; intros st post.
  - simpl. unfold tsexpr.exec_instr. simpl.
    destruct (tsexpr.load_var be s x) as [v|err]; simpl; eauto.
  - reflexivity.
  - cbn [denote code_of]. rewrite <- app_assoc.
    specialize (IHa st ([Arith tsexpr.OpNeg] ++ post)).
    destruct (denote be s a) as [x|err]; cbn [bind]; [|exact IHa].
    rewrite IHa. simpl. unfold tsexpr.exec_instr. simpl.
    destruct (tsexpr.neg be s x) as [v|err]; simpl; eauto.
  - cbn [denote code_of]. rewrite <- !app_assoc.
    specialize (IHa st (code_of b ++ [Arith (op_of o)] ++ post)).
    destruct (denote be s a) as [x|err]; cbn [bind]; [|exact IHa].
    rewrite IHa. specialize (IHb (x :: st) ([Arith (op_of o)] ++ post)).
    destruct (denote be s b) as [y|err]; cbn [bind]; [|exact IHb].
    rewrite IHb. simpl. unfold tsexpr.exec_instr.
    destruct o; simpl;
      destruct (tsexpr.binary be s _ x y) as [v|err]; simpl; eauto.
  - apply IHa.
  - cbn [denote code_of]. rewrite <- app_assoc.
    pose proof (computes_args args IHargs st
                  ([Call f (Z.of_nat (length args))] ++ post)) as Ha.
    destruct (denote_args (denote be s) args) as [xs|err]; cbn [bind];
      [|exact Ha].
    destruct Ha as [Hl ->]. cbn [app tsexpr.run].
    rewrite (stack_facts.exec_call_args be s st xs
               (Call f (Z.of_nat (length args))) eq_refl)
      by (simpl; congruence).
    cbn [tsexpr.itext Call].
    destruct (tsexpr.call be s f xs) as [v|err]; simpl; eauto.
Qed.

Lemma execute_tree (e : expr) (z : string) :
  tsexpr.execute be (code_of e ++ [Store z]) s =
  match denote be s e with
  | Ok x => (tsexpr.store_var be s z x, None)
  | Err err => (s, Some err)
  end.
Proof.
  unfold tsexpr.execute. pose proof (computes_tree e [] [Store z]) as H.
  destruct (denote be s e) as [x|err].
  - rewrite H. reflexivity.
  - destruct H as [st' ->]. reflexivity.
Qed.

End WithBackend.

End tree_facts.

(** X18.  The argument count of a call survives its passage through the
    [double] member [number] of the function token: for a count below
    2^53, [static_cast<int>(static_cast<double>(argc))] is [argc], so that
    the token [to_rpn] emits for a call of [argc] arguments is lowered to a
    [Call] with that [argc]. *)
Theorem X18_argument_count_round_trip :
  forall n : Z,
    (0 <= n < 2 ^ 53)%Z ->
    libc.double_to_int (libc.int_to_double n) = n /\
    forall f : string,
      tsexpr.lower (tsexpr.mkToken Func f (libc.int_to_double n)) =
      Ok (Call f n).
Proof.
  intros n Hn. pose proof (cast_facts.int_double_int n Hn) as H.
  split; [exact H|]. intros f. unfold tsexpr.lower. simpl. rewrite H.
  reflexivity.
Qed.

Lemma X18_argument_count_round_trip_witness :
  libc.double_to_int (libc.int_to_double 3) = 3%Z /\
  forall f : string,
    tsexpr.lower (tsexpr.mkToken Func f (libc.int_to_double 3)) =
    Ok (Call f 3).
Proof. apply (X18_argument_count_round_trip 3). lia. Defined.

(** X19.  [tsexpr::compile] follows the grammar: for every parse tree of

      sum ::= sum '+' product | sum '-' product | product,
      product ::= product '*' unary | product '/' unary | unary,
      unary ::= '-' unary | primary,
      primary ::= NUMBER | IDENT | '(' sum ')' | IDENT '(' sum {',' sum} ')',

    [to_rpn] turns the tokens of the tree into its postfix form, and
    [compile] turns a target, ['='] and these tokens into the code of the
    tree followed by the [Store] of the target. *)
Theorem X19_compile_follows_the_grammar :
  forall (e : expr) (z : string),
    parses_at 1 e = true ->
    (forall t l, infix e = t :: l ->
                 tsexpr.to_rpn (l, None) t = Ok (postfix e)) /\
    (arities_fit e = true ->
     tsexpr.compile_tokens
       (ident z :: tsexpr.tok Assign :: infix e, None) =
     Ok (code_of e ++ [Store z])).
Proof.
  intros e z Hwf. split.
  - intros t l. apply tree_facts.to_rpn_infix. exact Hwf.
  - intros Hfit. apply tree_facts.compile_tree; assumption.
Qed.

Lemma X19_compile_follows_the_grammar_witness :
  tsexpr.tokens libc.strtod_dec "z = -(a + b) * 2 - sumproduct(a, b / 4)" =
    (ident "z" :: tsexpr.tok Assign :: infix example_tree, None) /\
  tsexpr.compile_tokens
    (ident "z" :: tsexpr.tok Assign :: infix example_tree, None) =
  Ok ([PushVar "a"; PushVar "b"; Arith tsexpr.Add; Arith tsexpr.OpNeg;
       PushNum 2%float; Arith tsexpr.Mul;
       PushVar "a"; PushVar "b"; PushNum 4%float; Arith tsexpr.Div;
       Call "sumproduct" 2; Arith tsexpr.Sub] ++ [Store "z"]).
Proof.
  split; [vm_compute; reflexivity|].
  apply (proj2 (X19_compile_follows_the_grammar example_tree "z" eq_refl)
               eq_refl).
Defined.

(** X20.  The code of a tree computes the value of the tree: run by
    [Program::execute] on any stack, against any backend, it leaves the
    stack as it was with the value of the tree on top (operands loaded from
    left to right, each operator and call applied once its operands are
    there), or stops with the exception the evaluation of the tree throws,
    the backend untouched. *)
Theorem X20_code_computes_the_value :
  forall (S V : Type) (be : tsexpr.Backend S V) (s : S) (e : expr)
         (st : list V) (post : list tsexpr.Instr),
    match denote be s e with
    | Ok x =>
        tsexpr.run be (code_of e ++ post) s st = tsexpr.run be post s (x :: st)
    | Err err =>
        exists st', tsexpr.run be (code_of e ++ post) s st = (s, st', Some err)
    end.
Proof. intros S V be s e. apply tree_facts.computes_tree. Qed.

(** X21.  A statement stores the value of its expression: when the
    tokens of the input are a target, ['='] and the tokens of a parse tree,
    [compile] followed by [Program::execute] calls [store_var] on the
    target with the value of the tree, or throws what the evaluation of the
    tree throws and leaves the backend as it was. *)
Theorem X21_statement_stores_the_value :
  forall (S V : Type) (be : tsexpr.Backend S V) strtod (input z : string)
         (e : expr) (s : S),
    tsexpr.tokens strtod input =
      (ident z :: tsexpr.tok Assign :: infix e, None) ->
    parses_at 1 e = true ->
    arities_fit e = true ->
    tsexpr.compile_and_execute be strtod input s =
    match denote be s e with
    | Ok x => (tsexpr.store_var be s z x, None)
    | Err err => (s, Some err)
    end.
Proof.
  intros S V be strtod input z e s Htok Hwf Hfit.
  unfold tsexpr.compile_and_execute, tsexpr.compile. rewrite Htok.
  rewrite (tree_facts.compile_tree e z Hwf Hfit).
  apply tree_facts.execute_tree.
Qed.

Lemma X21_statement_stores_the_value_witness :
  tsexpr.compile_and_execute toy.Backend libc.strtod_dec
    "z = -(a + b) * 2 - sumproduct(a, b / 4)" toy_vars =
  match denote toy.Backend toy_vars example_tree with
  | Ok x => (tsexpr.store_var toy.Backend toy_vars "z" x, None)
  | Err err => (toy_vars, Some err)
  end.
Proof.
  apply X21_statement_stores_the_value; [vm_compute | |]; reflexivity.
Defined.

(** ** [ts::expr::compile] on the trees of the grammar *)

Module ts_grammar_facts.

Import ts_expr.

Lemma mark_expr_false fs : mark_expr fs false = fs.
Proof.
  destruct fs as [|c fs]; simpl; [reflexivity|].
  rewrite andb_false_r. reflexivity.
Qed.

Lemma mark_expr_twice fs b1 b2 :
  mark_expr (mark_expr fs b1) b2 = mark_expr fs (b1 || b2).
Proof.
  destruct fs as [|[c d s] fs]; [reflexivity|].
  unfold mark_expr. cbn [depth commas saw_expr].
  destruct (d =? 1)%Z eqn:Ed, b1, b2; cbn [andb orb depth commas];
    rewrite ?Ed; reflexivity.
Qed.

Lemma mark_expr_frame c saw fs b :
  mark_expr (mkFuncCtx c 1 saw :: fs) b = mkFuncCtx c 1 (saw || b) :: fs.
Proof. destruct saw, b; reflexivity. Qed.

Lemma mark_expr_deep c fs b :
  (depth c <> 1)%Z -> mark_expr (c :: fs) b = c :: fs.
Proof.
  intros H. unfold mark_expr. apply Z.eqb_neq in H. rewrite H. reflexivity.
Qed.

Lemma frame_open_mark fs b : frame_open fs -> frame_open (mark_expr fs b).
Proof.
  destruct fs as [|c fs]; [exact id|]. unfold mark_expr.
  destruct ((depth c =? 1)%Z && b); exact id.
Qed.

Lemma ts_pop_operators_neg ops out :
  pop_operators Neg out ops = (out, ops).
Proof.
  destruct ops as [|top ops]; simpl; [reflexivity|].
  destruct (kind top); reflexivity.
Qed.

Lemma ts_pop_operators_pending o pend : forall ops out,
  is_binary o = true ->
  Forall (ts_pending (level o)) pend ->
  match ops with
  | t :: _ => is_operator (kind t) = true -> level (kind t) < level o
  | [] => True
  end ->
  pop_operators o out (pend ++ ops) = (out ++ pend, ops).
Proof.
  induction pend as [|p pend IH]; intros ops out Ho Hp Htop.
  - rewrite app_nil_r. destruct ops as [|t ops]; simpl; [reflexivity|].
    destruct (is_operator (kind t)) eqn:Et; simpl; [|reflexivity].
    specialize (Htop eq_refl).
    destruct o; try discriminate Ho;
      destruct (kind t); simpl in *; try discriminate Et; try lia;
      reflexivity.
  - apply Forall_cons in Hp as [[Hop Hl] Hp]. simpl.
    rewrite Hop. simpl.
    assert (Hpop : pop_it (kind p) o = true).
    { destruct o; try discriminate Ho;
        destruct (kind p); simpl in *; try discriminate Hop; try lia;
        reflexivity. }
    rewrite Hpop, IH by assumption. rewrite <- app_assoc. reflexivity.
Qed.

Lemma ts_pop_to_lparen_pending l pend : forall lp ops out,
  Forall (ts_pending l) pend -> kind lp = LParen ->
  pop_to_lparen out (pend ++ lp :: ops) = (out ++ pend, lp :: ops).
Proof.
  induction pend as [|p pend IH]; intros lp ops out Hp Hlp; simpl.
  - rewrite Hlp, app_nil_r. reflexivity.
  - apply Forall_cons in Hp as [[Hop _] Hp].
    rewrite (IH _ _ _ Hp Hlp), <- app_assoc.
    destruct (kind p); try discriminate Hop; reflexivity.
Qed.

Lemma pop_through_lparen_pending l pend : forall lp ops out,
  Forall (ts_pending l) pend -> kind lp = LParen ->
  pop_through_lparen out (pend ++ lp :: ops) = Some (out ++ pend, ops).
Proof.
  induction pend as [|p pend IH]; intros lp ops out Hp Hlp; simpl.
  - rewrite Hlp, app_nil_r. reflexivity.
  - apply Forall_cons in Hp as [[Hop _] Hp].
    rewrite (IH _ _ _ Hp Hlp), <- app_assoc.
    destruct (kind p); try discriminate Hop; reflexivity.
Qed.

Lemma ts_drain_pending l pend : forall out,
  Forall (ts_pending l) pend -> drain out pend = Ok (out ++ pend).
Proof.
  induction pend as [|p pend IH]; intros out Hp; simpl.
  - rewrite app_nil_r. reflexivity.
  - apply Forall_cons in Hp as [[Hop _] Hp].
    rewrite (IH _ Hp), <- app_assoc.
    destruct (kind p); try discriminate Hop; reflexivity.
Qed.

Lemma ts_pending_weaken l l' pend :
  l' <= l -> Forall (ts_pending l) pend -> Forall (ts_pending l') pend.
Proof.
  intros Hl H. eapply List.Forall_impl; [|exact H].
  intros t [H1 H2]. split; [exact H1 | lia].
Qed.

Lemma ts_loop_operand st t rest :
  is_operand (kind t) = true -> ts_head_not_lparen rest ->
  loop st (t :: rest) = loop (on_operand st t) rest.
Proof.
  intros Hk Hr.
  destruct (ts_expr_facts.ts_loop_cases st t rest) as
    [[He _]|[(_ & lp & r & -> & Hlp & _)|[(_ & _ & ->)|(_ & Hni & ->)]]].
  - rewrite He in Hk. discriminate.
  - simpl in Hr. congruence.
  - reflexivity.
  - unfold step. destruct (kind t); try discriminate Hk; try congruence.
    reflexivity.
Qed.

Lemma ts_loop_step st t rest :
  kind t <> End -> kind t <> Ident ->
  loop st (t :: rest) = (st' <- step st t ;; loop st' rest).
Proof.
  intros He Hi.
  destruct (ts_expr_facts.ts_loop_cases st t rest) as
    [[? _]|[(? & _)|[(? & _)|(_ & _ & ->)]]]; try congruence.
Qed.

Lemma ts_loop_on_call st f lp rest :
  kind f = Ident -> kind lp = LParen ->
  loop st (f :: lp :: rest) = loop (on_call st f lp) rest.
Proof. intros Hf Hlp. cbn [loop]. rewrite Hf, Hlp. reflexivity. Qed.

Lemma map_conv_app (l1 l2 : list tsexpr.Token) :
  map conv (l1 ++ l2) = map conv l1 ++ map conv l2.
Proof. apply List.map_app. Qed.

(** The arguments of a call, from the ['('] of the call to its [')']. *)
Lemma ts_reads_args args :
  args <> [] -> Forall (ts_reads 1) args ->
  forall (c : Z) (saw : bool) (out ops : list Token) (fs : list FuncCtx)
         (lp fn : Token) (rest : list Token),
    kind lp = LParen -> kind fn = Func ->
    loop (mkState out (lp :: fn :: ops) (mkFuncCtx c 1 saw :: fs) true)
         (map conv (infix_args args) ++ conv (tsexpr.tok RParen) :: rest) =
    if forallb callable args && (saw || existsb exposes args) then
      loop (mkState
              (out ++ concat (map ts_postfix args) ++
               [mkToken Func (text fn) (number fn)
                  (c + Z.of_nat (length args))])
              ops fs false)
           rest
    else Err (ParseError "Function call has empty argument list").
Proof.
  intros Hne Hall. induction Hall as [|a args Ha Hall IH]; [congruence|].
  intros c saw out ops fs lp fn rest Hlp Hfn.
  set (st := mkState out (lp :: fn :: ops) (mkFuncCtx c 1 saw :: fs) true).
  assert (Htb : ts_top_below 1 (opstack st)).
  { intros _. simpl. rewrite Hlp. discriminate. }
  assert (Hfo : frame_open (func_stack st)) by (simpl; lia).
  destruct args as [|b args].
  - (* the last argument *)
    simpl infix_args. rewrite app_nil_r.
    specialize (Ha st (conv (tsexpr.tok RParen) :: rest) eq_refl Htb Hfo).
    cbn [forallb existsb]. rewrite andb_true_r, orb_false_r.
    destruct (callable a); cbn [andb];
      [|apply Ha; simpl; discriminate].
    destruct Ha as (body & pend & Hb & Hp & ->); [simpl; discriminate|].
    rewrite ts_loop_step by discriminate.
    unfold step, ts_after. cbn [kind conv tsexpr.kind tsexpr.tok].
    unfold on_rparen. cbn [output opstack func_stack st].
    rewrite mark_expr_frame. cbn [depth commas saw_expr bind].
    change (1 - 1 <? 0)%Z with false. change (1 - 1 =? 0)%Z with true.
    cbn iota.
    rewrite (pop_through_lparen_pending _ _ _ _ _ Hp Hlp). rewrite Hfn.
    cbn [is_function TokKind_eqb saw_expr commas bind].
    destruct (saw || exposes a); cbn [bind]; [|reflexivity].
    simpl map. simpl concat.
    rewrite app_nil_r, <- Hb, <- !app_assoc.
    replace (c + Z.of_nat (length [a]))%Z with (c + 1)%Z by (simpl; lia).
    reflexivity.
  - (* an argument and a comma *)
    change (infix_args (a :: b :: args))
      with (infix a ++ tsexpr.tok Comma :: infix_args (b :: args)).
    rewrite map_conv_app, <- app_assoc. cbn [map]. rewrite <- app_comm_cons.
    specialize (Ha st (conv (tsexpr.tok Comma) ::
                       map conv (infix_args (b :: args)) ++
                       conv (tsexpr.tok RParen) :: rest) eq_refl Htb Hfo).
    change (forallb callable (a :: b :: args))
      with (callable a && forallb callable (b :: args)).
    change (existsb exposes (a :: b :: args))
      with (exposes a || existsb exposes (b :: args)).
    destruct (callable a); cbn [andb];
      [|apply Ha; simpl; discriminate].
    destruct Ha as (body & pend & Hb & Hp & ->); [simpl; discriminate|].
    rewrite ts_loop_step by discriminate.
    unfold step, ts_after. cbn [kind conv tsexpr.kind tsexpr.tok].
    unfold on_comma. cbn [output opstack func_stack st].
    rewrite mark_expr_frame. cbn [depth commas saw_expr bind].
    change (negb (1 =? 1)%Z) with false. cbn iota.
    rewrite (ts_pop_to_lparen_pending _ _ _ _ _ Hp Hlp).
    cbn [bind].
    rewrite (IH ltac:(discriminate) (c + 1)%Z (saw || exposes a) _ ops fs
               lp fn rest Hlp Hfn).
    rewrite orb_assoc.
    replace (c + Z.of_nat (length (a :: b :: args)))%Z
      with (c + 1 + Z.of_nat (length (b :: args)))%Z
      by (change (length (a :: b :: args)) with (S (length (b :: args))); lia).
    cbn [map concat]. rewrite <- Hb, <- !app_assoc. reflexivity.
Qed.

Theorem ts_reads_tree e : forall l, parses_at l e = true -> ts_reads l e.
Proof.
  induction e as [x|v|a IHa|o a b IHa IHb|a IHa|f args IHargs]
    using grammar_facts.expr_nested_ind;
    intros l Hwf st rest Hexp Htb Hfo Hrest.
  - (* a variable *)
    cbn [callable]. exists [conv (ident x)], [].
    split; [reflexivity | split; [constructor|]].
    simpl app. rewrite ts_loop_operand by (assumption || reflexivity).
    unfold ts_after, on_operand. rewrite app_nil_l, Hexp. reflexivity.
  - (* a number *)
    cbn [callable]. exists [conv (num v)], [].
    split; [reflexivity | split; [constructor|]].
    simpl app. rewrite ts_loop_operand by (assumption || reflexivity).
    unfold ts_after, on_operand. rewrite app_nil_l, Hexp. reflexivity.
  - (* unary minus *)
    simpl in Hwf. apply andb_prop in Hwf as [Hl Ha]. apply Nat.leb_le in Hl.
    set (st1 := mkState (output st) (tok Neg :: opstack st) (func_stack st)
                        true).
    assert (Hstep : loop st (map conv (infix (ENeg a)) ++ rest) =
                    loop st1 (map conv (infix a) ++ rest)).
    { cbn [infix map]. rewrite <- app_comm_cons, ts_loop_step by discriminate.
      unfold step. cbn [kind conv tsexpr.kind tsexpr.tok retag_minus].
      rewrite Hexp. cbn [kind is_operator bind text number arity tsexpr.text
                         tsexpr.number].
      unfold on_operator. cbn [kind]. rewrite ts_pop_operators_neg.
      reflexivity. }
    rewrite Hstep. cbn [callable].
    specialize (IHa 3 Ha st1 rest eq_refl).
    destruct (callable a).
    + destruct IHa as (body & pend & Hb & Hp & Hloop);
        [intros H; lia | exact Hfo | exact Hrest |].
      exists body, (pend ++ [tok Neg]). split; [|split].
      * simpl. rewrite <- Hb, <- app_assoc. reflexivity.
      * apply Forall_app. split; [eapply ts_pending_weaken; [|exact Hp]; lia|].
        constructor; [|constructor]. split; [reflexivity | simpl; lia].
      * rewrite Hloop. unfold ts_after. cbn [output opstack func_stack st1].
        rewrite <- app_assoc. reflexivity.
    + apply IHa; [intros H; lia | exact Hfo | exact Hrest].
  - (* a binary operator *)
    simpl in Hwf. rewrite !andb_true_iff in Hwf.
    destruct Hwf as [[[Ho Hl] Ha] Hb]. apply Nat.leb_le in Hl.
    assert (Hlo : level o <= 2)
      by (destruct o; simpl in *; try lia; discriminate).
    assert (Htb' : ts_top_below (level o) (opstack st)).
    { intros _. specialize (Htb ltac:(lia)).
      destruct (opstack st) as [|t ops]; [exact I|].
      intros Ht. specialize (Htb Ht). lia. }
    cbn [infix]. rewrite map_conv_app, <- app_assoc. cbn [map].
    rewrite <- app_comm_cons. cbn [callable].
    specialize (IHa _ Ha st (conv (tsexpr.tok o) ::
                             map conv (infix b) ++ rest) Hexp Htb' Hfo).
    destruct (callable a); cbn [andb];
      [|apply IHa; simpl; destruct o; discriminate].
    destruct IHa as (body1 & pend1 & Hb1 & Hp1 & ->);
      [simpl; destruct o; discriminate|].
    rewrite ts_loop_step by (destruct o; discriminate).
    set (st2 := mkState (output st ++ ts_postfix a) (tok o :: opstack st)
                        (mark_expr (func_stack st) (exposes a)) true).
    assert (Hstep : step (ts_after st a body1 pend1) (conv (tsexpr.tok o)) =
                    Ok st2).
    { unfold step, ts_after, retag_minus.
      cbn [kind conv tsexpr.kind tsexpr.tok expect_operand].
      destruct o; try discriminate Ho; cbn [kind is_operator];
        unfold on_operator; cbn [kind output opstack func_stack];
        rewrite ts_pop_operators_pending
          by (try assumption; try reflexivity; apply Htb'; exact Hlo);
        rewrite <- app_assoc, Hb1; reflexivity. }
    rewrite Hstep. cbn [bind].
    specialize (IHb _ Hb st2 rest eq_refl).
    destruct (callable b).
    + destruct IHb as (body2 & pend2 & Hb2 & Hp2 & ->);
        [ intros _; simpl; intros _; lia
        | apply frame_open_mark; exact Hfo
        | exact Hrest |].
      exists (ts_postfix a ++ body2), (pend2 ++ [tok o]). split; [|split].
      * simpl ts_postfix. rewrite <- Hb2, <- !app_assoc. reflexivity.
      * apply Forall_app.
        split; [eapply ts_pending_weaken; [|exact Hp2]; lia|].
        constructor; [|constructor].
        split; [destruct o; try discriminate Ho; reflexivity | exact Hl].
      * unfold ts_after. cbn [output opstack func_stack st2 exposes].
        rewrite mark_expr_twice, <- !app_assoc. reflexivity.
    + apply IHb; [ intros _; simpl; intros _; lia
                 | apply frame_open_mark; exact Hfo
                 | exact Hrest ].
  - (* parentheses *)
    simpl in Hwf.
    set (st1 := on_lparen st (conv (tsexpr.tok LParen))).
    assert (Hstep : loop st (map conv (infix (EParen a)) ++ rest) =
                    loop st1 (map conv (infix a) ++
                              conv (tsexpr.tok RParen) :: rest)).
    { cbn [infix map]. rewrite <- app_comm_cons, ts_loop_step by discriminate.
      unfold step. cbn [kind conv tsexpr.kind tsexpr.tok bind].
      rewrite map_conv_app, <- app_assoc. reflexivity. }
    rewrite Hstep. cbn [callable].
    assert (Hfo1 : frame_open (func_stack st1)).
    { unfold st1, on_lparen. cbn [func_stack].
      destruct (func_stack st) as [|c fs]; [exact I|]. simpl in *. lia. }
    specialize (IHa 1 Hwf st1 (conv (tsexpr.tok RParen) :: rest) eq_refl).
    destruct (callable a).
    + destruct IHa as (body & pend & Hb & Hp & ->);
        [ intros _; simpl; discriminate | exact Hfo1 | simpl; discriminate |].
      exists (ts_postfix a), [].
      split; [apply app_nil_r | split; [constructor|]].
      rewrite ts_loop_step by discriminate.
      unfold step, ts_after. cbn [kind conv tsexpr.kind tsexpr.tok].
      unfold on_rparen. unfold st1, on_lparen.
      cbn [output opstack func_stack].
      rewrite (pop_through_lparen_pending 1 pend (conv (tsexpr.tok LParen))
                 (opstack st) _ Hp eq_refl).
      rewrite <- app_assoc, Hb, Hexp. cbn [exposes].
      destruct (func_stack st) as [|[c d s] fs] eqn:Efs.
      * cbn [mark_expr bind]. reflexivity.
      * simpl in Hfo.
        rewrite mark_expr_deep by (cbn [depth]; lia).
        cbn [depth commas saw_expr bind].
        replace (d + 1 - 1)%Z with d by lia.
        destruct (d <? 0)%Z eqn:E0; [apply Z.ltb_lt in E0; lia|].
        destruct (d =? 0)%Z eqn:E1; [apply Z.eqb_eq in E1; lia|].
        cbn [bind]. unfold mark_expr. cbn [depth commas saw_expr].
        destruct (d =? 1)%Z eqn:E2.
        -- apply Z.eqb_eq in E2. subst d. reflexivity.
        -- assert (E3 : (d + 1 =? 2)%Z = false) by
             (apply Z.eqb_neq in E2; apply Z.eqb_neq; lia).
           rewrite E3. reflexivity.
    + apply IHa;
        [ intros _; simpl; discriminate | exact Hfo1 | simpl; discriminate ].
  - (* a call *)
    assert (Hne : args <> []) by (destruct args; simpl in Hwf; congruence).
    assert (Hall : Forall (ts_reads 1) args).
    { assert (Hf : forallb (parses_at 1) args = true)
        by (destruct args; simpl in Hwf; [discriminate | exact Hwf]).
      clear -Hf IHargs. induction IHargs as [|a args Ha _ IH];
        [constructor|].
      simpl in Hf. apply andb_prop in Hf as [H1 H2].
      constructor; [apply Ha; exact H1 | apply IH; exact H2]. }
    rewrite grammar_facts.infix_call. cbn [map].
    rewrite map_conv_app, <- !app_comm_cons, <- app_assoc. cbn [map app].
    rewrite ts_loop_on_call by reflexivity. unfold on_call.
    cbn [text conv tsexpr.text ident].
    rewrite (ts_reads_args args Hne Hall 0%Z false (output st) (opstack st)
               (func_stack st) (conv (tsexpr.tok LParen))
               (mkToken Func f 0%float 0) rest eq_refl eq_refl).
    cbn [callable orb].
    destruct (forallb callable args && existsb exposes args); [|reflexivity].
    exists (ts_postfix (ECall f args)), [].
    split; [apply app_nil_r | split; [constructor|]].
    unfold ts_after. cbn [exposes]. rewrite mark_expr_false, app_nil_l.
    reflexivity.
Qed.

End ts_grammar_facts.

(** ** [ts::expr]: from the tokens of a tree to its value *)

Module ts_tree_facts.

Lemma ts_compile_tree (e : expr) (z : string) :
  parses_at 1 e = true ->
  ts_expr.compile_tokens
    (map conv (ident z :: tsexpr.tok Assign :: infix e), None) =
  if callable e then Ok (ts_expr.mkCompiled z (ts_postfix e))
  else Err (ParseError "Function call has empty argument list").
Proof.
  intros Hwf. unfold ts_expr.compile_tokens.
  cbn [map ts_expr.lex_next bind ts_expr.kind conv tsexpr.kind ident
       tsexpr.tok fst snd].
  pose proof (ts_grammar_facts.ts_reads_tree e 1 Hwf ts_expr.init []
                eq_refl) as H.
  rewrite app_nil_r in H.
  destruct (callable e).
  - destruct H as (body & pend & Hb & Hp & ->);
      [intros _; exact I | exact I | exact I |].
    cbn [ts_expr.loop bind]. unfold ts_after.
    cbn [ts_expr.output ts_expr.opstack ts_expr.init].
    rewrite app_nil_r, app_nil_l.
    rewrite (ts_grammar_facts.ts_drain_pending 1 pend body Hp).
    cbn [bind ts_expr.text tsexpr.text]. rewrite Hb. reflexivity.
  - rewrite H; [reflexivity | intros _; exact I | exact I | exact I].
Qed.

Lemma ts_eval_loop_app env (a b : list ts_expr.Token) : forall st,
  ts_expr.eval_loop env st (a ++ b) =
  (st' <- ts_expr.eval_loop env st a ;; ts_expr.eval_loop env st' b).
Proof.
  induction a as [|t a IH]; intros st; [reflexivity|].
  cbn [app ts_expr.eval_loop].
  destruct (ts_expr.eval_token env st t) as [st'|err]; cbn [bind];
    [apply IH | reflexivity].
Qed.

(** The postfix form of a tree leaves the value of the tree on the
    stack, or throws what the tree throws. *)
Lemma ts_value_args env (args : list expr) :
  Forall (fun a => forall st,
            ts_expr.eval_loop env st (ts_postfix a) =
            (x <- denote ts_backend env a ;; Ok (x :: st))) args ->
  forall st,
    ts_expr.eval_loop env st (concat (map ts_postfix args)) =
    (xs <- denote_args (denote ts_backend env) args ;; Ok (rev xs ++ st)) /\
    forall xs, denote_args (denote ts_backend env) args = Ok xs ->
               length xs = length args.
Proof.
  induction 1 as [|a args Ha _ IH]; intros st.
  - split; [reflexivity|]. intros xs [= <-]. reflexivity.
  - cbn [denote_args map concat]. rewrite ts_eval_loop_app, Ha.
    destruct (denote ts_backend env a) as [x|err]; cbn [bind];
      [|split; [reflexivity | discriminate]].
    destruct (IH (x :: st)) as [-> Hl].
    destruct (denote_args (denote ts_backend env) args) as [xs|err];
      cbn [bind]; [|split; [reflexivity | discriminate]].
    split.
    + cbn [rev]. rewrite <- app_assoc. reflexivity.
    + intros ? [= <-]. simpl. f_equal. apply Hl. reflexivity.
Qed.

Lemma ts_value_tree env (e : expr) : forall l st,
  parses_at l e = true ->
  ts_expr.eval_loop env st (ts_postfix e) =
  (x <- denote ts_backend env e ;; Ok (x :: st)).
Proof.
  induction e as [x|v|a IHa|o a b IHa IHb|a IHa|f args IHargs]
    using grammar_facts.expr_nested_ind; intros l st Hwf; simpl in Hwf.
  - simpl. unfold ts_expr.eval_token. simpl.
    destruct (env !! x); reflexivity.
  - reflexivity.
  - apply andb_prop in Hwf as [_ Ha].
    cbn [ts_postfix denote]. rewrite ts_eval_loop_app, (IHa _ _ Ha).
    destruct (denote ts_backend env a) as [x|err]; reflexivity.
  - rewrite !andb_true_iff in Hwf. destruct Hwf as [[[Ho _] Ha] Hb].
    cbn [ts_postfix denote].
    rewrite ts_eval_loop_app, (IHa _ _ Ha).
    destruct (denote ts_backend env a) as [x|err]; cbn [bind];
      [|reflexivity].
    rewrite ts_eval_loop_app, (IHb _ _ Hb).
    destruct (denote ts_backend env b) as [y|err]; cbn [bind];
      [|reflexivity].
    destruct o; try discriminate Ho; simpl;
      unfold ts_expr.eval_token; simpl;
      destruct (ts_expr.apply_binary _ x y); reflexivity.
  - apply (IHa _ _ Hwf).
  - assert (Hne : args <> []) by (destruct args; congruence).
    assert (Hf : forallb (parses_at 1) args = true)
      by (destruct args; [discriminate | exact Hwf]).
    assert (Hall : Forall (fun a => forall st,
              ts_expr.eval_loop env st (ts_postfix a) =
              (x <- denote ts_backend env a ;; Ok (x :: st))) args).
    { clear -Hf IHargs. induction IHargs as [|a args Ha _ IH];
        [constructor|].
      simpl in Hf. apply andb_prop in Hf as [H1 H2].
      constructor; [intros st; apply (Ha 1 st H1) | apply IH; exact H2]. }
    cbn [ts_postfix denote]. rewrite ts_eval_loop_app.
    destruct (ts_value_args env args Hall st) as [-> Hl].
    destruct (denote_args (denote ts_backend env) args) as [xs|err];
      cbn [bind]; [|reflexivity].
    specialize (Hl xs eq_refl).
    cbn [ts_expr.eval_loop].
    rewrite stack_facts.eval_func_args;
      [ | reflexivity | destruct xs, args; simpl in *; congruence
        | simpl; congruence ].
    simpl. rewrite Hl.
    destruct (ts_expr.apply_function _ xs); reflexivity.
Qed.

Lemma ts_eval_tree env (e : expr) :
  parses_at 1 e = true ->
  ts_expr.eval_rpn (ts_postfix e) env = denote ts_backend env e.
Proof.
  intros Hwf. unfold ts_expr.eval_rpn. rewrite (ts_value_tree env e 1 [] Hwf).
  destruct (denote ts_backend env e); reflexivity.
Qed.

Lemma ts_execute_tree strtod (input z : string) (e : expr) env :
  tsexpr.tokens strtod input =
    (ident z :: tsexpr.tok Assign :: infix e, None) ->
  parses_at 1 e = true ->
  ts_expr.execute_assignment strtod input env =
  if callable e then
    match denote ts_backend env e with
    | Ok x => (tsexpr.store_var ts_backend env z x, None)
    | Err err => (env, Some err)
    end
  else (env, Some (ParseError "Function call has empty argument list")).
Proof.
  intros Htok Hwf. unfold ts_expr.execute_assignment, ts_expr.compile.
  rewrite lexer_facts.tokens_conv, Htok. cbn [fst snd].
  rewrite (ts_compile_tree e z Hwf).
  destruct (callable e); [|reflexivity].
  cbn [ts_expr.rpn ts_expr.target]. rewrite (ts_eval_tree env e Hwf).
  destruct (denote ts_backend env e) as [[t|d]|err]; reflexivity.
Qed.

End ts_tree_facts.

(** X22.  [ts::expr::compile] on the grammar: for a parse tree (with
    argument counts an [int] holds) whose calls each have an argument that
    sets [saw_expr] (an argument holding a number, a variable or a
    parenthesis outside its own calls), [compile] returns the target and
    the postfix form of the tree, every function token carrying its
    argument count in [arity]; for any other parse tree it throws "Function
    call has empty argument list", although no argument list of the tree is
    empty. *)
Theorem X22_ts_expr_compile_on_the_grammar :
  forall (e : expr) (z : string),
    parses_at 1 e = true ->
    arities_fit e = true ->
    ts_expr.compile_tokens
      (map conv (ident z :: tsexpr.tok Assign :: infix e), None) =
    if callable e then Ok (ts_expr.mkCompiled z (ts_postfix e))
    else Err (ParseError "Function call has empty argument list").
Proof.
  intros e z Hwf _. apply ts_tree_facts.ts_compile_tree. exact Hwf.
Qed.

Lemma X22_ts_expr_compile_on_the_grammar_witness :
  ts_expr.compile_tokens
    (map conv (ident "z" :: tsexpr.tok Assign ::
               infix (ECall "sumproduct"
                        [ECall "sumproduct" [EVar "a"; EVar "b"];
                         ECall "sumproduct" [EVar "a"; EVar "b"]])), None) =
  Err (ParseError "Function call has empty argument list").
Proof.
  apply (X22_ts_expr_compile_on_the_grammar
           (ECall "sumproduct"
              [ECall "sumproduct" [EVar "a"; EVar "b"];
               ECall "sumproduct" [EVar "a"; EVar "b"]]) "z");
    reflexivity.
Defined.

(** X23.  [eval_rpn] computes the value of a parse tree (with argument
    counts an [int] holds) from its postfix form: the operands from left to
    right, [negate_value], [apply_binary] and [apply_function] applied once
    their operands are there, and the first exception any of them
    throws. *)
Theorem X23_eval_rpn_computes_the_value :
  forall (env : gmap string ts_expr.TimeSeries) (e : expr),
    parses_at 1 e = true ->
    arities_fit e = true ->
    ts_expr.eval_rpn (ts_postfix e) env = denote ts_backend env e.
Proof. intros env e Hwf _. apply ts_tree_facts.ts_eval_tree. exact Hwf. Qed.

Lemma X23_eval_rpn_computes_the_value_witness :
  ts_expr.eval_rpn (ts_postfix example_tree) ts_env =
  denote ts_backend ts_env example_tree.
Proof.
  apply (X23_eval_rpn_computes_the_value ts_env example_tree); reflexivity.
Defined.

(** X24.  [execute_assignment] on a statement of the grammar: when the
    tokens of the input are a target, ['='] and the tokens of a parse tree
    (with argument counts an [int] holds), it binds the target to the value
    of the tree (a scalar as a series of one point), or throws what the
    evaluation of the tree throws and leaves the environment as it was;
    unless a call of the tree has no argument that sets [saw_expr], in
    which case it throws the parse error and evaluates nothing. *)
Theorem X24_assignment_binds_the_value :
  forall strtod (input z : string) (e : expr)
         (env : gmap string ts_expr.TimeSeries),
    tsexpr.tokens strtod input =
      (ident z :: tsexpr.tok Assign :: infix e, None) ->
    parses_at 1 e = true ->
    arities_fit e = true ->
    ts_expr.execute_assignment strtod input env =
    if callable e then
      match denote ts_backend env e with
      | Ok (ts_expr.VDouble x) => (<[z := ts_expr.from_scalar x]> env, None)
      | Ok (ts_expr.VTimeSeries t) => (<[z := t]> env, None)
      | Err err => (env, Some err)
      end
    else (env, Some (ParseError "Function call has empty argument list")).
Proof.
  intros strtod input z e env Htok Hwf _.
  rewrite (ts_tree_facts.ts_execute_tree strtod input z e env Htok Hwf).
  destruct (callable e); [|reflexivity].
  destruct (denote ts_backend env e) as [[t|x]|err]; reflexivity.
Qed.

Lemma X24_assignment_binds_the_value_witness :
  ts_expr.execute_assignment libc.strtod_dec
    "z = -(a + b) * 2 - sumproduct(a, b / 4)" ts_env =
  (<["z" := ts_expr.mkTimeSeries [-57; -79; -101]%float]> ts_env, None).
Proof.
  rewrite (X24_assignment_binds_the_value libc.strtod_dec
             "z = -(a + b) * 2 - sumproduct(a, b / 4)" "z" example_tree
             ts_env);
    vm_compute; reflexivity.
Defined.

(** X25.  The two pipelines on a statement of the grammar: they end in
    the same way, with the same bindings, when every call of the tree has
    an argument that sets [saw_expr]; otherwise [tsexpr::compile] returns
    the program of the tree where [ts::expr::compile] throws. *)
Theorem X25_pipelines_on_the_grammar :
  forall strtod (input z : string) (e : expr)
         (env : gmap string ts_expr.TimeSeries),
    tsexpr.tokens strtod input =
      (ident z :: tsexpr.tok Assign :: infix e, None) ->
    parses_at 1 e = true ->
    arities_fit e = true ->
    (callable e = true ->
     ts_expr.execute_assignment strtod input env =
     tsexpr.compile_and_execute ts_backend strtod input env) /\
    (callable e = false ->
     tsexpr.compile strtod input = Ok (code_of e ++ [Store z]) /\
     ts_expr.compile strtod input =
     Err (ParseError "Function call has empty argument list")).
Proof.
  intros strtod input z e env Htok Hwf Hfit. split; intros Hc.
  - rewrite (ts_tree_facts.ts_execute_tree strtod input z e env Htok Hwf), Hc.
    unfold tsexpr.compile_and_execute, tsexpr.compile. rewrite Htok.
    rewrite (tree_facts.compile_tree e z Hwf Hfit).
    symmetry. apply tree_facts.execute_tree.
  - split.
    + unfold tsexpr.compile. rewrite Htok.
      apply tree_facts.compile_tree; assumption.
    + unfold ts_expr.compile.
      rewrite lexer_facts.tokens_conv, Htok. cbn [fst snd].
      rewrite (ts_tree_facts.ts_compile_tree e z Hwf), Hc. reflexivity.
Qed.

Lemma X25_pipelines_on_the_grammar_witness :
  ts_expr.execute_assignment libc.strtod_dec
    "z = -(a + b) * 2 - sumproduct(a, b / 4)" ts_env =
  tsexpr.compile_and_execute ts_backend libc.strtod_dec
    "z = -(a + b) * 2 - sumproduct(a, b / 4)" ts_env.
Proof.
  apply (proj1 (X25_pipelines_on_the_grammar libc.strtod_dec
                  "z = -(a + b) * 2 - sumproduct(a, b / 4)" "z" example_tree
                  ts_env eq_refl eq_refl eq_refl)).
  reflexivity.
Defined.
